(** * Markdown2GoogleDocFormat: the line-based Markdown converter

    A shallow embedding of [src/utils/markdownProcessor.js]:

    - [convertMarkdownToRequests] and [processInlineFormatting], the
      regular-expression based converter that walks the lines of the input
      and pushes Google Docs requests while it advances [index];
    - the element loop of the [marked]-based [processMarkdown], which turns
      the elements collected by the renderer into requests.

    JavaScript strings are sequences of UTF-16 code units, and [length],
    [split], [trim] and the regular expressions (none has the [u] flag) all
    work on code units, so a string is a [list N] here. *)

From Stdlib Require Import String Ascii.
From Stdlib Require Import List NArith ZArith Arith Bool Lia.
From Stdlib Require Import Sorting.Sorted Numbers.DecimalString.
Import ListNotations.

(* ================================================================== *)
(** ** JavaScript strings *)
(* ================================================================== *)

Module JS.

Definition code_unit := N.
Definition jsstring := list code_unit.

(** An ASCII string literal of the source, one code unit per character. *)
Definition lit (s : String.string) : jsstring :=
  map N_of_ascii (String.list_ascii_of_string s).
Arguments lit s%_string.

(** ['\n'] *)
Definition LF : code_unit := 10%N.

(** The [LineTerminator] code points of ECMAScript: LF, CR, LS, PS. *)
Definition isLineTerminator (c : code_unit) : bool :=
  (c =? 10)%N || (c =? 13)%N || (c =? 8232)%N || (c =? 8233)%N.

(** The [WhiteSpace] code points of ECMAScript: TAB, VT, FF, ZWNBSP and the
    space separators (category Zs). *)
Definition isWhiteSpace (c : code_unit) : bool :=
  (c =? 9)%N || (c =? 11)%N || (c =? 12)%N || (c =? 32)%N || (c =? 160)%N
  || (c =? 5760)%N || ((8192 <=? c)%N && (c <=? 8202)%N)
  || (c =? 8239)%N || (c =? 8287)%N || (c =? 12288)%N || (c =? 65279)%N.

(** What [String.prototype.trim] strips and what [\s] matches. *)
Definition isSpace (c : code_unit) : bool :=
  isWhiteSpace c || isLineTerminator c.

Fixpoint dropWhile (p : code_unit -> bool) (s : jsstring) : jsstring :=
  match s with
  | [] => []
  | c :: r => if p c then dropWhile p r else s
  end.

Definition trimStart (s : jsstring) : jsstring := dropWhile isSpace s.
Definition trimEnd (s : jsstring) : jsstring := rev (dropWhile isSpace (rev s)).

(** [s.trim()] *)
Definition trim (s : jsstring) : jsstring := trimEnd (trimStart s).

(** [s.startsWith(p)] *)
Fixpoint startsWith (s p : jsstring) : bool :=
  match p, s with
  | [], _ => true
  | _ :: _, [] => false
  | a :: p', b :: s' => (a =? b)%N && startsWith s' p'
  end.

(** [s.split('\n')]: never empty, the empty string gives one empty piece. *)
Fixpoint split (s : jsstring) : list jsstring :=
  match s with
  | [] => [[]]
  | c :: r =>
      if (c =? LF)%N then [] :: split r
      else match split r with
           | [] => [[c]]
           | l :: ls => (c :: l) :: ls
           end
  end.

(** [s.substring(a, b)] for [a <= b]. *)
Definition substring (a b : nat) (s : jsstring) : jsstring :=
  firstn (b - a) (skipn a s).

(** [String(n)] (a template literal's [${n}]) for a non-negative integer. *)
Definition ofNat (n : nat) : jsstring :=
  lit (NilEmpty.string_of_uint (Nat.to_uint n)).

Fixpoint eqb (a b : jsstring) : bool :=
  match a, b with
  | [], [] => true
  | x :: a', y :: b' => (x =? y)%N && eqb a' b'
  | _, _ => false
  end.

End JS.

Import JS.

(* ================================================================== *)
(** ** Regular expressions *)
(* ================================================================== *)

(** The backtracking matcher of ECMAScript for the constructs the source
    uses.  A matcher returns every way to continue from a state, in the
    order in which backtracking tries them; the match is the first one. *)

Module Regex.

(** A character class is its membership test. *)
Definition cls := code_unit -> bool.

Definition char (a : ascii) : cls := fun c => (c =? N_of_ascii a)%N.
(** [.] without the [s] flag *)
Definition dot : cls := fun c => negb (isLineTerminator c).
(** [\s] *)
Definition space : cls := isSpace.
(** [\d] *)
Definition digit : cls := fun c => (48 <=? c)%N && (c <=? 57)%N.
(** [[a-zA-Z0-9]] *)
Definition alnum : cls := fun c =>
  ((97 <=? c)%N && (c <=? 122)%N) || ((65 <=? c)%N && (c <=? 90)%N)
  || digit c.

Inductive regex :=
| Chr (c : cls)                               (* one character of a class *)
| Seq (a b : regex)                           (* ab *)
| Alt (a b : regex)                           (* a|b *)
| Group (n : nat) (a : regex)                 (* capturing group number n *)
| Greedy (c : cls) (lo : nat) (hi : option nat) (* c{lo,hi}, c*, c+ *)
| Lazy (c : cls) (lo : nat) (hi : option nat)   (* c{lo,hi}?, c*?, c+? *)
| Opt (a : regex)                             (* a? *)
| Backref (n : nat)                           (* \n *)
| NegAhead (a : regex)                        (* (?!a) *)
| NegBehind (a : regex)                       (* (?<!a) *)
| Bol                                         (* ^ without the m flag *)
| Eol.                                        (* $ without the m flag *)

Declare Scope regex_scope.
Delimit Scope regex_scope with re.
Bind Scope regex_scope with regex.
Infix ";;" := Seq (at level 61, right associativity) : regex_scope.

(** The state of a match: the position reached and the captures so far,
    each the pair of the start and the end of the captured substring;
    the latest capture of a group is the first in the list. *)
Record mstate := MState { pos : nat; caps : list (nat * (nat * nat)) }.

Fixpoint capture (n : nat) (cs : list (nat * (nat * nat)))
  : option (nat * nat) :=
  match cs with
  | [] => None
  | (k, v) :: r => if Nat.eqb k n then Some v else capture n r
  end.

(** The number of leading characters of [l] in the class [c]. *)
Fixpoint prefixLen (c : cls) (l : jsstring) : nat :=
  match l with
  | [] => 0
  | x :: r => if c x then S (prefixLen c r) else 0
  end.

Section Matcher.

(** The subject string. *)
Variable s : jsstring.

Definition advance (n : nat) (st : mstate) : mstate :=
  MState (pos st + n) (caps st).

(** The most repetitions of [c] possible at [st], at most [hi]. *)
Definition maxReps (c : cls) (hi : option nat) (st : mstate) : nat :=
  let k := prefixLen c (skipn (pos st) s) in
  match hi with
  | Some h => Nat.min h k
  | None => k
  end.

Fixpoint m (r : regex) (st : mstate) : list mstate :=
  match r with
  | Chr c =>
      match nth_error s (pos st) with
      | Some x => if c x then [advance 1 st] else []
      | None => []
      end
  | Seq a b => flat_map (m b) (m a st)
  | Alt a b => m a st ++ m b st
  | Group n a =>
      map (fun st' => MState (pos st') ((n, (pos st, pos st')) :: caps st'))
          (m a st)
  | Greedy c lo hi =>
      (* the most repetitions first, then one fewer, down to lo *)
      map (fun n => advance n st) (rev (seq lo (S (maxReps c hi st) - lo)))
  | Lazy c lo hi =>
      (* the fewest repetitions first *)
      map (fun n => advance n st) (seq lo (S (maxReps c hi st) - lo))
  | Opt a =>
      (* one iteration, refused when it matches the empty string, or none;
         the groups of a have no capture yet where the source uses a? *)
      filter (fun st' => pos st <? pos st') (m a st) ++ [st]
  | Backref n =>
      match capture n (caps st) with
      | None => [st]
      | Some (a, b) =>
          if JS.eqb (substring a b s)
                    (substring (pos st) (pos st + (b - a)) s)
             && (pos st + (b - a) <=? length s)
          then [advance (b - a) st] else []
      end
  | NegAhead a =>
      match m a st with
      | [] => [st]
      | _ :: _ => []
      end
  | NegBehind a =>
      (* no substring that ends at the position matches a *)
      if existsb (fun p => existsb (fun st' => pos st' =? pos st)
                                   (m a (MState p (caps st))))
                 (seq 0 (S (pos st)))
      then [] else [st]
  | Bol => if pos st =? 0 then [st] else []
  | Eol => if pos st =? length s then [st] else []
  end.

(** The result of a successful [exec]: [index], the end of the match
    (the new [lastIndex] of a global regular expression) and the groups. *)
Record result := Result {
  index : nat;
  endIndex : nat;
  groups : list (nat * (nat * nat))
}.

(** [match[n]] of a group that took part in the match. *)
Definition group (n : nat) (r : result) : jsstring :=
  match capture n (groups r) with
  | Some (a, b) => substring a b s
  | None => []
  end.

Definition matchAt (r : regex) (i : nat) : option result :=
  match m r (MState i []) with
  | st :: _ => Some (Result i (pos st) (caps st))
  | [] => None
  end.

Fixpoint firstMatch (r : regex) (starts : list nat) : option result :=
  match starts with
  | [] => None
  | i :: rest =>
      match matchAt r i with
      | Some res => Some res
      | None => firstMatch r rest
      end
  end.

(** [r.exec(s)] with [r.lastIndex = lastIndex]: the leftmost match that
    starts at [lastIndex] or later; [null] when [lastIndex] is past the end. *)
Definition exec (r : regex) (lastIndex : nat) : option result :=
  firstMatch r (seq lastIndex (S (length s) - lastIndex)).

End Matcher.

(** [s.match(r)] for a regular expression without the [g] flag. *)
Definition matches (s : jsstring) (r : regex) : option result := exec s r 0.

End Regex.

Import Regex.
Local Open Scope regex_scope.

(** The regular expressions of the source, quoted with a space between
    their tokens. *)

(** [/^ ( #{1,6} ) \s+ ( .+ ) $/] *)
Definition headingRegex : regex :=
  Bol ;; Group 1 (Greedy (char "#") 1 (Some 6)) ;; Greedy space 1 None ;;
  Group 2 (Greedy dot 1 None) ;; Eol.

(** [/^ ( \s* ) - \s+ ( .+ ) $/] *)
Definition bulletedListRegex : regex :=
  Bol ;; Group 1 (Greedy space 0 None) ;; Chr (char "-") ;;
  Greedy space 1 None ;; Group 2 (Greedy dot 1 None) ;; Eol.

(** [/^ ( \s* ) \d+ \. \s+ ( .+ ) $/] *)
Definition numberedListRegex : regex :=
  Bol ;; Group 1 (Greedy space 0 None) ;; Greedy digit 1 None ;;
  Chr (char ".") ;; Greedy space 1 None ;; Group 2 (Greedy dot 1 None) ;; Eol.

(** [/^ ``` ( [a-zA-Z0-9]* )? $/] *)
Definition codeStartRegex : regex :=
  Bol ;; Chr (char "`") ;; Chr (char "`") ;; Chr (char "`") ;;
  Opt (Group 1 (Greedy alnum 0 None)) ;; Eol.

(** [/ ( \*\* | __ ) ( .*? ) \1 /g] *)
Definition boldRegex : regex :=
  Group 1 (Alt (Chr (char "*") ;; Chr (char "*"))
               (Chr (char "_") ;; Chr (char "_"))) ;;
  Group 2 (Lazy dot 0 None) ;; Backref 1.

(** [/ (?<! \* | _ ) ( \* | _ ) ( (?! \1 ) .*? ) \1 (?! \1 ) /g] *)
Definition italicRegex : regex :=
  NegBehind (Alt (Chr (char "*")) (Chr (char "_"))) ;;
  Group 1 (Alt (Chr (char "*")) (Chr (char "_"))) ;;
  Group 2 (NegAhead (Backref 1) ;; Lazy dot 0 None) ;;
  Backref 1 ;; NegAhead (Backref 1).

(** [/ \[ ( .*? ) \] \( ( .*? ) \) /g] *)
Definition linkRegex : regex :=
  Chr (char "[") ;; Group 1 (Lazy dot 0 None) ;; Chr (char "]") ;;
  Chr (char "(") ;; Group 2 (Lazy dot 0 None) ;; Chr (char ")").

(* ================================================================== *)
(** ** Google Docs requests *)
(* ================================================================== *)

(** [textStyle] of an [updateTextStyle] request. *)
Inductive textStyle :=
| bold                      (* { bold: true } *)
| italic                    (* { italic: true } *)
| link (url : jsstring)     (* { link: { url } } *)
| codeStyle (fontFamily : string) (red green blue : nat).
    (* { fontFamily, backgroundColor: { color: { rgbColor } } },
       the colour components in hundredths *)

(** [paragraphStyle] of an [updateParagraphStyle] request. *)
Inductive paragraphStyle :=
| HEADING (level : nat)     (* { namedStyleType: `HEADING_${level}` } *)
| NORMAL_TEXT               (* { namedStyleType: 'NORMAL_TEXT' } *)
| indentPT (indentStart indentFirstLine : Z).
    (* { indentStart: { magnitude, unit: 'PT' }, indentFirstLine: ... } *)

Inductive bulletPreset :=
| BULLET_DISC_CIRCLE_SQUARE
| NUMBERED_DECIMAL_NESTED.

Inductive request :=
| insertText (text : jsstring) (location : nat)
| updateParagraphStyle (style : paragraphStyle) (startIndex endIndex : nat)
                       (fields : string)
| updateTextStyle (style : textStyle) (startIndex endIndex : nat)
                  (fields : string)
| createParagraphBullets (startIndex endIndex : nat) (preset : bulletPreset).

(** The style of a code block: 'Courier New' on rgb(0.95, 0.95, 0.95). *)
Definition courierOnGray : textStyle := codeStyle "Courier New" 95 95 95.

(* ================================================================== *)
(** ** processInlineFormatting *)
(* ================================================================== *)

(** [while ((match = re.exec(text)) !== null) { ... }] for a regular
    expression with the [g] flag: every call starts at the end of the match
    before.  A match that does not move [lastIndex] would be found again
    for ever; the fuel runs out and the result is [None]. *)
Fixpoint execLoop (fuel : nat) (text : jsstring) (re : regex) (lastIndex : nat)
  : option (list result) :=
  match exec text re lastIndex with
  | None => Some []
  | Some res =>
      match fuel with
      | 0 => None
      | S fuel' =>
          option_map (cons res) (execLoop fuel' text re (endIndex res))
      end
  end.

Section Converter.

(** Whether the engine raises an error in the call [italicRegex.exec(text)]
    made with the given [lastIndex].  ECMAScript's [exec] never raises; an
    engine may (a backtracking or stack limit), which is what the [try]
    around the italic loop is for. *)
Variable engineFault : jsstring -> nat -> bool.

(** The italic loop inside its [try]: an error leaves the loop, the
    [catch] logs a warning and the requests pushed so far stay. *)
Fixpoint italicLoop (fuel : nat) (text : jsstring) (lastIndex : nat)
  : option (list result) :=
  if engineFault text lastIndex then Some []
  else
    match exec text italicRegex lastIndex with
    | None => Some []
    | Some res =>
        match fuel with
        | 0 => None
        | S fuel' =>
            option_map (cons res) (italicLoop fuel' text (endIndex res))
        end
    end.

Definition boldRequest (text : jsstring) (startIndex : nat) (mt : result)
  : request :=
  let matchText := group text 2 mt in
  let matchStart := Regex.index mt + length (group text 1 mt) in
  let matchEnd := matchStart + length matchText in
  updateTextStyle bold (startIndex + matchStart) (startIndex + matchEnd) "bold".

Definition italicRequest (text : jsstring) (startIndex : nat) (mt : result)
  : request :=
  let matchText := group text 2 mt in
  let matchStart := Regex.index mt + 1 in
  let matchEnd := matchStart + length matchText in
  updateTextStyle italic (startIndex + matchStart) (startIndex + matchEnd)
                  "italic".

Definition linkRequest (text : jsstring) (startIndex : nat) (mt : result)
  : request :=
  let linkText := group text 1 mt in
  let linkUrl := group text 2 mt in
  let linkStart := Regex.index mt + 1 in
  let linkEnd := linkStart + length linkText in
  updateTextStyle (link linkUrl) (startIndex + linkStart)
                  (startIndex + linkEnd) "link".

(** The requests of the three loops, in the order they are pushed. *)
Definition boldRequests (text : jsstring) (startIndex : nat)
  : option (list request) :=
  option_map (map (boldRequest text startIndex))
             (execLoop (S (length text)) text boldRegex 0).

Definition italicRequests (text : jsstring) (startIndex : nat)
  : option (list request) :=
  option_map (map (italicRequest text startIndex))
             (italicLoop (S (length text)) text 0).

Definition linkRequests (text : jsstring) (startIndex : nat)
  : option (list request) :=
  option_map (map (linkRequest text startIndex))
             (execLoop (S (length text)) text linkRegex 0).

(** [processInlineFormatting(requests, text, startIndex)]; the result is
    the array [requests] after the call. *)
Definition processInlineFormatting (requests : list request) (text : jsstring)
    (startIndex : nat) : option (list request) :=
  match boldRequests text startIndex with
  | None => None
  | Some bs =>
      match italicRequests text startIndex with
      | None => None
      | Some its =>
          match linkRequests text startIndex with
          | None => None
          | Some ls => Some (requests ++ bs ++ its ++ ls)
          end
      end
  end.

(* ================================================================== *)
(** ** convertMarkdownToRequests *)
(* ================================================================== *)

(** The variables of the [for] loop: [lines] from [lines[i]] on, [index]
    and [requests]. *)
Record state := State {
  lines : list jsstring;
  index : nat;
  requests : list request
}.

(** The [while] loop that looks for the end of a code block: [ls] is
    [lines] from [lines[j]] on; the result is [codeContent] and [lines]
    from the final [j] on. *)
Fixpoint scanCode (ls : list jsstring) (codeContent : jsstring)
  : jsstring * list jsstring :=
  match ls with
  | [] => (codeContent, [])
  | l :: ls' =>
      if startsWith (trim l) (lit "```") then (codeContent, ls)
      else scanCode ls' (codeContent ++ l ++ [LF])
  end.

(** The branches of a bulleted and of a numbered list item, which differ
    in [bulletPreset] alone; [mt] is [bulletedListMatch] or
    [numberedListMatch]. *)
Definition listItem (preset : bulletPreset) (line : jsstring) (mt : result)
    (rest : list jsstring) (index : nat) (requests : list request) : state :=
  let indent := length (group line 1 mt) in
  let text := group line 2 mt in
  let bullets :=
    createParagraphBullets index (index + length text) preset in
  let indented :=
    if 0 <? indent
    then [updateParagraphStyle (indentPT (Z.of_nat (indent * 18)) 0%Z)
            index (index + length text) "indentStart,indentFirstLine"]
    else [] in
  State rest (index + (length text + 1))
        (requests ++ [insertText (text ++ [LF]) index; bullets] ++ indented).

(** The tests of the loop body on [line], in the order of the source: the
    first that succeeds decides what the iteration does. *)
Inductive block :=
| BlankLine                              (* line.trim() === '' *)
| Heading (headingMatch : result)
| Bulleted (bulletedListMatch : result)
| Numbered (numberedListMatch : result)
| CodeStart (codeStartMatch : result)
| Paragraph.

Definition classify (line : jsstring) : block :=
  if JS.eqb (trim line) [] then BlankLine
  else
    match matches line headingRegex with
    | Some headingMatch => Heading headingMatch
    | None =>
        match matches line bulletedListRegex,
              matches line numberedListRegex with
        | Some bulletedListMatch, _ => Bulleted bulletedListMatch
        | None, Some numberedListMatch => Numbered numberedListMatch
        | None, None =>
            if startsWith (trim line) (lit "```") then
              match matches (trim line) codeStartRegex with
              | Some codeStartMatch => CodeStart codeStartMatch
              | None => Paragraph
              end
            else Paragraph
        end
    end.

(** One iteration of the [for] loop, for [line = lines[i]] followed by
    [rest]; the state after it has the lines from the next [i] on. *)
Definition body (line : jsstring) (rest : list jsstring) (index : nat)
    (requests : list request) : option state :=
  match classify line with
  | BlankLine =>
      Some (State rest (index + 1) (requests ++ [insertText [LF] index]))
  | Heading headingMatch =>
      let level := length (group line 1 headingMatch) in
      let text := group line 2 headingMatch in
      Some (State rest (index + (length text + 1))
              (requests ++
               [insertText (text ++ [LF]) index;
                updateParagraphStyle (HEADING level) index
                  (index + length text) "namedStyleType"]))
  | Bulleted bulletedListMatch =>
      Some (listItem BULLET_DISC_CIRCLE_SQUARE line bulletedListMatch
                     rest index requests)
  | Numbered numberedListMatch =>
      Some (listItem NUMBERED_DECIMAL_NESTED line numberedListMatch
                     rest index requests)
  | CodeStart _ =>
      let (codeContent, fromJ) := scanCode rest [] in
      (* i = j; continue: the line lines[j], the closing fence, is skipped *)
      Some (State (tl fromJ) (index + length codeContent)
              (requests ++
               [insertText codeContent index;
                updateTextStyle courierOnGray index
                  (index + length codeContent)
                  "fontFamily,backgroundColor"]))
  | Paragraph =>
      option_map (State rest (index + (length line + 1)))
        (processInlineFormatting
           (requests ++ [insertText (line ++ [LF]) index]) line index)
  end.

(** The [for] loop; every iteration takes at least one line, so as many
    iterations as there are lines are enough. *)
Fixpoint loop (fuel : nat) (st : state) : option state :=
  match lines st with
  | [] => Some st
  | line :: rest =>
      match fuel with
      | 0 => None
      | S fuel' =>
          match body line rest (index st) (requests st) with
          | None => None
          | Some st' => loop fuel' st'
          end
      end
  end.

(** The state at the [return]: [index] is the final cursor. *)
Definition convert (markdown : jsstring) : option state :=
  let lines := split markdown in
  loop (length lines) (State lines 1 []).

End Converter.

(** [convertMarkdownToRequests(markdown)] on an engine that follows
    ECMAScript. *)
Definition noFault : jsstring -> nat -> bool := fun _ _ => false.

Definition convertMarkdownToRequests (markdown : jsstring)
  : option (list request) :=
  option_map requests (convert noFault markdown).

(* ================================================================== *)
(** ** The element loop of the marked-based processMarkdown *)
(* ================================================================== *)

Module Marked.

(** What the renderer pushes on [elements]; the [style] of an element is
    fixed by its type (and, for a heading, its level). *)
Inductive element :=
| heading (text : jsstring) (level : nat)
| paragraph (text : jsstring)
| listItem (text : jsstring) (ordered : bool) (index : nat)
| codeBlock (text : jsstring)
| image (href text : jsstring).

(** [element.style] of a list item:
    indentStart 36 PT, indentFirstLine -18 PT. *)
Definition listItemStyle : paragraphStyle := indentPT 36 (-18).

(** The bullet glyph U+2022 and a space. *)
Definition bulletPrefix : jsstring := [8226%N; 32%N].

(** [element.ordered ? `${element.index}. ` : bulletPrefix] *)
Definition prefix (ordered : bool) (index : nat) : jsstring :=
  if ordered then ofNat index ++ lit ". " else bulletPrefix.

(** [a || b] on strings: the empty string is falsy. *)
Definition orElse (a b : jsstring) : jsstring :=
  match a with [] => b | _ :: _ => a end.

(** One iteration of [for (const element of elements)]: the [switch]. *)
Definition emit (e : element) (st : nat * list request) : nat * list request :=
  let (index, requests) := st in
  match e with
  | heading text level =>
      (index + (length text + 1),
       requests ++ [insertText (text ++ [LF]) index;
                    updateParagraphStyle (HEADING level) index
                      (index + length text) "namedStyleType"])
  | paragraph text =>
      (index + (length text + 1),
       requests ++ [insertText (text ++ [LF]) index])
  | listItem text ordered n =>
      let prefix := prefix ordered n in
      (index + (length prefix + length text + 1),
       requests ++ [insertText (prefix ++ text ++ [LF]) index;
                    updateParagraphStyle listItemStyle index
                      (index + length prefix + length text)
                      "indentStart,indentFirstLine"])
  | codeBlock text =>
      (index + (length text + 1),
       requests ++ [insertText (text ++ [LF]) index;
                    updateTextStyle courierOnGray index
                      (index + length text) "fontFamily,backgroundColor"])
  | image href text =>
      let placeholder :=
        lit "[Image: " ++ orElse text href ++ lit "]" ++ [LF] in
      (index + length placeholder,
       requests ++ [insertText placeholder index])
  end.

(** The requests for the elements that [marked] made the renderer push. *)
Definition requestsOf (elements : list element) : list request :=
  snd (fold_left (fun st e => emit e st) elements (1, [])).

End Marked.

(* ================================================================== *)
(** ** The cursor of a request sequence *)
(* ================================================================== *)

(** [range.endIndex] of a request that has a range. *)
Definition rangeEnd (r : request) : option nat :=
  match r with
  | insertText _ _ => None
  | updateParagraphStyle _ _ e _ => Some e
  | updateTextStyle _ _ e _ => Some e
  | createParagraphBullets _ e _ => Some e
  end.

(** The total length of the texts of the [insertText] requests. *)
Fixpoint insertedLength (rs : list request) : nat :=
  match rs with
  | [] => 0
  | insertText text _ :: rs' => length text + insertedLength rs'
  | _ :: rs' => insertedLength rs'
  end.

(** Every request with the cursor at the time it is emitted, for a cursor
    that starts at [cursor] and that each [insertText] advances, right
    after it, by the length of its text. *)
Fixpoint emissions (cursor : nat) (rs : list request) : list (request * nat) :=
  match rs with
  | [] => []
  | insertText text loc :: rs' =>
      (insertText text loc, cursor) :: emissions (cursor + length text) rs'
  | r :: rs' => (r, cursor) :: emissions cursor rs'
  end.

(** A request within the cursor: its range, if it has one, ends at the
    cursor or before, and an [insertText] inserts at the cursor. *)
Definition withinCursor (rc : request * nat) : Prop :=
  (forall e, rangeEnd (fst rc) = Some e -> e <= snd rc) /\
  (forall text loc, fst rc = insertText text loc -> loc = snd rc).

Definition isTextStyle (r : request) : bool :=
  match r with updateTextStyle _ _ _ _ => true | _ => false end.

Definition isItalic (r : request) : bool :=
  match r with updateTextStyle italic _ _ _ => true | _ => false end.

(** A request with a range that ends at [bound] or before. *)
Definition styleWithin (bound : nat) (r : request) : Prop :=
  exists e, rangeEnd r = Some e /\ e <= bound.

(** The cursor of the requests pushed so far is [index], and every
    request pushed so far is within the cursor of its emission. *)
Definition cursorKept (st : state) : Prop :=
  index st = 1 + insertedLength (requests st) /\
  Forall withinCursor (emissions 1 (requests st)).


(** Whether a line, once trimmed, starts with a fence: the test that ends
    the [while] loop of a code block. *)
Definition opensFence (l : jsstring) : bool := startsWith (trim l) (lit "```").

(** A line the loop handles as a list item, with the match of its
    pattern and the bullet preset of its branch. *)
Definition listItemLine (line : jsstring) (mt : result) (preset : bulletPreset)
  : Prop :=
  (classify line = Bulleted mt /\ preset = BULLET_DISC_CIRCLE_SQUARE) \/
  (classify line = Numbered mt /\ preset = NUMBERED_DECIMAL_NESTED).


(** The states the [for] loop goes through from [st], one iteration after
    the other. *)
Inductive iterates (fault : jsstring -> nat -> bool) : state -> state -> Prop :=
| iterates_here st : iterates fault st st
| iterates_next st line rest st' st'' :
    lines st = line :: rest ->
    body fault line rest (index st) (requests st) = Some st' ->
    iterates fault st' st'' ->
    iterates fault st st''.

(** The state before the first iteration. *)
Definition initial (markdown : jsstring) : state :=
  State (split markdown) 1 [].

(* ================================================================== *)
(** ** The matcher stays inside the subject *)
(* ================================================================== *)

(** The least number of characters a match of [r] takes. *)
Fixpoint minLen (r : regex) : nat :=
  match r with
  | Chr _ => 1
  | Seq a b => minLen a + minLen b
  | Alt a b => Nat.min (minLen a) (minLen b)
  | Group _ a => minLen a
  | Greedy _ lo _ | Lazy _ lo _ => lo
  | Opt _ | Backref _ | NegAhead _ | NegBehind _ | Bol | Eol => 0
  end.

(** Whether [r] has no capturing group. *)
Fixpoint groupFree (r : regex) : bool :=
  match r with
  | Seq a b | Alt a b => groupFree a && groupFree b
  | Group _ _ => false
  | Opt a => groupFree a
  | _ => true
  end.

(* ================================================================== *)
(** ** Blocks, spans and the text of the document *)
(* ================================================================== *)

(** [range.startIndex] of a request that has a range. *)
Definition rangeStart (r : request) : option nat :=
  match r with
  | insertText _ _ => None
  | updateParagraphStyle _ s _ _ => Some s
  | updateTextStyle _ s _ _ => Some s
  | createParagraphBullets s _ _ => Some s
  end.

(** A request with a range that lies between [lo] and [hi]. *)
Definition spanWithin (lo hi : nat) (r : request) : Prop :=
  exists s e, rangeStart r = Some s /\ rangeEnd r = Some e /\
              lo <= s /\ s <= e /\ e <= hi.

(** What one iteration pushes: the [insertText] of a text at a location
    and the requests that style it. *)
Definition pushed (b : jsstring * nat * list request) : list request :=
  let '(text, location, styles) := b in insertText text location :: styles.

(** A block whose styles all range inside the text it inserts. *)
Definition stylesInside (b : jsstring * nat * list request) : Prop :=
  let '(text, location, styles) := b in
  Forall (spanWithin location (location + length text)) styles.

(** The text of the document after the requests: the inserted texts one
    after the other (every [insertText] inserts at the end, see the
    cursor). *)
Fixpoint insertedText (rs : list request) : jsstring :=
  match rs with
  | [] => []
  | insertText text _ :: rs' => text ++ insertedText rs'
  | _ :: rs' => insertedText rs'
  end.

(** The number of characters of lines with their newlines. *)
Definition chars (ls : list jsstring) : nat :=
  list_sum (map (fun l => S (length l)) ls).

(** The lines joined again, a newline after each. *)
Definition unlines (ls : list jsstring) : jsstring :=
  concat (map (fun l => l ++ [LF]) ls).

(** A line that the converter inserts as it is: an empty line or a
    paragraph. *)
Definition plainLine (l : jsstring) : Prop := l = [] \/ classify l = Paragraph.

(** The paragraph styles that the converter can give: a heading of level
    1 to 6, or an indent of a positive multiple of 18 points with no
    first-line indent. *)
Definition headingOrIndent (r : request) : Prop :=
  forall style s e fields,
    r = updateParagraphStyle style s e fields ->
    (exists level, 1 <= level <= 6 /\ style = HEADING level /\
                   fields = "namedStyleType"%string) \/
    (exists n, 1 <= n /\ style = indentPT (Z.of_nat (n * 18)) 0 /\
               fields = "indentStart,indentFirstLine"%string).

(** An inserted text that is empty or ends with a newline. *)
Definition endsWithNewline (r : request) : Prop :=
  forall text location,
    r = insertText text location -> text = [] \/ exists t, text = t ++ [LF].

(** A request whose range ends where the range of another starts, or
    before. *)
Definition before (r1 r2 : request) : Prop :=
  exists e s, rangeEnd r1 = Some e /\ rangeStart r2 = Some s /\ e <= s.

(** The matches of a loop come one after the other. *)
Definition matchBefore (m1 m2 : result) : Prop :=
  endIndex m1 <= Regex.index m2.

(** A request moved [d] characters further in the document. *)
Definition shift (d : nat) (r : request) : request :=
  match r with
  | insertText text location => insertText text (location + d)
  | updateParagraphStyle style s e fields =>
      updateParagraphStyle style (s + d) (e + d) fields
  | updateTextStyle style s e fields =>
      updateTextStyle style (s + d) (e + d) fields
  | createParagraphBullets s e preset =>
      createParagraphBullets (s + d) (e + d) preset
  end.

(** A bold request over what is between two equal delimiters of [text]:
    two asterisks or two underscores, and no line terminator between
    them. *)
Definition boldSpan (text : jsstring) (startIndex : nat) (r : request)
  : Prop :=
  exists pre delimiter inner post,
    text = pre ++ delimiter ++ inner ++ delimiter ++ post /\
    (delimiter = lit "**" \/ delimiter = lit "__") /\
    forallb dot inner = true /\
    r = updateTextStyle bold (startIndex + (length pre + 2))
          (startIndex + (length pre + 2 + length inner)) "bold".

(** An italic request over what is between two equal delimiters of
    [text]: the delimiter [c] is an asterisk or an underscore that does
    not come after an asterisk or an underscore; the text between is not
    empty, has no line terminator and does not start with [c]; after the
    closing delimiter does not come [c]. *)
Definition italicSpan (text : jsstring) (startIndex : nat) (r : request)
  : Prop :=
  exists pre c inner post,
    text = pre ++ [c] ++ inner ++ [c] ++ post /\
    ([c] = lit "*" \/ [c] = lit "_") /\
    (forall p x, pre = p ++ [x] ->
                 char "*" x = false /\ char "_" x = false) /\
    inner <> [] /\ hd_error inner <> Some c /\
    forallb dot inner = true /\
    hd_error post <> Some c /\
    r = updateTextStyle italic (startIndex + (length pre + 1))
          (startIndex + (length pre + 1 + length inner)) "italic".

(** A link request over the text in square brackets of [text], with the
    URL that follows in parentheses; neither has a line terminator. *)
Definition linkSpan (text : jsstring) (startIndex : nat) (r : request)
  : Prop :=
  exists pre linkText linkUrl post,
    text = pre ++ lit "[" ++ linkText ++ lit "](" ++ linkUrl ++ lit ")"
               ++ post /\
    forallb dot linkText = true /\ forallb dot linkUrl = true /\
    r = updateTextStyle (link linkUrl) (startIndex + (length pre + 1))
          (startIndex + (length pre + 1 + length linkText)) "link".

(** Whether a request is a list-bullet request. *)
Definition isBullets (r : request) : bool :=
  match r with createParagraphBullets _ _ _ => true | _ => false end.

(** The matcher on some strings: the groups are the pairs of the start
    and the end of what they captured. *)
Example heading_match :
  matches (lit "## Two  words") headingRegex
  = Some (Result 0 13 [(2, (3, 13)); (1, (0, 2))]).
Proof. reflexivity. Qed.

Example heading_of_seven_is_none :
  matches (lit "####### x") headingRegex = None.
Proof. reflexivity. Qed.

(** The white space gives its last character back to the text. *)
Example heading_text_of_a_space :
  matches (lit "#  ") headingRegex
  = Some (Result 0 3 [(2, (2, 3)); (1, (0, 1))]).
Proof. reflexivity. Qed.

Example numbered_match :
  matches (lit " 12. a b") numberedListRegex
  = Some (Result 0 8 [(2, (5, 8)); (1, (0, 1))]).
Proof. reflexivity. Qed.

Example codeStart_match :
  matches (lit "```js") codeStartRegex = Some (Result 0 5 [(1, (3, 5))]) /\
  matches (lit "```") codeStartRegex = Some (Result 0 3 []) /\
  matches (lit "```c++") codeStartRegex = None.
Proof. repeat split; reflexivity. Qed.

Example bold_matches :
  execLoop 20 (lit "a **b** __c__ **d") boldRegex 0
  = Some [Result 2 7 [(2, (4, 5)); (1, (2, 4))];
          Result 8 13 [(2, (10, 11)); (1, (8, 10))]].
Proof. reflexivity. Qed.

(** A delimiter next to another one is not an italic delimiter. *)
Example italic_matches :
  execLoop 20 (lit "a *b* _c_ **d** *e_") italicRegex 0
  = Some [Result 2 5 [(2, (3, 4)); (1, (2, 3))];
          Result 6 9 [(2, (7, 8)); (1, (6, 7))]].
Proof. reflexivity. Qed.

Example link_match :
  exec (lit "see [go](http://x)") linkRegex 0
  = Some (Result 4 18 [(2, (9, 17)); (1, (5, 7))]).
Proof. reflexivity. Qed.

Example split_lines :
  split (lit "a" ++ [LF] ++ [LF] ++ lit "b" ++ [LF])
  = [lit "a"; []; lit "b"; []].
Proof. reflexivity. Qed.

Example trim_spaces : trim (lit "  a b  ") = lit "a b".
Proof. reflexivity. Qed.

(** Case analysis on the test of the conditional a hypothesis is about. *)
Ltac case_test H :=
  match type of H with
  | context [if ?c then _ else _] => destruct c eqn:?
  end.

Section MatcherFacts.

Variable s : jsstring.

Lemma prefixLen_le c l : prefixLen c l <= length l.
Proof.
  induction l as [|x l IH]; simpl; [lia|].
  destruct (c x); simpl; lia.
Qed.

Lemma maxReps_le c hi st : maxReps s c hi st <= length s - pos st.
Proof.
  unfold maxReps.
  pose proof (prefixLen_le c (skipn (pos st) s)) as H.
  rewrite length_skipn in H.
  destruct hi; lia.
Qed.

Lemma in_reps n lo k : In n (seq lo (S k - lo)) -> lo <= n <= k.
Proof. rewrite in_seq. lia. Qed.

Lemma m_mono r : forall st st',
  In st' (m s r st) -> pos st + minLen r <= pos st'.
Proof.
  induction r; intros st st' Hin; simpl in *.
  - destruct (nth_error s (pos st)); [|contradiction].
    destruct (c c0); [|contradiction].
    destruct Hin as [<-|[]]. simpl. lia.
  - apply in_flat_map in Hin as (x & Hx & Hin).
    apply IHr1 in Hx. apply IHr2 in Hin. lia.
  - apply in_app_or in Hin as [Hin|Hin];
      [apply IHr1 in Hin | apply IHr2 in Hin]; lia.
  - apply in_map_iff in Hin as (x & <- & Hx). apply IHr in Hx. simpl. lia.
  - apply in_map_iff in Hin as (k & <- & Hk).
    apply in_rev, in_reps in Hk. simpl. lia.
  - apply in_map_iff in Hin as (k & <- & Hk).
    apply in_reps in Hk. simpl. lia.
  - apply in_app_or in Hin as [Hin|[<-|[]]]; [|lia].
    apply filter_In in Hin as [Hin _]. apply IHr in Hin. lia.
  - destruct (capture n (caps st)) as [[a b]|].
    + destruct (_ && _); [|contradiction].
      destruct Hin as [<-|[]]. simpl. lia.
    + destruct Hin as [<-|[]]. lia.
  - destruct (m s r st); [|contradiction]. destruct Hin as [<-|[]]. lia.
  - case_test Hin; [contradiction|]. destruct Hin as [<-|[]]. lia.
  - destruct (pos st =? 0); [|contradiction]. destruct Hin as [<-|[]]. lia.
  - destruct (pos st =? length s); [|contradiction].
    destruct Hin as [<-|[]]. lia.
Qed.

Lemma m_inside r : forall st st',
  In st' (m s r st) -> pos st <= length s -> pos st' <= length s.
Proof.
  induction r; intros st st' Hin Hle; simpl in *.
  - destruct (nth_error s (pos st)) eqn:E; [|contradiction].
    destruct (c c0); [|contradiction].
    destruct Hin as [<-|[]]. simpl.
    assert (pos st < length s) by (apply nth_error_Some; congruence). lia.
  - apply in_flat_map in Hin as (x & Hx & Hin). eauto.
  - apply in_app_or in Hin as [Hin|Hin]; eauto.
  - apply in_map_iff in Hin as (x & <- & Hx). simpl. eauto.
  - apply in_map_iff in Hin as (k & <- & Hk).
    apply in_rev, in_reps in Hk. pose proof (maxReps_le c hi st). simpl. lia.
  - apply in_map_iff in Hin as (k & <- & Hk).
    apply in_reps in Hk. pose proof (maxReps_le c hi st). simpl. lia.
  - apply in_app_or in Hin as [Hin|[<-|[]]]; [|lia].
    apply filter_In in Hin as [Hin _]. eauto.
  - destruct (capture n (caps st)) as [[a b]|].
    + destruct (JS.eqb _ _); simpl in Hin; [|contradiction].
      destruct (pos st + (b - a) <=? length s) eqn:E; [|contradiction].
      apply Nat.leb_le in E. destruct Hin as [<-|[]]. simpl. lia.
    + destruct Hin as [<-|[]]. lia.
  - destruct (m s r st); [|contradiction]. destruct Hin as [<-|[]]. lia.
  - case_test Hin; [contradiction|]. destruct Hin as [<-|[]]. lia.
  - destruct (pos st =? 0); [|contradiction]. destruct Hin as [<-|[]]. lia.
  - destruct (pos st =? length s); [|contradiction].
    destruct Hin as [<-|[]]. lia.
Qed.

(** Outside a group the captures stay as they are. *)
Lemma m_groupFree r : forall st st',
  groupFree r = true -> In st' (m s r st) -> caps st' = caps st.
Proof.
  induction r; intros st st' Hg Hin; simpl in *; try discriminate.
  - destruct (nth_error s (pos st)); [|contradiction].
    destruct (c c0); [|contradiction]. destruct Hin as [<-|[]]. reflexivity.
  - apply andb_true_iff in Hg as [Ha Hb].
    apply in_flat_map in Hin as (x & Hx & Hin).
    rewrite (IHr2 _ _ Hb Hin). eauto.
  - apply andb_true_iff in Hg as [Ha Hb].
    apply in_app_or in Hin as [Hin|Hin]; eauto.
  - apply in_map_iff in Hin as (k & <- & _). reflexivity.
  - apply in_map_iff in Hin as (k & <- & _). reflexivity.
  - apply in_app_or in Hin as [Hin|[<-|[]]]; [|reflexivity].
    apply filter_In in Hin as [Hin _]. eauto.
  - destruct (capture n (caps st)) as [[a b]|].
    + destruct (_ && _); [|contradiction]. destruct Hin as [<-|[]]. reflexivity.
    + destruct Hin as [<-|[]]. reflexivity.
  - destruct (m s r st); [|contradiction]. destruct Hin as [<-|[]]. reflexivity.
  - case_test Hin; [contradiction|]. destruct Hin as [<-|[]]. reflexivity.
  - destruct (pos st =? 0); [|contradiction].
    destruct Hin as [<-|[]]. reflexivity.
  - destruct (pos st =? length s); [|contradiction].
    destruct Hin as [<-|[]]. reflexivity.
Qed.

Lemma in_Seq a b st st' :
  In st' (m s (a ;; b) st) -> exists x, In x (m s a st) /\ In st' (m s b x).
Proof. simpl. apply in_flat_map. Qed.

Lemma in_Group n a st st' :
  In st' (m s (Group n a) st) ->
  exists x, In x (m s a st) /\
            st' = MState (pos x) ((n, (pos st, pos x)) :: caps x).
Proof.
  simpl. intros Hin. apply in_map_iff in Hin as (x & <- & Hx). eauto.
Qed.

(** What [exec] returns is the first way to match at [index]. *)
Lemma firstMatch_Some r starts res :
  firstMatch s r starts = Some res ->
  exists st rest, In (Regex.index res) starts /\
    m s r (MState (Regex.index res) []) = st :: rest /\
    endIndex res = pos st /\ groups res = caps st.
Proof.
  induction starts as [|i starts IH]; simpl; [discriminate|].
  unfold matchAt. destruct (m s r (MState i [])) as [|st rest] eqn:E.
  - intros H. destruct (IH H) as (st & rest & Hin & Hm & He & Hg).
    exists st, rest. auto.
  - intros [= <-]. exists st, rest. simpl. auto.
Qed.

Lemma exec_Some r lastIndex res :
  exec s r lastIndex = Some res ->
  exists st, In st (m s r (MState (Regex.index res) [])) /\
    endIndex res = pos st /\ groups res = caps st /\
    lastIndex <= Regex.index res <= length s.
Proof.
  unfold exec. intros H.
  apply firstMatch_Some in H as (st & rest & Hin & Hm & He & Hg).
  apply in_seq in Hin. exists st. rewrite Hm. simpl. repeat split; auto; lia.
Qed.

Lemma exec_bounds r lastIndex res :
  exec s r lastIndex = Some res ->
  lastIndex + minLen r <= endIndex res /\ endIndex res <= length s.
Proof.
  intros H. apply exec_Some in H as (st & Hin & -> & _ & Hi).
  pose proof (m_mono _ _ _ Hin). pose proof (m_inside _ _ _ Hin).
  simpl in *. lia.
Qed.

Lemma group_length n res a b :
  capture n (groups res) = Some (a, b) -> length (group s n res) <= b - a.
Proof.
  unfold group. intros ->. unfold substring. rewrite length_firstn. lia.
Qed.

End MatcherFacts.

(* ================================================================== *)
(** ** The ranges of the inline requests *)
(* ================================================================== *)

(** Takes a match apart along the sequences and groups of its regular
    expression, and records for every piece that the position only moves
    forward and that the captures outside groups are kept. *)
Ltac split_match :=
  repeat match goal with
  | H : In _ (m _ (Seq _ _) _) |- _ =>
      apply in_Seq in H as (? & ? & ?)
  | H : In _ (m _ (Group _ _) _) |- _ =>
      apply in_Group in H as (? & ? & ->)
  end;
  repeat match goal with
  | H : In ?st' (m ?s ?r ?st) |- _ =>
      pose proof (m_mono s r st st' H);
      try pose proof (m_groupFree s r st st' eq_refl H);
      clear H
  end;
  simpl in *.

(** Writes the groups of a match out from what is known of the captures. *)
Ltac known_groups Hg :=
  repeat match goal with
  | H : caps _ = _ |- _ => rewrite H in Hg
  end.

Lemma boldRequest_range text startIndex lastIndex mt :
  exec text boldRegex lastIndex = Some mt ->
  exists a b, boldRequest text startIndex mt = updateTextStyle bold a b "bold"
              /\ b <= startIndex + length text.
Proof.
  intros H. destruct (exec_Some _ _ _ _ H) as (st & Hin & He & Hg & Hi).
  pose proof (m_inside _ _ _ _ Hin) as Hend.
  unfold boldRegex in Hin. split_match.
  known_groups Hg.
  assert (G1 : capture 1 (groups mt) = Some (Regex.index mt, pos x0))
    by (rewrite Hg; reflexivity).
  assert (G2 : capture 2 (groups mt) = Some (pos x0, pos x1))
    by (rewrite Hg; reflexivity).
  apply (group_length text) in G1, G2.
  eexists _, _. split; [reflexivity|]. lia.
Qed.

Lemma italicRequest_range text startIndex lastIndex mt :
  exec text italicRegex lastIndex = Some mt ->
  exists a b,
    italicRequest text startIndex mt = updateTextStyle italic a b "italic"
    /\ b <= startIndex + length text.
Proof.
  intros H. destruct (exec_Some _ _ _ _ H) as (st & Hin & He & Hg & Hi).
  pose proof (m_inside _ _ _ _ Hin) as Hend.
  unfold italicRegex in Hin. split_match.
  known_groups Hg.
  assert (G2 : capture 2 (groups mt) = Some (pos x4, pos x3))
    by (rewrite Hg; reflexivity).
  apply (group_length text) in G2.
  eexists _, _. split; [reflexivity|]. lia.
Qed.

Lemma linkRequest_range text startIndex lastIndex mt :
  exec text linkRegex lastIndex = Some mt ->
  exists url a b,
    linkRequest text startIndex mt = updateTextStyle (link url) a b "link"
    /\ b <= startIndex + length text.
Proof.
  intros H. destruct (exec_Some _ _ _ _ H) as (st & Hin & He & Hg & Hi).
  pose proof (m_inside _ _ _ _ Hin) as Hend.
  unfold linkRegex in Hin. split_match.
  known_groups Hg.
  assert (G1 : capture 1 (groups mt) = Some (pos x, pos x3))
    by (rewrite Hg; reflexivity).
  apply (group_length text) in G1.
  eexists _, _, _. split; [reflexivity|]. lia.
Qed.


(* ================================================================== *)
(** ** The loops of processInlineFormatting end *)
(* ================================================================== *)

Lemma execLoop_total text re :
  0 < minLen re ->
  forall fuel lastIndex, length text < fuel + lastIndex ->
  exists l, execLoop fuel text re lastIndex = Some l.
Proof.
  intros Hmin. induction fuel as [|fuel IH]; intros lastIndex Hlt; simpl.
  - destruct (exec text re lastIndex) eqn:E; [|eauto].
    apply exec_bounds in E. lia.
  - destruct (exec text re lastIndex) eqn:E; [|eauto].
    apply exec_bounds in E.
    destruct (IH (endIndex r)) as [l ->]; [lia|]. simpl. eauto.
Qed.

Lemma execLoop_matches text re : forall fuel lastIndex l,
  execLoop fuel text re lastIndex = Some l ->
  Forall (fun mt => exists i, exec text re i = Some mt) l.
Proof.
  induction fuel as [|fuel IH]; intros lastIndex l; simpl;
    destruct (exec text re lastIndex) eqn:E;
    try discriminate; try (intros [= <-]; constructor).
  destruct (execLoop fuel text re (endIndex r)) eqn:E'; [|discriminate].
  simpl. intros [= <-]. constructor; eauto.
Qed.

Section InlineFacts.

Variable fault : jsstring -> nat -> bool.


Lemma italicLoop_total text : forall fuel lastIndex,
  length text < fuel + lastIndex ->
  exists l, italicLoop fault fuel text lastIndex = Some l.
Proof.
  induction fuel as [|fuel IH]; intros lastIndex Hlt; simpl;
    destruct (fault text lastIndex); eauto;
    destruct (exec text italicRegex lastIndex) eqn:E; eauto;
    apply exec_bounds in E; simpl in E; [lia|].
  destruct (IH (endIndex r)) as [l ->]; [lia|]. simpl. eauto.
Qed.

Lemma italicLoop_matches text : forall fuel lastIndex l,
  italicLoop fault fuel text lastIndex = Some l ->
  Forall (fun mt => exists i, exec text italicRegex i = Some mt) l.
Proof.
  induction fuel as [|fuel IH]; intros lastIndex l; simpl;
    destruct (fault text lastIndex);
    try (intros [= <-]; constructor);
    destruct (exec text italicRegex lastIndex) eqn:E;
    try discriminate; try (intros [= <-]; constructor).
  destruct (italicLoop fault fuel text (endIndex r)) eqn:E'; [|discriminate].
  simpl. intros [= <-]. constructor; eauto.
Qed.



(** The three loops end, whatever the engine does, and the ranges of
    their requests stay inside [text]. *)
Lemma boldRequests_total text startIndex :
  exists bs, boldRequests text startIndex = Some bs /\
    Forall (styleWithin (startIndex + length text)) bs /\
    Forall (fun r => isTextStyle r = true /\ isItalic r = false) bs.
Proof.
  unfold boldRequests.
  destruct (execLoop_total text boldRegex ltac:(simpl; lia)
              (S (length text)) 0 ltac:(lia)) as [l E].
  rewrite E. simpl. eexists. split; [reflexivity|].
  apply execLoop_matches in E.
  split; apply Forall_map; eapply Forall_impl; try exact E;
    intros mt [i Hi];
    destruct (boldRequest_range text startIndex i mt Hi) as (a & b & -> & Hb).
  - exists b. auto.
  - auto.
Qed.

Lemma italicRequests_total text startIndex :
  exists its, italicRequests fault text startIndex = Some its /\
    Forall (styleWithin (startIndex + length text)) its /\
    Forall (fun r => isTextStyle r = true /\ isItalic r = true) its.
Proof.
  unfold italicRequests.
  destruct (italicLoop_total text (S (length text)) 0 ltac:(lia)) as [l E].
  rewrite E. simpl. eexists. split; [reflexivity|].
  apply italicLoop_matches in E.
  split; apply Forall_map; eapply Forall_impl; try exact E;
    intros mt [i Hi];
    destruct (italicRequest_range text startIndex i mt Hi) as (a & b & -> & Hb).
  - exists b. auto.
  - auto.
Qed.

Lemma linkRequests_total text startIndex :
  exists ls, linkRequests text startIndex = Some ls /\
    Forall (styleWithin (startIndex + length text)) ls /\
    Forall (fun r => isTextStyle r = true /\ isItalic r = false) ls.
Proof.
  unfold linkRequests.
  destruct (execLoop_total text linkRegex ltac:(simpl; lia)
              (S (length text)) 0 ltac:(lia)) as [l E].
  rewrite E. simpl. eexists. split; [reflexivity|].
  apply execLoop_matches in E.
  split; apply Forall_map; eapply Forall_impl; try exact E;
    intros mt [i Hi];
    destruct (linkRequest_range text startIndex i mt Hi)
      as (url & a & b & -> & Hb).
  - exists b. auto.
  - auto.
Qed.

(** [processInlineFormatting] pushes the bold, the italic and the link
    requests of [text], in this order. *)
Lemma processInlineFormatting_total requests text startIndex :
  exists bs its ls,
    boldRequests text startIndex = Some bs /\
    italicRequests fault text startIndex = Some its /\
    linkRequests text startIndex = Some ls /\
    processInlineFormatting fault requests text startIndex
      = Some (requests ++ bs ++ its ++ ls) /\
    Forall (styleWithin (startIndex + length text)) (bs ++ its ++ ls).
Proof.
  destruct (boldRequests_total text startIndex) as (bs & Eb & Hb & _).
  destruct (italicRequests_total text startIndex) as (its & Ei & Hi & _).
  destruct (linkRequests_total text startIndex) as (ls & El & Hl & _).
  exists bs, its, ls. unfold processInlineFormatting.
  rewrite Eb, Ei, El. repeat split; auto.
  repeat (apply Forall_app; split); assumption.
Qed.

End InlineFacts.

(* ================================================================== *)
(** ** One iteration of the loop *)
(* ================================================================== *)

Lemma scanCode_length : forall ls codeContent,
  length (snd (scanCode ls codeContent)) <= length ls.
Proof.
  induction ls as [|l ls IH]; intros codeContent; simpl; [lia|].
  destruct (startsWith (trim l) (lit "```")); simpl; [lia|].
  specialize (IH (codeContent ++ l ++ [LF])). lia.
Qed.

Lemma length_tl_le {A} (l : list A) : length (tl l) <= length l.
Proof. destruct l; simpl; lia. Qed.

Lemma styleWithin_le b b' r : b <= b' -> styleWithin b r -> styleWithin b' r.
Proof. intros Hle (e & He & Hb). exists e. split; [assumption|lia]. Qed.

Ltac shape_arith :=
  try reflexivity; try (simpl; rewrite ?length_app; simpl; lia).

Ltac style_within :=
  eexists; split; [reflexivity | rewrite ?length_app; simpl; lia].

(** Every iteration pushes one [insertText] at [index], then requests
    with ranges that end inside the inserted text, adds the length of the
    inserted text to [index], and takes at least its line. *)
Lemma body_shape fault line rest idx reqs :
  exists st' text styles,
    body fault line rest idx reqs = Some st' /\
    requests st' = reqs ++ insertText text idx :: styles /\
    index st' = idx + length text /\
    Forall (styleWithin (idx + length text)) styles /\
    length (lines st') <= length rest.
Proof.
  unfold body. destruct (classify line); unfold listItem.
  - eexists _, [LF], []. simpl. repeat split; auto.
  - eexists _, _, _. simpl. repeat split; shape_arith.
    repeat constructor. style_within.
  - eexists _, _, _. simpl. repeat split; shape_arith.
    constructor; [style_within|].
    destruct (0 <? _); repeat constructor. style_within.
  - eexists _, _, _. simpl. repeat split; shape_arith.
    constructor; [style_within|].
    destruct (0 <? _); repeat constructor. style_within.
  - pose proof (scanCode_length rest []) as Hlen.
    destruct (scanCode rest []) as [codeContent fromJ]. simpl in Hlen.
    pose proof (length_tl_le fromJ).
    eexists _, _, _. simpl. repeat split; shape_arith.
    repeat constructor. style_within.
  - destruct (processInlineFormatting_total fault
                (reqs ++ [insertText (line ++ [LF]) idx]) line idx)
      as (bs & its & ls & _ & _ & _ & -> & Hall).
    eexists _, (line ++ [LF]), (bs ++ its ++ ls).
    simpl. repeat split; shape_arith.
    + rewrite <- app_assoc. reflexivity.
    + eapply Forall_impl; [|exact Hall].
      intros r. apply styleWithin_le. rewrite length_app. lia.
Qed.
(** ** The loop ends and keeps the cursor *)
(* ================================================================== *)

Section LoopFacts.

Variable fault : jsstring -> nat -> bool.

Lemma loop_total : forall fuel st,
  length (lines st) <= fuel ->
  exists st', loop fault fuel st = Some st' /\ lines st' = [].
Proof.
  induction fuel as [|fuel IH]; intros st Hlen; simpl;
    destruct (lines st) as [|line rest] eqn:E; simpl in Hlen;
    try lia; eauto.
  destruct (body_shape fault line rest (index st) (requests st))
    as (st' & text & styles & -> & _ & _ & _ & Hlines).
  apply IH. lia.
Qed.

(** More fuel than lines changes nothing. *)
Lemma loop_fuel : forall fuel fuel' st,
  length (lines st) <= fuel -> length (lines st) <= fuel' ->
  loop fault fuel st = loop fault fuel' st.
Proof.
  induction fuel as [|fuel IH]; intros fuel' st Hlen Hlen';
    destruct fuel'; simpl;
    destruct (lines st) as [|line rest] eqn:E; simpl in *;
    try lia; try reflexivity.
  destruct (body_shape fault line rest (index st) (requests st))
    as (st' & text & styles & -> & _ & _ & _ & Hlines).
  apply IH; lia.
Qed.

(** The loop started in a state it goes through ends as the loop itself. *)
Lemma loop_iterates st st' :
  iterates fault st st' ->
  loop fault (length (lines st)) st = loop fault (length (lines st')) st'.
Proof.
  induction 1 as [|st line rest st' st'' Hl Hb _ IH]; [reflexivity|].
  rewrite <- IH. rewrite Hl. simpl. rewrite Hl, Hb.
  destruct (body_shape fault line rest (index st) (requests st))
    as (st1 & text & styles & Hb' & _ & _ & _ & Hlines).
  rewrite Hb in Hb'. injection Hb' as <-.
  apply loop_fuel; lia.
Qed.

Lemma insertedLength_app a b :
  insertedLength (a ++ b) = insertedLength a + insertedLength b.
Proof.
  induction a as [|[] a IH]; simpl; lia.
Qed.

Lemma emissions_app : forall a b cursor,
  emissions cursor (a ++ b)
  = emissions cursor a ++ emissions (cursor + insertedLength a) b.
Proof.
  induction a as [|r a IH]; intros b cursor; simpl.
  - rewrite Nat.add_0_r. reflexivity.
  - destruct r; simpl; rewrite IH; try reflexivity.
    rewrite Nat.add_assoc. reflexivity.
Qed.

Lemma styles_insertedLength bound styles :
  Forall (styleWithin bound) styles -> insertedLength styles = 0.
Proof.
  induction 1 as [|r styles (e & He & _) _ IH]; [reflexivity|].
  destruct r; simpl in *; try discriminate; assumption.
Qed.

Lemma styles_withinCursor cursor styles :
  Forall (styleWithin cursor) styles ->
  Forall withinCursor (emissions cursor styles).
Proof.
  induction 1 as [|r styles (e & He & Hle) _ IH]; [constructor|].
  destruct r; simpl in *; try discriminate;
    (constructor; [|assumption]); split; simpl;
    try (intros e' [= <-]; injection He as <-; assumption);
    discriminate.
Qed.

Lemma body_cursorKept line rest st st' :
  body fault line rest (index st) (requests st) = Some st' ->
  cursorKept st -> cursorKept st'.
Proof.
  intros Hb [Hidx Hall].
  destruct (body_shape fault line rest (index st) (requests st))
    as (st1 & text & styles & Hb' & Hreq & Hi & Hst & _).
  rewrite Hb in Hb'. injection Hb' as <-.
  unfold cursorKept. rewrite Hreq, Hi. split.
  - rewrite insertedLength_app. simpl.
    rewrite (styles_insertedLength _ _ Hst). lia.
  - rewrite emissions_app. apply Forall_app. split; [assumption|].
    rewrite <- Hidx. simpl. constructor.
    + split; simpl; [discriminate|]. intros ? ? [= _ <-]. reflexivity.
    + apply styles_withinCursor. assumption.
Qed.

Lemma loop_cursorKept : forall fuel st st',
  loop fault fuel st = Some st' -> cursorKept st -> cursorKept st'.
Proof.
  induction fuel as [|fuel IH]; intros st st'; simpl;
    destruct (lines st) as [|line rest] eqn:E;
    try discriminate; try (intros [= <-]; auto).
  destruct (body fault line rest (index st) (requests st)) as [st1|] eqn:Hb;
    [|discriminate].
  intros Hl Hk. eapply IH; [exact Hl|].
  eapply body_cursorKept; eassumption.
Qed.

Lemma convert_total markdown :
  exists st, convert fault markdown = Some st /\ lines st = [] /\
             cursorKept st.
Proof.
  unfold convert.
  destruct (loop_total (length (split markdown))
              (State (split markdown) 1 [])) as (st & E & Hl);
    [simpl; lia|].
  exists st. repeat split; try assumption;
    apply (loop_cursorKept _ _ _ E); split; simpl; auto.
Qed.

End LoopFacts.

(** The cursor of a request sequence never goes back. *)
Lemma emissions_sorted : forall rs cursor,
  Sorted le (map snd (emissions cursor rs)) /\
  Forall (le cursor) (map snd (emissions cursor rs)).
Proof.
  induction rs as [|r rs IH]; intros cursor; simpl; [split; constructor|].
  assert (forall c, cursor <= c ->
            Sorted le (cursor :: map snd (emissions c rs)) /\
            Forall (le cursor) (cursor :: map snd (emissions c rs))) as Hc.
  { intros c Hle. destruct (IH c) as [Hs Hf]. split.
    - constructor; [assumption|].
      destruct Hf; constructor. lia.
    - constructor; [lia|]. eapply Forall_impl; [|exact Hf].
      intros; simpl in *; lia. }
  destruct r; simpl; apply Hc; lia.
Qed.

(* ================================================================== *)
(** ** An error of the engine in the italic loop *)
(* ================================================================== *)




(* ================================================================== *)
(** ** Code blocks *)
(* ================================================================== *)

(** Without a closing fence the [while] loop runs to the last line. *)
Lemma scanCode_unterminated : forall ls codeContent,
  Forall (fun l => opensFence l = false) ls ->
  scanCode ls codeContent
  = (codeContent ++ concat (map (fun l => l ++ [LF]) ls), []).
Proof.
  induction ls as [|l ls IH]; intros codeContent Hall; simpl.
  - rewrite app_nil_r. reflexivity.
  - inversion Hall as [|? ? Hl Hls]; subst. unfold opensFence in Hl.
    rewrite Hl, IH by assumption. rewrite <- !app_assoc. reflexivity.
Qed.

(* ================================================================== *)
(** ** The opening line of a code block *)
(* ================================================================== *)

Lemma dropWhile_split p l :
  exists ws, l = ws ++ dropWhile p l /\ forallb p ws = true.
Proof.
  induction l as [|x l (ws & Hl & Hws)]; simpl.
  - exists []. auto.
  - destruct (p x) eqn:E.
    + exists (x :: ws). simpl. rewrite E, Hws. split; [congruence|reflexivity].
    + exists []. auto.
Qed.

Lemma dropWhile_head p l x r : dropWhile p l = x :: r -> p x = false.
Proof.
  induction l as [|y l IH]; simpl; [discriminate|].
  destruct (p y) eqn:E; [assumption|]. intros [= <- _]. assumption.
Qed.

(** A line starts with white space and then the first character of what
    [trim] leaves. *)
Lemma trim_first line c t :
  trim line = c :: t ->
  exists ws r, line = ws ++ c :: r /\ forallb isSpace ws = true
               /\ isSpace c = false.
Proof.
  unfold trim, trimEnd, trimStart. intros Ht.
  destruct (dropWhile_split isSpace line) as (ws & Hl & Hws).
  destruct (dropWhile_split isSpace (rev (dropWhile isSpace line)))
    as (ws' & Hr & _).
  apply (f_equal (@rev _)) in Hr. rewrite rev_involutive, rev_app_distr in Hr.
  rewrite Ht in Hr.
  exists ws, (t ++ rev ws'). rewrite Hl at 1. rewrite Hr. simpl.
  repeat split; try assumption.
  apply (dropWhile_head isSpace line c (t ++ rev ws')). assumption.
Qed.

(** Up to the end of the leading run of a class, a string has characters
    of the class and then the one that ends the run. *)
Lemma nth_in_run c ws x r n :
  forallb c ws = true -> c x = false ->
  n <= prefixLen c (ws ++ x :: r) ->
  exists y, nth_error (ws ++ x :: r) n = Some y /\ (c y = true \/ y = x).
Proof.
  revert n. induction ws as [|w ws IH]; intros n Hws Hx; simpl.
  - rewrite Hx. intros Hn. assert (n = 0) as -> by lia. simpl. eauto.
  - simpl in Hws. apply andb_true_iff in Hws as [Hw Hws]. rewrite Hw.
    destruct n as [|n]; simpl; [eauto|].
    intros Hn. apply IH; [assumption|assumption|lia].
Qed.

Lemma skipn_nth {A} (l : list A) n y :
  nth_error l n = Some y -> skipn n l = y :: skipn (S n) l.
Proof.
  revert n. induction l as [|x l IH]; intros [|n]; simpl;
    try discriminate.
  - intros [= ->]. reflexivity.
  - apply IH.
Qed.

Lemma flat_map_nil {A B} (f : A -> list B) l :
  (forall x, In x l -> f x = []) -> flat_map f l = [].
Proof.
  induction l as [|x l IH]; intros H; simpl; [reflexivity|].
  rewrite (H x) by (left; reflexivity). simpl.
  apply IH. intros y Hy. apply H. right. assumption.
Qed.

Lemma in_Greedy s c lo hi st st' :
  In st' (m s (Greedy c lo hi) st) ->
  exists n, st' = advance n st /\ lo <= n <= maxReps s c hi st.
Proof.
  simpl. intros Hin. apply in_map_iff in Hin as (n & <- & Hn).
  apply in_rev, in_reps in Hn. eauto.
Qed.

Lemma in_Chr s c st st' :
  In st' (m s (Chr c) st) ->
  exists x, nth_error s (pos st) = Some x /\ c x = true /\ st' = advance 1 st.
Proof.
  simpl. destruct (nth_error s (pos st)) as [x|]; [|contradiction].
  destruct (c x) eqn:E; [|contradiction]. intros [<-|[]]. eauto.
Qed.

Lemma in_Bol s st st' : In st' (m s Bol st) -> pos st = 0 /\ st' = st.
Proof.
  simpl. destruct (pos st =? 0) eqn:E; [|contradiction].
  apply Nat.eqb_eq in E. intros [<-|[]]. auto.
Qed.

Lemma firstMatch_None s r starts :
  (forall i st, ~ In st (m s r (MState i []))) -> firstMatch s r starts = None.
Proof.
  intros H. induction starts as [|i starts IH]; simpl; [reflexivity|].
  unfold matchAt. destruct (m s r (MState i [])) as [|st l] eqn:E;
    [assumption|].
  exfalso. apply (H i st). rewrite E. left. reflexivity.
Qed.

Lemma exec_at_start s r st :
  In st (m s r (MState 0 [])) -> exists res, exec s r 0 = Some res.
Proof.
  unfold exec. rewrite Nat.sub_0_r. simpl. unfold matchAt.
  destruct (m s r (MState 0 [])); [contradiction|]. eauto.
Qed.

(** No white space is one of the characters that start a heading or
    follow the indent of a list item. *)
Lemma space_not_marker x :
  isSpace x = true ->
  char "#" x = false /\ char "-" x = false /\ digit x = false.
Proof.
  intros Hx. repeat split.
  - destruct (char "#" x) eqn:E; [|reflexivity].
    apply N.eqb_eq in E. subst x. discriminate.
  - destruct (char "-" x) eqn:E; [|reflexivity].
    apply N.eqb_eq in E. subst x. discriminate.
  - unfold digit. destruct (48 <=? x)%N eqn:E1; [|reflexivity].
    destruct (x <=? 57)%N eqn:E2; [|reflexivity].
    apply N.leb_le in E1, E2. exfalso.
    assert (x = 48 \/ x = 49 \/ x = 50 \/ x = 51 \/ x = 52 \/ x = 53 \/
            x = 54 \/ x = 55 \/ x = 56 \/ x = 57)%N as H by lia.
    repeat (destruct H as [->|H]; [discriminate|]). subst x. discriminate.
Qed.

(** A line that starts with white space and then a character [c] that
    is not white space. *)
Section FirstCharacter.

Variables (line ws r : jsstring) (c : code_unit).
Hypothesis Hline : line = ws ++ c :: r.
Hypothesis Hws : forallb isSpace ws = true.
Hypothesis Hc : isSpace c = false.

(** After the indent that a list pattern takes comes white space or [c]. *)
Lemma after_indent st st' :
  pos st = 0 ->
  In st' (m line (Group 1 (Greedy space 0 None)) st) ->
  exists z, nth_error line (pos st') = Some z /\ (isSpace z = true \/ z = c).
Proof.
  intros H0 Hin. apply in_Group in Hin as (y & Hy & ->).
  apply in_Greedy in Hy as (n & -> & _ & Hn). simpl.
  unfold maxReps in Hn. rewrite H0 in *. simpl in *. rewrite Hline in *.
  apply nth_in_run; assumption.
Qed.

Lemma heading_no_match :
  char "#" c = false -> matches line headingRegex = None.
Proof.
  intros Hc'. apply firstMatch_None. intros i st Hin.
  unfold headingRegex in Hin.
  apply in_Seq in Hin as (x1 & H1 & Hin). apply in_Bol in H1 as [H0 ->].
  apply in_Seq in Hin as (x2 & H2 & _). apply in_Group in H2 as (y & Hy & _).
  apply in_Greedy in Hy as (n & _ & Hlo & Hn).
  simpl in H0. subst i. unfold maxReps in Hn. cbn [pos skipn] in Hn.
  assert (prefixLen (char "#") line = 0) as E; [|lia].
  rewrite Hline. destruct ws as [|w ws']; simpl.
  - rewrite Hc'. reflexivity.
  - simpl in Hws. apply andb_true_iff in Hws as [Hw _].
    apply space_not_marker in Hw as (-> & _). reflexivity.
Qed.

Lemma bulleted_no_match :
  char "-" c = false -> matches line bulletedListRegex = None.
Proof.
  intros Hc'. apply firstMatch_None. intros i st Hin.
  unfold bulletedListRegex in Hin.
  apply in_Seq in Hin as (x1 & H1 & Hin). apply in_Bol in H1 as [H0 ->].
  apply in_Seq in Hin as (x2 & H2 & Hin).
  apply (after_indent _ _ H0) in H2 as (z & Hz & Hsp).
  apply in_Seq in Hin as (x3 & H3 & _).
  apply in_Chr in H3 as (z' & Hz' & Hdash & _).
  rewrite Hz in Hz'. injection Hz' as <-.
  destruct Hsp as [Hsp| ->]; [|congruence].
  apply space_not_marker in Hsp as (_ & Hsp & _). congruence.
Qed.

Lemma numbered_no_match :
  digit c = false -> matches line numberedListRegex = None.
Proof.
  intros Hc'. apply firstMatch_None. intros i st Hin.
  unfold numberedListRegex in Hin.
  apply in_Seq in Hin as (x1 & H1 & Hin). apply in_Bol in H1 as [H0 ->].
  apply in_Seq in Hin as (x2 & H2 & Hin).
  apply (after_indent _ _ H0) in H2 as (z & Hz & Hsp).
  apply in_Seq in Hin as (x3 & H3 & _).
  apply in_Greedy in H3 as (n & _ & Hlo & Hn).
  unfold maxReps in Hn. rewrite (skipn_nth _ _ _ Hz) in Hn. simpl in Hn.
  assert (digit z = false) as E.
  { destruct Hsp as [Hsp| ->]; [|assumption].
    apply space_not_marker in Hsp as (_ & _ & Hsp). assumption. }
  rewrite E in Hn. lia.
Qed.

End FirstCharacter.

(** How a match is put together. *)
Lemma Seq_in s a b st x st' :
  In x (m s a st) -> In st' (m s b x) -> In st' (m s (a ;; b) st).
Proof. intros Ha Hb. simpl. apply in_flat_map. eauto. Qed.

Lemma Chr_in s (c : cls) st x :
  nth_error s (pos st) = Some x -> c x = true ->
  In (advance 1 st) (m s (Chr c) st).
Proof. simpl. intros -> ->. left. reflexivity. Qed.

Lemma Bol_in s st : pos st = 0 -> In st (m s Bol st).
Proof. simpl. intros ->. left. reflexivity. Qed.

Lemma Eol_in s st : pos st = length s -> In st (m s Eol st).
Proof. simpl. intros ->. rewrite Nat.eqb_refl. left. reflexivity. Qed.

Lemma Opt_skip s a st : In st (m s (Opt a) st).
Proof. simpl. apply in_or_app. right. left. reflexivity. Qed.

Lemma Opt_take s a st st' :
  In st' (m s a st) -> pos st < pos st' -> In st' (m s (Opt a) st).
Proof.
  intros Hin Hlt. simpl. apply in_or_app. left. apply filter_In.
  split; [assumption|]. apply Nat.ltb_lt. assumption.
Qed.

Lemma Greedy_in s c lo hi st n :
  lo <= n <= maxReps s c hi st ->
  In (advance n st) (m s (Greedy c lo hi) st).
Proof.
  intros Hn. cbn [m]. apply (in_map (fun k => advance k st)).
  apply -> in_rev. apply in_seq. lia.
Qed.

Lemma Group_in s n a st x :
  In x (m s a st) ->
  In (MState (pos x) ((n, (pos st, pos x)) :: caps x)) (m s (Group n a) st).
Proof.
  intros Hin. simpl.
  apply (in_map (fun st' =>
                   MState (pos st') ((n, (pos st, pos st')) :: caps st'))).
  assumption.
Qed.

Lemma prefixLen_all c l : forallb c l = true -> prefixLen c l = length l.
Proof.
  induction l as [|x l IH]; simpl; [reflexivity|].
  intros H. apply andb_true_iff in H as [-> H]. rewrite IH; auto.
Qed.

(** Three backticks and then letters and digits only are the start of a
    code block. *)
Lemma codeStart_matches lang :
  forallb alnum lang = true ->
  exists res, matches (lit "```" ++ lang) codeStartRegex = Some res.
Proof.
  intros Hlang. unfold codeStartRegex.
  assert (maxReps (lit "```" ++ lang) alnum None (MState 3 []) = length lang)
    as Hmax by (unfold maxReps; simpl; apply prefixLen_all; assumption).
  destruct lang as [|x l] eqn:E.
  - eapply exec_at_start.
    eapply Seq_in; [apply Bol_in; reflexivity|].
    do 3 (eapply Seq_in; [eapply Chr_in; reflexivity|]).
    eapply Seq_in; [apply Opt_skip|]. apply Eol_in. reflexivity.
  - rewrite <- E in *. eapply exec_at_start.
    eapply Seq_in; [apply Bol_in; reflexivity|].
    do 3 (eapply Seq_in; [eapply Chr_in; reflexivity|]).
    eapply Seq_in.
    + apply Opt_take.
      * apply Group_in. apply (Greedy_in _ _ _ _ _ (length lang)).
        simpl in *. lia.
      * subst lang. simpl. lia.
    + apply Eol_in. simpl. lia.
Qed.

Lemma classify_fence line lang :
  trim line = lit "```" ++ lang -> forallb alnum lang = true ->
  exists codeStartMatch, classify line = CodeStart codeStartMatch.
Proof.
  intros Ht Hlang.
  destruct (trim_first line _ _ Ht) as (ws & r & Hl & Hws & Hc).
  destruct (codeStart_matches lang Hlang) as [res Hres].
  unfold classify. rewrite Ht.
  rewrite (heading_no_match _ _ _ _ Hl Hws eq_refl).
  rewrite (bulleted_no_match _ _ _ _ Hl Hws Hc eq_refl).
  rewrite (numbered_no_match _ _ _ _ Hl Hws Hc eq_refl).
  rewrite Hres. simpl. destruct lang; simpl; eauto.
Qed.

(** A line that starts, once trimmed, with three backticks followed by
    something else than letters and digits is a paragraph. *)
Lemma classify_other_fence line :
  opensFence line = true ->
  matches (trim line) codeStartRegex = None ->
  classify line = Paragraph.
Proof.
  unfold opensFence. intros Hopen Hno.
  destruct (trim line) as [|c t] eqn:Ht; [discriminate|].
  change (startsWith (c :: t) (lit "```"))
    with ((96 =? c)%N && startsWith t (lit "``")) in Hopen.
  apply andb_true_iff in Hopen as [Hc _].
  apply N.eqb_eq in Hc. subst c.
  destruct (trim_first line _ _ Ht) as (ws & r & Hl & Hws & Hc).
  unfold classify. rewrite Ht.
  rewrite (heading_no_match _ _ _ _ Hl Hws eq_refl).
  rewrite (bulleted_no_match _ _ _ _ Hl Hws Hc eq_refl).
  rewrite (numbered_no_match _ _ _ _ Hl Hws Hc eq_refl).
  rewrite Hno. simpl. destruct (startsWith _ _); reflexivity.
Qed.

(* ================================================================== *)
(** ** The properties of the specification *)
(* ================================================================== *)

(** C1. For every markdown input the converter returns, every request
    with a range has its [endIndex] at or before the cursor at the time
    of its emission, where the cursor starts at 1 and every [insertText]
    advances it by the length of its text right after it; every
    [insertText] inserts at that cursor; and the cursor never goes back
    along the emitted sequence. *)
Theorem cursor_monotonicity (markdown : jsstring) :
  exists rs,
    convertMarkdownToRequests markdown = Some rs /\
    Forall withinCursor (emissions 1 rs) /\
    Sorted le (map snd (emissions 1 rs)).
Proof.
  destruct (convert_total noFault markdown) as (st & E & _ & _ & Hall).
  exists (requests st). unfold convertMarkdownToRequests. rewrite E.
  repeat split; [assumption|]. apply emissions_sorted.
Qed.

(** C6. For every markdown input, the total length of the texts of the
    emitted [insertText] requests is the final value of [index] minus 1. *)
Theorem inserted_length_is_final_cursor (markdown : jsstring) :
  exists st,
    convert noFault markdown = Some st /\
    convertMarkdownToRequests markdown = Some (requests st) /\
    insertedLength (requests st) = index st - 1 /\
    1 <= index st.
Proof.
  destruct (convert_total noFault markdown) as (st & E & _ & Hidx & _).
  exists st. unfold convertMarkdownToRequests. rewrite E.
  repeat split; lia.
Qed.

(** C9. The empty string is one blank line: the converter returns exactly
    one request, the [insertText] of a newline at index 1. *)
Theorem empty_input_is_a_blank_line :
  convertMarkdownToRequests [] = Some [insertText [LF] 1].
Proof. reflexivity. Qed.

(** C10. For the paragraph of four asterisks the bold pattern matches with
    an empty inner text, and the converter emits a bold [updateTextStyle]
    whose [startIndex] and [endIndex] are both 3. *)
Theorem bold_range_can_be_empty :
  option_map (group (lit "****") 2) (exec (lit "****") boldRegex 0)
    = Some [] /\
  convertMarkdownToRequests (lit "****")
    = Some [insertText (lit "****" ++ [LF]) 1;
            updateTextStyle bold 3 3 "bold"].
Proof. split; reflexivity. Qed.

(** C4, as stated, fails: the input of the heading line and a newline
    does not give the two requests alone. *)
Lemma heading_newline_not_two_requests :
  convertMarkdownToRequests (lit "# Title" ++ [LF])
  <> Some [insertText (lit "Title" ++ [LF]) 1;
           updateParagraphStyle (HEADING 1) 1 6 "namedStyleType"].
Proof. discriminate. Qed.

(** C4, amended. The heading line followed by a newline gives the
    [insertText] of the title and a newline at index 1, the paragraph
    style HEADING_1 over [1, 6], and then the [insertText] of a newline at
    index 7 for the empty line after the newline; the heading line alone
    gives the first two requests and no other. *)
Theorem heading_requests :
  convertMarkdownToRequests (lit "# Title" ++ [LF])
    = Some [insertText (lit "Title" ++ [LF]) 1;
            updateParagraphStyle (HEADING 1) 1 6 "namedStyleType";
            insertText [LF] 7] /\
  convertMarkdownToRequests (lit "# Title")
    = Some [insertText (lit "Title" ++ [LF]) 1;
            updateParagraphStyle (HEADING 1) 1 6 "namedStyleType"].
Proof. split; reflexivity. Qed.

(** C5, as stated, fails: for the line of "wow" between two runs of three
    asterisks no italic request is emitted, and no bold request covers
    the three characters of "wow", which are [4, 7) in the document. *)
Lemma triple_asterisks_no_italic :
  exists rs,
    convertMarkdownToRequests (lit "***wow***") = Some rs /\
    (forall a b fields, ~ In (updateTextStyle italic a b fields) rs) /\
    (forall fields, ~ In (updateTextStyle bold 4 7 fields) rs).
Proof.
  eexists. split; [reflexivity|].
  split; intros; simpl; intros [H|[H|[]]]; discriminate.
Qed.

(** C5, amended. For that line the converter emits, after the
    [insertText], one bold request over [3, 7), the four characters of
    an asterisk and "wow" between the first and the last two asterisks,
    and no italic request. *)
Theorem triple_asterisks_requests :
  convertMarkdownToRequests (lit "***wow***")
    = Some [insertText (lit "***wow***" ++ [LF]) 1;
            updateTextStyle bold 3 7 "bold"] /\
  substring 2 6 (lit "***wow***") = lit "*wow".
Proof. split; reflexivity. Qed.

(** C7, as stated, fails: a line of three backticks and "c++" is not taken
    as the opening line of a code block.  It is inserted as a paragraph,
    and the line after it is converted as the heading it is, not taken
    as code. *)
Lemma fence_with_other_language_is_a_paragraph :
  convertMarkdownToRequests (lit "```c++" ++ [LF] ++ lit "# x")
  = Some [insertText (lit "```c++" ++ [LF]) 1;
          insertText (lit "x" ++ [LF]) 8;
          updateParagraphStyle (HEADING 1) 8 9 "namedStyleType"].
Proof. reflexivity. Qed.

(** C7, amended. Whenever the loop, on any input, comes to a line that is,
    once trimmed, three backticks followed by letters and digits only
    (the opening line of a code block), and no later line starts, once
    trimmed, with three backticks, the conversion returns, and what it
    returns is the requests pushed before that line followed by one
    [insertText] of all the remaining lines, each with its newline, and
    the Courier New style with its background over exactly that text. *)
Theorem unterminated_fence_takes_the_rest
    (markdown : jsstring) (st : state) (line : jsstring)
    (rest : list jsstring) (language : jsstring) :
  iterates noFault (initial markdown) st ->
  lines st = line :: rest ->
  trim line = lit "```" ++ language ->
  forallb alnum language = true ->
  Forall (fun l => opensFence l = false) rest ->
  let codeContent := concat (map (fun l => l ++ [LF]) rest) in
  convertMarkdownToRequests markdown
  = Some (requests st ++
          [insertText codeContent (index st);
           updateTextStyle courierOnGray (index st)
             (index st + length codeContent) "fontFamily,backgroundColor"]).
Proof.
  intros Hit Hl Ht Hlang Hrest codeContent.
  destruct (classify_fence line language Ht Hlang) as [codeStartMatch Hc].
  unfold convertMarkdownToRequests, convert.
  change (State (split markdown) 1 []) with (initial markdown).
  change (length (split markdown)) with (length (lines (initial markdown))).
  rewrite (loop_iterates _ _ _ Hit), Hl. simpl. rewrite Hl.
  unfold body. rewrite Hc, (scanCode_unterminated _ _ Hrest). simpl.
  destruct (length rest); reflexivity.
Qed.

(** C7, amended, on a heading followed by a fence that is never closed. *)
Lemma unterminated_fence_witness :
  convertMarkdownToRequests
    (lit "# T" ++ [LF] ++ lit "  ```js " ++ [LF] ++ lit "a **b**" ++ [LF]
     ++ lit "c")
  = Some [insertText (lit "T" ++ [LF]) 1;
          updateParagraphStyle (HEADING 1) 1 2 "namedStyleType";
          insertText (lit "a **b**" ++ [LF] ++ lit "c" ++ [LF]) 3;
          updateTextStyle courierOnGray 3 13 "fontFamily,backgroundColor"].
Proof.
  apply (unterminated_fence_takes_the_rest _
           (State [lit "  ```js "; lit "a **b**"; lit "c"] 3
              [insertText (lit "T" ++ [LF]) 1;
               updateParagraphStyle (HEADING 1) 1 2 "namedStyleType"])
           (lit "  ```js ") [lit "a **b**"; lit "c"] (lit "js")).
  - eapply iterates_next; [reflexivity | reflexivity | apply iterates_here].
  - reflexivity.
  - reflexivity.
  - reflexivity.
  - repeat constructor.
Defined.



(* ================================================================== *)
(** ** Further properties of the converter *)
(* ================================================================== *)

(** The range of an inline request lies inside its match. *)
Lemma boldRequest_span text startIndex lastIndex mt :
  exec text boldRegex lastIndex = Some mt ->
  spanWithin (startIndex + Regex.index mt) (startIndex + endIndex mt)
             (boldRequest text startIndex mt).
Proof.
  intros H. destruct (exec_Some _ _ _ _ H) as (st & Hin & He & Hg & Hi).
  unfold boldRegex in Hin. split_match.
  known_groups Hg.
  assert (G1 : capture 1 (groups mt) = Some (Regex.index mt, pos x0))
    by (rewrite Hg; reflexivity).
  assert (G2 : capture 2 (groups mt) = Some (pos x0, pos x1))
    by (rewrite Hg; reflexivity).
  apply (group_length text) in G1, G2.
  eexists _, _. split; [reflexivity|]. split; [reflexivity|]. lia.
Qed.

Lemma italicRequest_span text startIndex lastIndex mt :
  exec text italicRegex lastIndex = Some mt ->
  spanWithin (startIndex + Regex.index mt) (startIndex + endIndex mt)
             (italicRequest text startIndex mt).
Proof.
  intros H. destruct (exec_Some _ _ _ _ H) as (st & Hin & He & Hg & Hi).
  unfold italicRegex in Hin. split_match.
  known_groups Hg.
  assert (G2 : capture 2 (groups mt) = Some (pos x4, pos x3))
    by (rewrite Hg; reflexivity).
  apply (group_length text) in G2.
  eexists _, _. split; [reflexivity|]. split; [reflexivity|]. lia.
Qed.

Lemma linkRequest_span text startIndex lastIndex mt :
  exec text linkRegex lastIndex = Some mt ->
  spanWithin (startIndex + Regex.index mt) (startIndex + endIndex mt)
             (linkRequest text startIndex mt).
Proof.
  intros H. destruct (exec_Some _ _ _ _ H) as (st & Hin & He & Hg & Hi).
  unfold linkRegex in Hin. split_match.
  known_groups Hg.
  assert (G1 : capture 1 (groups mt) = Some (pos x, pos x3))
    by (rewrite Hg; reflexivity).
  apply (group_length text) in G1.
  eexists _, _. split; [reflexivity|]. split; [reflexivity|]. lia.
Qed.

Lemma spanWithin_weaken lo hi lo' hi' r :
  lo' <= lo -> hi <= hi' -> spanWithin lo hi r -> spanWithin lo' hi' r.
Proof.
  intros Hlo Hhi (s & e & Hs & He & H). exists s, e.
  repeat split; try assumption; lia.
Qed.

(** The requests of [processInlineFormatting] range inside the text. *)
Lemma processInlineFormatting_spans fault requests text startIndex :
  exists new,
    processInlineFormatting fault requests text startIndex
      = Some (requests ++ new) /\
    Forall (spanWithin startIndex (startIndex + length text)) new.
Proof.
  destruct (processInlineFormatting_total fault requests text startIndex)
    as (bs & its & ls & Eb & Ei & El & -> & _).
  exists (bs ++ its ++ ls). split; [reflexivity|].
  unfold boldRequests in Eb. unfold italicRequests in Ei.
  unfold linkRequests in El.
  destruct (execLoop _ text boldRegex 0) as [lb|] eqn:Hb; [|discriminate].
  destruct (italicLoop fault _ text 0) as [li|] eqn:Hi; [|discriminate].
  destruct (execLoop _ text linkRegex 0) as [ll|] eqn:Hl; [|discriminate].
  injection Eb as <-. injection Ei as <-. injection El as <-.
  apply execLoop_matches in Hb, Hl. apply italicLoop_matches in Hi.
  repeat (apply Forall_app; split); apply Forall_map;
    (eapply Forall_impl; [|eassumption]); intros mt [i Hmt];
    pose proof (exec_bounds _ _ _ _ Hmt) as [_ Hend].
  - eapply spanWithin_weaken; [| |apply (boldRequest_span _ _ _ _ Hmt)]; lia.
  - eapply spanWithin_weaken; [| |apply (italicRequest_span _ _ _ _ Hmt)]; lia.
  - eapply spanWithin_weaken; [| |apply (linkRequest_span _ _ _ _ Hmt)]; lia.
Qed.

Ltac span_within :=
  eexists _, _; split; [reflexivity|]; split; [reflexivity|];
  rewrite ?length_app; simpl; lia.

(** One iteration pushes one block, with its styles inside its text. *)
Lemma body_block fault line rest idx reqs :
  exists st' text styles,
    body fault line rest idx reqs = Some st' /\
    requests st' = reqs ++ pushed (text, idx, styles) /\
    stylesInside (text, idx, styles).
Proof.
  unfold body, pushed, stylesInside.
  destruct (classify line); unfold listItem.
  - eexists _, [LF], []. simpl. repeat split; auto.
  - eexists _, _, _. simpl. repeat split. repeat constructor. span_within.
  - eexists _, _, _. simpl. repeat split.
    constructor; [span_within|].
    destruct (0 <? _); repeat constructor. span_within.
  - eexists _, _, _. simpl. repeat split.
    constructor; [span_within|].
    destruct (0 <? _); repeat constructor. span_within.
  - destruct (scanCode rest []) as [codeContent fromJ].
    eexists _, _, _. simpl. repeat split. repeat constructor. span_within.
  - destruct (processInlineFormatting_spans fault
                (reqs ++ [insertText (line ++ [LF]) idx]) line idx)
      as (new & -> & Hall).
    eexists _, (line ++ [LF]), new. simpl. repeat split.
    + rewrite <- app_assoc. reflexivity.
    + eapply Forall_impl; [|exact Hall]. intros r.
      apply spanWithin_weaken; [lia|]. rewrite length_app. lia.
Qed.

Lemma loop_blocks fault : forall fuel st st' blocks,
  loop fault fuel st = Some st' ->
  requests st = flat_map pushed blocks -> Forall stylesInside blocks ->
  exists more,
    requests st' = flat_map pushed (blocks ++ more) /\
    Forall stylesInside (blocks ++ more) /\
    (lines st <> [] -> more <> []).
Proof.
  induction fuel as [|fuel IH]; intros st st' blocks; simpl;
    destruct (lines st) as [|line rest] eqn:E; try discriminate;
    try (intros [= <-] Hr Hb; exists []; rewrite app_nil_r; auto).
  destruct (body_block fault line rest (index st) (requests st))
    as (st1 & text & styles & -> & Hreq & Hin).
  intros Hl Hr Hb.
  destruct (IH st1 st' (blocks ++ [(text, index st, styles)]) Hl)
    as (more & Hreq' & Hall & _).
  - rewrite Hreq, Hr, flat_map_app. simpl. rewrite app_nil_r. reflexivity.
  - apply Forall_app. split; [assumption|].
    constructor; [assumption|constructor].
  - exists ((text, index st, styles) :: more).
    rewrite <- app_assoc in Hreq', Hall. simpl in *.
    repeat split; try assumption. discriminate.
Qed.

Lemma split_not_nil s : split s <> [].
Proof.
  destruct s as [|c r]; simpl; [discriminate|].
  destruct (c =? LF)%N; [discriminate|]. destruct (split r); discriminate.
Qed.

(** X1. For every markdown input the result is a non-empty sequence of
    blocks, each one [insertText] followed by the requests that style
    it; the first insert is at index 1, and every range of a block lies
    inside the text that the block inserts: it starts at the location of
    the insert or after, does not end before it starts, and ends at the
    end of the inserted text or before. *)
Theorem requests_are_blocks (markdown : jsstring) :
  exists text styles blocks,
    convertMarkdownToRequests markdown
      = Some (flat_map pushed ((text, 1, styles) :: blocks)) /\
    Forall stylesInside ((text, 1, styles) :: blocks).
Proof.
  destruct (convert_total noFault markdown) as (st & E & _).
  unfold convertMarkdownToRequests. rewrite E. simpl.
  unfold convert in E.
  destruct (split markdown) as [|line rest] eqn:Hs;
    [destruct (split_not_nil _ Hs)|].
  simpl in E.
  destruct (body_block noFault line rest 1 [])
    as (st1 & text & styles & Hb & Hreq & Hin).
  rewrite Hb in E.
  destruct (loop_blocks noFault _ _ _ [(text, 1, styles)] E)
    as (more & Hreq' & Hall & _).
  - rewrite Hreq. simpl. rewrite app_nil_r. reflexivity.
  - constructor; [assumption|constructor].
  - exists text, styles, more. rewrite Hreq'. split; [reflexivity|assumption].
Qed.

Lemma group_le s n res : length (group s n res) <= length s.
Proof.
  unfold group. destruct (capture n (groups res)) as [[a b]|]; simpl; [|lia].
  unfold substring. rewrite length_firstn, length_skipn. lia.
Qed.

Lemma chars_cons l ls : chars (l :: ls) = S (length l) + chars ls.
Proof. reflexivity. Qed.

Lemma chars_tl ls : chars (tl ls) <= chars ls.
Proof. destruct ls; simpl; [lia|]. rewrite chars_cons. lia. Qed.

(** The code of a block is no longer than the lines it is taken from. *)
Lemma scanCode_chars : forall ls codeContent,
  length (fst (scanCode ls codeContent))
  + chars (tl (snd (scanCode ls codeContent)))
  <= length codeContent + chars ls.
Proof.
  induction ls as [|l ls IH]; intros codeContent; simpl; [lia|].
  destruct (startsWith (trim l) (lit "```")); simpl.
  - rewrite chars_cons. lia.
  - specialize (IH (codeContent ++ l ++ [LF])).
    rewrite !length_app in IH. simpl in IH. rewrite chars_cons. lia.
Qed.

(** An iteration adds to [index] no more than the characters of the
    lines it takes. *)
Lemma body_chars fault line rest idx reqs st' :
  body fault line rest idx reqs = Some st' ->
  index st' + chars (lines st') <= idx + chars (line :: rest).
Proof.
  rewrite chars_cons. unfold body.
  destruct (classify line); unfold listItem.
  - intros [= <-]. simpl. lia.
  - intros [= <-]. simpl. pose proof (group_le line 2 headingMatch). lia.
  - intros [= <-]. simpl. pose proof (group_le line 2 bulletedListMatch). lia.
  - intros [= <-]. simpl. pose proof (group_le line 2 numberedListMatch). lia.
  - pose proof (scanCode_chars rest []) as H.
    destruct (scanCode rest []) as [codeContent fromJ].
    intros [= <-]. simpl in *. lia.
  - destruct (processInlineFormatting _ _ _ _); [|discriminate].
    intros [= <-]. simpl. lia.
Qed.

Lemma loop_chars fault : forall fuel st st',
  loop fault fuel st = Some st' ->
  index st' <= index st + chars (lines st).
Proof.
  induction fuel as [|fuel IH]; intros st st'; simpl;
    destruct (lines st) as [|line rest] eqn:E; try discriminate;
    try (intros [= <-]; lia).
  destruct (body fault line rest (index st) (requests st)) as [st1|] eqn:Hb;
    [|discriminate].
  intros Hl. apply IH in Hl. apply body_chars in Hb. lia.
Qed.

Lemma split_chars s : chars (split s) = S (length s).
Proof.
  induction s as [|c r IH]; simpl; [reflexivity|].
  destruct (c =? LF)%N.
  - rewrite chars_cons, IH. reflexivity.
  - destruct (split r) as [|l ls].
    + discriminate.
    + rewrite chars_cons in *. simpl. lia.
Qed.

(** X2. The document is never longer than the markdown and one newline:
    for every input the total length of the inserted texts is at most
    the length of the input plus 1, and the final [index] at most the
    length of the input plus 2. *)
Theorem document_no_longer_than_markdown (markdown : jsstring) :
  exists st,
    convert noFault markdown = Some st /\
    insertedLength (requests st) <= length markdown + 1 /\
    index st <= length markdown + 2.
Proof.
  destruct (convert_total noFault markdown) as (st & E & _ & Hidx & _).
  exists st. split; [assumption|].
  unfold convert in E. apply loop_chars in E. simpl in E.
  rewrite split_chars in E. lia.
Qed.

Lemma unlines_split s : unlines (split s) = s ++ [LF].
Proof.
  unfold unlines. induction s as [|c r IH]; simpl; [reflexivity|].
  destruct (c =? LF)%N eqn:E.
  - apply N.eqb_eq in E. subst c. simpl. rewrite IH. reflexivity.
  - destruct (split r) as [|l ls]; simpl in *.
    + destruct r; discriminate.
    + rewrite IH. reflexivity.
Qed.

Lemma insertedText_app a b :
  insertedText (a ++ b) = insertedText a ++ insertedText b.
Proof.
  induction a as [|r a IH]; simpl; [reflexivity|].
  destruct r; try assumption. rewrite IH, app_assoc. reflexivity.
Qed.

Lemma styles_insertedText bound styles :
  Forall (styleWithin bound) styles -> insertedText styles = [].
Proof.
  induction 1 as [|r styles (e & He & _) _ IH]; [reflexivity|].
  destruct r; simpl in *; try discriminate; assumption.
Qed.

Lemma body_plain fault line rest idx reqs :
  plainLine line ->
  exists st',
    body fault line rest idx reqs = Some st' /\ lines st' = rest /\
    insertedText (requests st') = insertedText reqs ++ line ++ [LF].
Proof.
  unfold body. intros [->| ->].
  - eexists. split; [reflexivity|]. split; [reflexivity|]. simpl.
    rewrite insertedText_app. reflexivity.
  - destruct (processInlineFormatting_total fault
                (reqs ++ [insertText (line ++ [LF]) idx]) line idx)
      as (bs & its & ls & _ & _ & _ & -> & Hall).
    eexists. split; [reflexivity|]. split; [reflexivity|]. simpl.
    rewrite insertedText_app, (styles_insertedText _ _ Hall).
    rewrite insertedText_app. simpl. rewrite !app_nil_r. reflexivity.
Qed.

Lemma loop_plain fault : forall fuel st st',
  loop fault fuel st = Some st' -> Forall plainLine (lines st) ->
  insertedText (requests st')
  = insertedText (requests st) ++ unlines (lines st).
Proof.
  induction fuel as [|fuel IH]; intros st st'; simpl;
    destruct (lines st) as [|line rest] eqn:E; try discriminate;
    try (intros [= <-] _; rewrite app_nil_r; reflexivity).
  intros Hl Hall. inversion Hall as [|? ? Hline Hrest]; subst.
  destruct (body_plain fault line rest (index st) (requests st) Hline)
    as (st1 & Hb & Hlines & Htext).
  rewrite Hb in Hl. apply IH in Hl; [|rewrite Hlines; assumption].
  rewrite Hl, Htext, Hlines. unfold unlines. simpl.
  rewrite <- !app_assoc. reflexivity.
Qed.

(** X3. Plain text goes through as it is: when every line of the input
    is empty or a paragraph, the inserted texts, one after the other,
    are the input itself followed by one newline; bold, italic and link
    markers stay in the text. *)
Theorem plain_text_is_inserted_as_it_is (markdown : jsstring) :
  Forall plainLine (split markdown) ->
  exists rs,
    convertMarkdownToRequests markdown = Some rs /\
    insertedText rs = markdown ++ [LF].
Proof.
  intros Hall.
  destruct (convert_total noFault markdown) as (st & E & _).
  exists (requests st). unfold convertMarkdownToRequests. rewrite E.
  split; [reflexivity|].
  unfold convert in E. apply loop_plain in E; [|assumption].
  rewrite E. simpl. apply unlines_split.
Qed.

(** X3 on two paragraphs with markers, an empty line between them. *)
Lemma plain_text_witness :
  Forall plainLine
    (split (lit "a **b** _c_" ++ [LF] ++ [LF] ++ lit "[d](e)")) /\
  exists rs,
    convertMarkdownToRequests
      (lit "a **b** _c_" ++ [LF] ++ [LF] ++ lit "[d](e)") = Some rs /\
    insertedText rs
    = (lit "a **b** _c_" ++ [LF] ++ [LF] ++ lit "[d](e)") ++ [LF].
Proof.
  assert (Forall plainLine
            (split (lit "a **b** _c_" ++ [LF] ++ [LF] ++ lit "[d](e)")))
    as Hall.
  { repeat constructor; solve [left; reflexivity | right; reflexivity]. }
  split; [exact Hall|].
  exact (plain_text_is_inserted_as_it_is _ Hall).
Defined.

Lemma in_Eol s st st' : In st' (m s Eol st) -> pos st = length s /\ st' = st.
Proof.
  simpl. destruct (pos st =? length s) eqn:E; [|contradiction].
  apply Nat.eqb_eq in E. intros [<-|[]]. auto.
Qed.

Lemma in_Alt s a b st st' :
  In st' (m s (Alt a b) st) -> In st' (m s a st) \/ In st' (m s b st).
Proof. simpl. apply in_app_or. Qed.

(** A part of the leading run of a class has its length and is in the
    class. *)
Lemma run_firstn c l n :
  n <= prefixLen c l ->
  length (firstn n l) = n /\ forallb c (firstn n l) = true.
Proof.
  revert n. induction l as [|x l IH]; intros n; simpl.
  - intros Hn. assert (n = 0) as -> by lia. auto.
  - destruct n as [|n]; [auto|]. destruct (c x) eqn:E; [|lia].
    intros Hn. destruct (IH n ltac:(lia)) as [Hl Hf].
    simpl. rewrite E, Hl, Hf. auto.
Qed.

Lemma in_Greedy_run s c lo hi st st' :
  In st' (m s (Greedy c lo hi) st) ->
  exists n, st' = advance n st /\ lo <= n /\
            n <= prefixLen c (skipn (pos st) s) /\
            match hi with Some h => n <= h | None => True end.
Proof.
  intros Hin. apply in_Greedy in Hin as (n & -> & Hlo & Hn).
  exists n. unfold maxReps in Hn. destruct hi; repeat split; auto; lia.
Qed.

Lemma firstn_skipn_all {A} (l : list A) p n :
  p + n = length l -> firstn n (skipn p l) = skipn p l.
Proof.
  intros H. apply firstn_all2. rewrite length_skipn. lia.
Qed.

(** What the heading pattern matches: one to six hashes, white space,
    and a text without line terminators up to the end of the line. *)
Lemma heading_parts line mt :
  matches line headingRegex = Some mt ->
  exists hashes ws text,
    line = hashes ++ ws ++ text /\
    group line 1 mt = hashes /\ group line 2 mt = text /\
    1 <= length hashes <= 6 /\ forallb (char "#") hashes = true /\
    1 <= length ws /\ forallb space ws = true /\
    1 <= length text /\ forallb dot text = true.
Proof.
  intros H. destruct (exec_Some _ _ _ _ H) as (st & Hin & He & Hg & Hi).
  unfold headingRegex in Hin.
  apply in_Seq in Hin as (x1 & H1 & Hin). apply in_Bol in H1 as [H0 ->].
  apply in_Seq in Hin as (x2 & H2 & Hin).
  apply in_Group in H2 as (y1 & Hy1 & ->).
  apply in_Greedy_run in Hy1 as (n1 & -> & Hlo1 & Hn1 & Hhi1).
  apply in_Seq in Hin as (x3 & H3 & Hin).
  apply in_Greedy_run in H3 as (n2 & -> & Hlo2 & Hn2 & _).
  apply in_Seq in Hin as (x4 & H4 & Hin).
  apply in_Group in H4 as (y2 & Hy2 & ->).
  apply in_Greedy_run in Hy2 as (n3 & -> & Hlo3 & Hn3 & _).
  apply in_Eol in Hin as [Hend ->].
  simpl in *. rewrite H0 in *. simpl in *.
  destruct (run_firstn _ _ _ Hn1) as [L1 F1].
  destruct (run_firstn _ _ _ Hn2) as [L2 F2].
  destruct (run_firstn _ _ _ Hn3) as [L3 F3].
  rewrite (firstn_skipn_all line (n1 + n2) n3 Hend) in L3, F3.
  exists (firstn n1 line), (firstn n2 (skipn n1 line)), (skipn (n1 + n2) line).
  unfold group. rewrite Hg. simpl. unfold substring.
  rewrite Nat.sub_0_r. simpl.
  replace (n1 + n2 + n3 - (n1 + n2)) with n3 by lia.
  rewrite (firstn_skipn_all line (n1 + n2) n3 Hend).
  repeat split; try assumption; try lia.
  rewrite <- (firstn_skipn n1 line) at 1. f_equal.
  rewrite <- (firstn_skipn n2 (skipn n1 line)) at 1. f_equal.
  rewrite skipn_skipn. f_equal. lia.
Qed.

Lemma classify_Heading line mt :
  classify line = Heading mt -> matches line headingRegex = Some mt.
Proof.
  unfold classify. destruct (JS.eqb (trim line) []); [discriminate|].
  destruct (matches line headingRegex); [congruence|].
  destruct (matches line bulletedListRegex); [discriminate|].
  destruct (matches line numberedListRegex); [discriminate|].
  destruct (startsWith _ _); [|discriminate].
  destruct (matches (trim line) codeStartRegex); discriminate.
Qed.

Lemma classify_Bulleted line mt :
  classify line = Bulleted mt -> matches line bulletedListRegex = Some mt.
Proof.
  unfold classify. destruct (JS.eqb (trim line) []); [discriminate|].
  destruct (matches line headingRegex); [discriminate|].
  destruct (matches line bulletedListRegex); [congruence|].
  destruct (matches line numberedListRegex); [discriminate|].
  destruct (startsWith _ _); [|discriminate].
  destruct (matches (trim line) codeStartRegex); discriminate.
Qed.

Lemma classify_Numbered line mt :
  classify line = Numbered mt -> matches line numberedListRegex = Some mt.
Proof.
  unfold classify. destruct (JS.eqb (trim line) []); [discriminate|].
  destruct (matches line headingRegex); [discriminate|].
  destruct (matches line bulletedListRegex); [discriminate|].
  destruct (matches line numberedListRegex); [congruence|].
  destruct (startsWith _ _); [|discriminate].
  destruct (matches (trim line) codeStartRegex); discriminate.
Qed.

(** X4. A line taken as a heading is one to six hashes, then white
    space, then a text without line terminators up to the end of the
    line, none of them empty.  The iteration inserts that text and a
    newline, and styles the text, without the newline, as the heading of
    the level that is the number of hashes. *)
Theorem heading_line_shape (line : jsstring) (rest : list jsstring)
    (idx : nat) (reqs : list request) (headingMatch : result) :
  classify line = Heading headingMatch ->
  exists hashes ws text,
    line = hashes ++ ws ++ text /\
    1 <= length hashes <= 6 /\ forallb (char "#") hashes = true /\
    1 <= length ws /\ forallb space ws = true /\
    1 <= length text /\ forallb dot text = true /\
    body noFault line rest idx reqs
    = Some (State rest (idx + (length text + 1))
              (reqs ++
               [insertText (text ++ [LF]) idx;
                updateParagraphStyle (HEADING (length hashes)) idx
                  (idx + length text) "namedStyleType"])).
Proof.
  intros Hc. pose proof (classify_Heading _ _ Hc) as Hm.
  destruct (heading_parts _ _ Hm)
    as (hashes & ws & text & Hl & G1 & G2 & Hh & Fh & Hw & Fw & Ht & Ft).
  exists hashes, ws, text. repeat split; try assumption; try lia.
  unfold body. rewrite Hc, G1, G2. reflexivity.
Qed.

(** X4 on a heading of level 2 with a marker in its text. *)
Lemma heading_line_shape_witness :
  classify (lit "## A **b**")
  = Heading (Result 0 10 [(2, (3, 10)); (1, (0, 2))])
  /\ exists hashes ws text,
       lit "## A **b**" = hashes ++ ws ++ text /\
       1 <= length hashes <= 6 /\
       body noFault (lit "## A **b**") [] 1 []
       = Some (State [] (1 + (length text + 1))
                 [insertText (text ++ [LF]) 1;
                  updateParagraphStyle (HEADING (length hashes)) 1
                    (1 + length text) "namedStyleType"]).
Proof.
  assert (classify (lit "## A **b**")
          = Heading (Result 0 10 [(2, (3, 10)); (1, (0, 2))])) as Hc
    by reflexivity.
  split; [exact Hc|].
  destruct (heading_line_shape (lit "## A **b**") [] 1 [] _ Hc)
    as (hashes & ws & text & Hl & Hh & _ & _ & _ & _ & _ & Hb).
  exists hashes, ws, text. repeat split; try assumption; lia.
Defined.

Lemma char_eq a x : char a x = true -> x = N_of_ascii a.
Proof. unfold char. apply N.eqb_eq. Qed.

(** What the pattern of a bulleted item matches: the white space that
    starts the line, a dash, white space, and a text without line
    terminators up to the end of the line. *)
Lemma bulleted_parts line mt :
  matches line bulletedListRegex = Some mt ->
  exists ws ws' text,
    line = ws ++ lit "-" ++ ws' ++ text /\
    group line 1 mt = ws /\ group line 2 mt = text /\
    forallb space ws = true /\
    1 <= length ws' /\ forallb space ws' = true /\
    1 <= length text /\ forallb dot text = true.
Proof.
  intros H. destruct (exec_Some _ _ _ _ H) as (st & Hin & He & Hg & Hi).
  unfold bulletedListRegex in Hin.
  apply in_Seq in Hin as (x1 & H1 & Hin). apply in_Bol in H1 as [H0 ->].
  apply in_Seq in Hin as (x2 & H2 & Hin).
  apply in_Group in H2 as (y1 & Hy1 & ->).
  apply in_Greedy_run in Hy1 as (n1 & -> & _ & Hn1 & _).
  apply in_Seq in Hin as (x3 & H3 & Hin).
  apply in_Chr in H3 as (d & Hd & Hdash & ->). apply char_eq in Hdash.
  apply in_Seq in Hin as (x4 & H4 & Hin).
  apply in_Greedy_run in H4 as (n2 & -> & Hlo2 & Hn2 & _).
  apply in_Seq in Hin as (x5 & H5 & Hin).
  apply in_Group in H5 as (y2 & Hy2 & ->).
  apply in_Greedy_run in Hy2 as (n3 & -> & Hlo3 & Hn3 & _).
  apply in_Eol in Hin as [Hend ->].
  simpl in *. rewrite H0 in *. simpl in *.
  destruct (run_firstn _ _ _ Hn1) as [L1 F1].
  destruct (run_firstn _ _ _ Hn2) as [L2 F2].
  destruct (run_firstn _ _ _ Hn3) as [L3 F3].
  rewrite (firstn_skipn_all line (n1 + 1 + n2) n3 Hend) in L3, F3.
  exists (firstn n1 line), (firstn n2 (skipn (n1 + 1) line)),
         (skipn (n1 + 1 + n2) line).
  unfold group. rewrite Hg. simpl. unfold substring.
  rewrite Nat.sub_0_r. simpl.
  replace (n1 + 1 + n2 + n3 - (n1 + 1 + n2)) with n3 by lia.
  rewrite (firstn_skipn_all line (n1 + 1 + n2) n3 Hend).
  repeat split; try assumption; try lia.
  rewrite <- (firstn_skipn n1 line) at 1. f_equal.
  rewrite (skipn_nth _ _ _ Hd). subst d. f_equal.
  replace (S n1) with (n1 + 1) by lia.
  rewrite <- (firstn_skipn n2 (skipn (n1 + 1) line)) at 1. f_equal.
  rewrite skipn_skipn. f_equal. lia.
Qed.

(** What the pattern of a numbered item matches: the white space that
    starts the line, digits, a dot, white space, and a text without line
    terminators up to the end of the line. *)
Lemma numbered_parts line mt :
  matches line numberedListRegex = Some mt ->
  exists ws digits ws' text,
    line = ws ++ digits ++ lit "." ++ ws' ++ text /\
    group line 1 mt = ws /\ group line 2 mt = text /\
    forallb space ws = true /\
    1 <= length digits /\ forallb digit digits = true /\
    1 <= length ws' /\ forallb space ws' = true /\
    1 <= length text /\ forallb dot text = true.
Proof.
  intros H. destruct (exec_Some _ _ _ _ H) as (st & Hin & He & Hg & Hi).
  unfold numberedListRegex in Hin.
  apply in_Seq in Hin as (x1 & H1 & Hin). apply in_Bol in H1 as [H0 ->].
  apply in_Seq in Hin as (x2 & H2 & Hin).
  apply in_Group in H2 as (y1 & Hy1 & ->).
  apply in_Greedy_run in Hy1 as (n1 & -> & _ & Hn1 & _).
  apply in_Seq in Hin as (x3 & H3 & Hin).
  apply in_Greedy_run in H3 as (nd & -> & Hlod & Hnd & _).
  apply in_Seq in Hin as (x4 & H4 & Hin).
  apply in_Chr in H4 as (d & Hd & Hdot & ->). apply char_eq in Hdot.
  apply in_Seq in Hin as (x5 & H5 & Hin).
  apply in_Greedy_run in H5 as (n2 & -> & Hlo2 & Hn2 & _).
  apply in_Seq in Hin as (x6 & H6 & Hin).
  apply in_Group in H6 as (y2 & Hy2 & ->).
  apply in_Greedy_run in Hy2 as (n3 & -> & Hlo3 & Hn3 & _).
  apply in_Eol in Hin as [Hend ->].
  simpl in *. rewrite H0 in *. simpl in *.
  destruct (run_firstn _ _ _ Hn1) as [L1 F1].
  destruct (run_firstn _ _ _ Hnd) as [Ld Fd].
  destruct (run_firstn _ _ _ Hn2) as [L2 F2].
  destruct (run_firstn _ _ _ Hn3) as [L3 F3].
  rewrite (firstn_skipn_all line (n1 + nd + 1 + n2) n3 Hend) in L3, F3.
  exists (firstn n1 line), (firstn nd (skipn n1 line)),
         (firstn n2 (skipn (n1 + nd + 1) line)),
         (skipn (n1 + nd + 1 + n2) line).
  unfold group. rewrite Hg. simpl. unfold substring.
  rewrite Nat.sub_0_r. simpl.
  replace (n1 + nd + 1 + n2 + n3 - (n1 + nd + 1 + n2)) with n3 by lia.
  rewrite (firstn_skipn_all line (n1 + nd + 1 + n2) n3 Hend).
  repeat split; try assumption; try lia.
  rewrite <- (firstn_skipn n1 line) at 1. f_equal.
  rewrite <- (firstn_skipn nd (skipn n1 line)) at 1. f_equal.
  rewrite skipn_skipn. replace (nd + n1) with (n1 + nd) by lia.
  rewrite (skipn_nth _ _ _ Hd). subst d. f_equal.
  replace (S (n1 + nd)) with (n1 + nd + 1) by lia.
  rewrite <- (firstn_skipn n2 (skipn (n1 + nd + 1) line)) at 1. f_equal.
  rewrite skipn_skipn. f_equal. lia.
Qed.

(** X5. A line taken as a bulleted item is white space (the indent,
    possibly empty), a dash, white space, and a text without line
    terminators up to the end of the line.  The iteration inserts the
    text and a newline and makes it a bullet, and, when the indent is
    not empty, indents it by 18 points for every character of the
    indent, a tab counting as one. *)
Theorem bulleted_line_shape (line : jsstring) (rest : list jsstring)
    (idx : nat) (reqs : list request) (bulletedListMatch : result) :
  classify line = Bulleted bulletedListMatch ->
  exists ws ws' text,
    line = ws ++ lit "-" ++ ws' ++ text /\
    forallb space ws = true /\
    1 <= length ws' /\ forallb space ws' = true /\
    1 <= length text /\ forallb dot text = true /\
    body noFault line rest idx reqs
    = Some (State rest (idx + (length text + 1))
              (reqs ++
               [insertText (text ++ [LF]) idx;
                createParagraphBullets idx (idx + length text)
                  BULLET_DISC_CIRCLE_SQUARE] ++
               (if 0 <? length ws
                then [updateParagraphStyle
                        (indentPT (Z.of_nat (length ws * 18)) 0) idx
                        (idx + length text) "indentStart,indentFirstLine"]
                else []))).
Proof.
  intros Hc. pose proof (classify_Bulleted _ _ Hc) as Hm.
  destruct (bulleted_parts _ _ Hm)
    as (ws & ws' & text & Hl & G1 & G2 & Fw & Hw' & Fw' & Ht & Ft).
  exists ws, ws', text. repeat split; try assumption.
  unfold body, listItem. rewrite Hc, G1, G2. reflexivity.
Qed.

(** X5 on an item indented by a tab and a space. *)
Lemma bulleted_line_shape_witness :
  classify (9%N :: lit " - a")
    = Bulleted (Result 0 5 [(2, (4, 5)); (1, (0, 2))]) /\
  exists ws ws' text,
    9%N :: lit " - a" = ws ++ lit "-" ++ ws' ++ text /\
    body noFault (9%N :: lit " - a") [] 1 []
    = Some (State [] (1 + (length text + 1))
              ([insertText (text ++ [LF]) 1;
                createParagraphBullets 1 (1 + length text)
                  BULLET_DISC_CIRCLE_SQUARE] ++
               (if 0 <? length ws
                then [updateParagraphStyle
                        (indentPT (Z.of_nat (length ws * 18)) 0) 1
                        (1 + length text) "indentStart,indentFirstLine"]
                else []))).
Proof.
  assert (classify (9%N :: lit " - a")
          = Bulleted (Result 0 5 [(2, (4, 5)); (1, (0, 2))])) as Hc
    by reflexivity.
  split; [exact Hc|].
  destruct (bulleted_line_shape (9%N :: lit " - a") [] 1 [] _ Hc)
    as (ws & ws' & text & Hl & _ & _ & _ & _ & _ & Hb).
  exists ws, ws', text. split; assumption.
Defined.

(** X6. A line taken as a numbered item is white space (the indent,
    possibly empty), digits, a dot, white space, and a text without line
    terminators up to the end of the line.  The iteration inserts the
    text and a newline and makes it a numbered item; the number written
    in the line is in no request, and the indent counts as for a
    bulleted item. *)
Theorem numbered_line_shape (line : jsstring) (rest : list jsstring)
    (idx : nat) (reqs : list request) (numberedListMatch : result) :
  classify line = Numbered numberedListMatch ->
  exists ws digits ws' text,
    line = ws ++ digits ++ lit "." ++ ws' ++ text /\
    forallb space ws = true /\
    1 <= length digits /\ forallb digit digits = true /\
    1 <= length ws' /\ forallb space ws' = true /\
    1 <= length text /\ forallb dot text = true /\
    body noFault line rest idx reqs
    = Some (State rest (idx + (length text + 1))
              (reqs ++
               [insertText (text ++ [LF]) idx;
                createParagraphBullets idx (idx + length text)
                  NUMBERED_DECIMAL_NESTED] ++
               (if 0 <? length ws
                then [updateParagraphStyle
                        (indentPT (Z.of_nat (length ws * 18)) 0) idx
                        (idx + length text) "indentStart,indentFirstLine"]
                else []))).
Proof.
  intros Hc. pose proof (classify_Numbered _ _ Hc) as Hm.
  destruct (numbered_parts _ _ Hm)
    as (ws & digits & ws' & text & Hl & G1 & G2 & Fw & Hd & Fd & Hw' & Fw'
        & Ht & Ft).
  exists ws, digits, ws', text. repeat split; try assumption.
  unfold body, listItem. rewrite Hc, G1, G2. reflexivity.
Qed.

(** X6 on the item numbered 42. *)
Lemma numbered_line_shape_witness :
  classify (lit "42. a") = Numbered (Result 0 5 [(2, (4, 5)); (1, (0, 0))]) /\
  exists ws digits ws' text,
    lit "42. a" = ws ++ digits ++ lit "." ++ ws' ++ text /\
    1 <= length digits /\
    body noFault (lit "42. a") [] 1 []
    = Some (State [] (1 + (length text + 1))
              ([insertText (text ++ [LF]) 1;
                createParagraphBullets 1 (1 + length text)
                  NUMBERED_DECIMAL_NESTED] ++
               (if 0 <? length ws
                then [updateParagraphStyle
                        (indentPT (Z.of_nat (length ws * 18)) 0) 1
                        (1 + length text) "indentStart,indentFirstLine"]
                else []))).
Proof.
  assert (classify (lit "42. a")
          = Numbered (Result 0 5 [(2, (4, 5)); (1, (0, 0))])) as Hc
    by reflexivity.
  split; [exact Hc|].
  destruct (numbered_line_shape (lit "42. a") [] 1 [] _ Hc)
    as (ws & digits & ws' & text & Hl & _ & Hd & _ & _ & _ & _ & _ & Hb).
  exists ws, digits, ws', text. repeat split; assumption.
Defined.

(** A text that ends a line ends as the line does. *)
Lemma last_of_suffix (pre text l : jsstring) c :
  pre ++ text = l ++ [c] -> 1 <= length text -> In c text.
Proof.
  intros H Hlen.
  destruct (exists_last (l := text)) as (t' & c' & ->).
  { destruct text; simpl in Hlen; [lia|discriminate]. }
  rewrite app_assoc in H. apply app_inj_tail in H as [_ ->].
  apply in_or_app. right. left. reflexivity.
Qed.

Lemma dot_text_end (pre text l : jsstring) c :
  pre ++ text = l ++ [c] -> 1 <= length text -> forallb dot text = true ->
  isLineTerminator c = false.
Proof.
  intros H Hlen Hdot. pose proof (last_of_suffix _ _ _ _ H Hlen) as Hin.
  rewrite forallb_forall in Hdot. specialize (Hdot c Hin).
  unfold dot in Hdot. destruct (isLineTerminator c); [discriminate|reflexivity].
Qed.

(** X7. A line that ends with a line terminator, such as the carriage
    return that a CRLF file leaves at the end of every line, is never
    taken as a heading or as a list item: it is a blank line, the opening
    line of a code block or a paragraph. *)
Theorem line_terminator_at_end (l : jsstring) (c : code_unit) :
  isLineTerminator c = true ->
  classify (l ++ [c]) = BlankLine \/
  classify (l ++ [c]) = Paragraph \/
  exists codeStartMatch, classify (l ++ [c]) = CodeStart codeStartMatch.
Proof.
  intros Hc. unfold classify.
  destruct (JS.eqb (trim (l ++ [c])) []); [left; reflexivity|].
  destruct (matches (l ++ [c]) headingRegex) as [mt|] eqn:Hh.
  { destruct (heading_parts _ _ Hh)
      as (hashes & ws & text & Hl & _ & _ & _ & _ & _ & _ & Ht & Ft).
    rewrite app_assoc in Hl. symmetry in Hl.
    rewrite (dot_text_end _ _ _ _ Hl Ht Ft) in Hc. discriminate. }
  destruct (matches (l ++ [c]) bulletedListRegex) as [mt|] eqn:Hb.
  { destruct (bulleted_parts _ _ Hb)
      as (ws & ws' & text & Hl & _ & _ & _ & _ & _ & Ht & Ft).
    rewrite !app_assoc in Hl. symmetry in Hl.
    rewrite (dot_text_end _ _ _ _ Hl Ht Ft) in Hc. discriminate. }
  destruct (matches (l ++ [c]) numberedListRegex) as [mt|] eqn:Hn.
  { destruct (numbered_parts _ _ Hn)
      as (ws & ds & ws' & text & Hl & _ & _ & _ & _ & _ & _ & _ & Ht & Ft).
    rewrite !app_assoc in Hl. symmetry in Hl.
    rewrite (dot_text_end _ _ _ _ Hl Ht Ft) in Hc. discriminate. }
  destruct (startsWith _ _); [|right; left; reflexivity].
  destruct (matches (trim (l ++ [c])) codeStartRegex);
    [right; right; eauto | right; left; reflexivity].
Qed.

(** X7 on a heading line with a carriage return at its end. *)
Lemma line_terminator_at_end_witness :
  isLineTerminator 13%N = true /\
  classify (lit "# Title" ++ [13%N]) = Paragraph.
Proof.
  split; [reflexivity|].
  destruct (line_terminator_at_end (lit "# Title") 13%N eq_refl)
    as [H|[H|[mt H]]]; [discriminate H | exact H | discriminate H].
Defined.

(** The [while] loop stops at the first line that starts with a fence. *)
Lemma scanCode_terminated : forall content close after codeContent,
  Forall (fun l => opensFence l = false) content ->
  opensFence close = true ->
  scanCode (content ++ close :: after) codeContent
  = (codeContent ++ unlines content, close :: after).
Proof.
  unfold unlines.
  induction content as [|l content IH]; intros close after codeContent Hall Hc;
    simpl.
  - unfold opensFence in Hc. rewrite Hc, app_nil_r. reflexivity.
  - inversion Hall as [|? ? Hl Hrest]; subst. unfold opensFence in Hl.
    rewrite Hl, IH by assumption. rewrite <- !app_assoc. reflexivity.
Qed.

(** X8. A code block that is closed: on a line that is, once trimmed,
    three backticks followed by letters and digits only, the iteration
    takes the lines up to the first one that starts, once trimmed, with
    three backticks, whatever follows them, inserts those lines as they
    are, a newline after each, styles exactly that text in Courier New
    on its background, and goes on with the line after the closing one;
    the two fence lines are in no request. *)
Theorem code_block_between_fences
    (line : jsstring) (content : list jsstring) (close : jsstring)
    (after : list jsstring) (idx : nat) (reqs : list request)
    (language : jsstring) :
  trim line = lit "```" ++ language ->
  forallb alnum language = true ->
  Forall (fun l => opensFence l = false) content ->
  opensFence close = true ->
  body noFault line (content ++ close :: after) idx reqs
  = Some (State after (idx + length (unlines content))
            (reqs ++
             [insertText (unlines content) idx;
              updateTextStyle courierOnGray idx
                (idx + length (unlines content))
                "fontFamily,backgroundColor"])).
Proof.
  intros Ht Hlang Hall Hclose.
  destruct (classify_fence line language Ht Hlang) as [mt Hc].
  unfold body. rewrite Hc.
  rewrite (scanCode_terminated _ _ _ _ Hall Hclose). reflexivity.
Qed.

(** X8 on a block closed by a line that has a word after its fence. *)
Lemma code_block_between_fences_witness :
  body noFault (lit "```js") [lit "# a"; lit "**b**"; lit "```end"; lit "c"]
       1 []
  = Some (State [lit "c"] 11
            [insertText (lit "# a" ++ [LF] ++ lit "**b**" ++ [LF]) 1;
             updateTextStyle courierOnGray 1 11
               "fontFamily,backgroundColor"]).
Proof.
  apply (code_block_between_fences (lit "```js") [lit "# a"; lit "**b**"]
           (lit "```end") [lit "c"] 1 [] (lit "js")).
  - reflexivity.
  - reflexivity.
  - repeat constructor.
  - reflexivity.
Defined.

Lemma in_NegBehind s a st st' : In st' (m s (NegBehind a) st) -> st' = st.
Proof.
  cbn [m]. destruct (existsb _ _); [contradiction|]. intros [<-|[]].
  reflexivity.
Qed.

Lemma in_NegAhead s a st st' :
  In st' (m s (NegAhead a) st) -> st' = st /\ m s a st = [].
Proof.
  cbn [m]. destruct (m s a st); [|contradiction]. intros [<-|[]]. auto.
Qed.

Lemma in_Lazy s c lo hi st st' :
  In st' (m s (Lazy c lo hi) st) ->
  exists n, st' = advance n st /\ lo <= n <= maxReps s c hi st.
Proof.
  cbn [m]. intros Hin. apply in_map_iff in Hin as (n & <- & Hn).
  apply in_reps in Hn. eauto.
Qed.

(** Whether a backreference matches is a matter of the position and of
    the capture of its group. *)
Lemma Backref_same s n st st' :
  pos st = pos st' -> capture n (caps st) = capture n (caps st') ->
  m s (Backref n) st = [] -> m s (Backref n) st' = [].
Proof.
  cbn [m]. intros -> ->.
  destruct (capture n (caps st')) as [[a b]|]; [|discriminate].
  destruct (_ && _); [discriminate|reflexivity].
Qed.

Lemma group_length_exact s n res a b :
  capture n (groups res) = Some (a, b) -> b <= length s ->
  length (group s n res) = b - a.
Proof.
  unfold group. intros -> Hb. unfold substring.
  rewrite length_firstn, length_skipn. lia.
Qed.

(** The text between the delimiters of an italic match is not empty:
    right after the opening delimiter must not come the same one. *)
Lemma italicRequest_not_empty text startIndex lastIndex mt :
  exec text italicRegex lastIndex = Some mt ->
  exists a b,
    italicRequest text startIndex mt = updateTextStyle italic a b "italic"
    /\ a < b.
Proof.
  intros H. destruct (exec_Some _ _ _ _ H) as (st & Hin & He & Hg & Hi).
  pose proof (m_inside _ _ _ _ Hin ltac:(simpl; lia)) as Hend.
  unfold italicRegex in Hin.
  apply in_Seq in Hin as (x1 & H1 & Hin). apply in_NegBehind in H1 as ->.
  apply in_Seq in Hin as (x2 & H2 & Hin).
  apply in_Group in H2 as (y1 & Hy1 & ->).
  assert (y1 = advance 1 (MState (Regex.index mt) [])) as ->.
  { apply in_Alt in Hy1 as [Hy1|Hy1];
      apply in_Chr in Hy1 as (? & _ & _ & ->); reflexivity. }
  apply in_Seq in Hin as (x3 & H3 & Hin).
  apply in_Group in H3 as (y2 & Hy2 & ->).
  apply in_Seq in Hy2 as (z & Hz & Hy2).
  apply in_NegAhead in Hz as [-> Hno].
  apply in_Lazy in Hy2 as (n & -> & _ & _).
  apply in_Seq in Hin as (x4 & H4 & Hin).
  assert (n <> 0) as Hn.
  { intros ->.
    match type of H4 with
    | In _ (m _ _ ?x3) =>
        pose proof (fun Hp Hc => Backref_same text 1 _ x3 Hp Hc Hno) as Hno'
    end.
    rewrite Hno' in H4; [destruct H4 | simpl; lia | reflexivity]. }
  pose proof (m_mono _ _ _ _ H4) as M4. pose proof (m_mono _ _ _ _ Hin) as M5.
  pose proof (m_groupFree text (Backref 1) _ _ eq_refl H4) as C4.
  pose proof (m_groupFree text (NegAhead (Backref 1)) _ _ eq_refl Hin) as C5.
  clear Hno H4 Hin. simpl in *.
  rewrite C5, C4 in Hg.
  assert (G2 : capture 2 (groups mt)
               = Some (Regex.index mt + 1, Regex.index mt + 1 + n))
    by (rewrite Hg; reflexivity).
  apply (group_length_exact text) in G2; [|lia].
  eexists _, _. split; [reflexivity|]. lia.
Qed.

(** What holds of every request that an iteration pushes holds of every
    request of the result. *)
Lemma loop_Forall fault (P : request -> Prop) :
  (forall line rest idx reqs st',
     body fault line rest idx reqs = Some st' ->
     exists new, requests st' = reqs ++ new /\ Forall P new) ->
  forall fuel st st',
    loop fault fuel st = Some st' ->
    Forall P (requests st) -> Forall P (requests st').
Proof.
  intros Hbody. induction fuel as [|fuel IH]; intros st st'; simpl;
    destruct (lines st) as [|line rest]; try discriminate;
    try (intros [= <-]; auto).
  destruct (body fault line rest (index st) (requests st)) as [st1|] eqn:Hb;
    [|discriminate].
  intros Hl Hall. apply (IH _ _ Hl).
  destruct (Hbody _ _ _ _ _ Hb) as (new & -> & Hnew).
  apply Forall_app. split; assumption.
Qed.

Lemma convert_Forall (P : request -> Prop) :
  (forall line rest idx reqs st',
     body noFault line rest idx reqs = Some st' ->
     exists new, requests st' = reqs ++ new /\ Forall P new) ->
  forall markdown,
    exists rs, convertMarkdownToRequests markdown = Some rs /\ Forall P rs.
Proof.
  intros Hbody markdown.
  destruct (convert_total noFault markdown) as (st & E & _).
  exists (requests st). unfold convertMarkdownToRequests. rewrite E.
  split; [reflexivity|].
  unfold convert in E. apply (loop_Forall noFault P Hbody _ _ _ E).
  constructor.
Qed.

(** The requests that [processInlineFormatting] pushes, by kind. *)
Lemma processInlineFormatting_kinds fault requests text startIndex :
  exists bs its ls,
    processInlineFormatting fault requests text startIndex
      = Some (requests ++ bs ++ its ++ ls) /\
    Forall (fun r => exists mt i, exec text boldRegex i = Some mt /\
                                  r = boldRequest text startIndex mt) bs /\
    Forall (fun r => exists mt i, exec text italicRegex i = Some mt /\
                                  r = italicRequest text startIndex mt) its /\
    Forall (fun r => exists mt i, exec text linkRegex i = Some mt /\
                                  r = linkRequest text startIndex mt) ls.
Proof.
  destruct (processInlineFormatting_total fault requests text startIndex)
    as (bs & its & ls & Eb & Ei & El & -> & _).
  exists bs, its, ls. split; [reflexivity|].
  unfold boldRequests in Eb. unfold italicRequests in Ei.
  unfold linkRequests in El.
  destruct (execLoop _ text boldRegex 0) as [lb|] eqn:Hb; [|discriminate].
  destruct (italicLoop fault _ text 0) as [li|] eqn:Hi; [|discriminate].
  destruct (execLoop _ text linkRegex 0) as [ll|] eqn:Hl; [|discriminate].
  injection Eb as <-. injection Ei as <-. injection El as <-.
  apply execLoop_matches in Hb, Hl. apply italicLoop_matches in Hi.
  repeat split; apply Forall_map;
    (eapply Forall_impl; [|eassumption]); intros mt [i Hmt]; eauto.
Qed.

(** X9. An italic request never has an empty range: for every input,
    every italic [updateTextStyle] of the result starts before it ends
    (a bold one can be empty, an italic one cannot, since the character
    after the opening delimiter must differ from it). *)
Theorem italic_ranges_are_not_empty (markdown : jsstring) :
  exists rs,
    convertMarkdownToRequests markdown = Some rs /\
    Forall (fun r => forall a b fields,
              r = updateTextStyle italic a b fields -> a < b) rs.
Proof.
  apply convert_Forall. intros line rest idx reqs st'. unfold body.
  destruct (classify line); unfold listItem;
    try destruct (scanCode rest []) as [codeContent fromJ];
    try (intros [= <-]; simpl; eexists; split; [reflexivity|];
         try destruct (0 <? _); repeat constructor; discriminate).
  destruct (processInlineFormatting_kinds noFault
              (reqs ++ [insertText (line ++ [LF]) idx]) line idx)
    as (bs & its & ls & -> & Hb & Hi & Hl).
  intros [= <-]. simpl. eexists. split; [symmetry; apply app_assoc|].
  constructor; [discriminate|].
  repeat (apply Forall_app; split);
    (eapply Forall_impl; [|eassumption]); intros r (mt & i & Hmt & ->).
  - discriminate.
  - destruct (italicRequest_not_empty line idx i mt Hmt) as (a & b & -> & Hab).
    intros a' b' f [= <- <- _]. assumption.
  - discriminate.
Qed.

Lemma inline_not_paragraphStyle fault requests text startIndex :
  exists new,
    processInlineFormatting fault requests text startIndex
      = Some (requests ++ new) /\
    Forall (fun r => isTextStyle r = true) new.
Proof.
  destruct (processInlineFormatting_kinds fault requests text startIndex)
    as (bs & its & ls & -> & Hb & Hi & Hl).
  eexists. split; [reflexivity|].
  repeat (apply Forall_app; split);
    (eapply Forall_impl; [|eassumption]); intros r (mt & i & _ & ->);
    reflexivity.
Qed.

(** X10. The paragraph styles of the result: for every input, every
    [updateParagraphStyle] is a heading of level 1 to 6 on the field
    namedStyleType, or an indent of a positive multiple of 18 points
    with a first-line indent of 0; the result has no other paragraph
    style, and no NORMAL_TEXT. *)
Theorem paragraph_styles_of_the_result (markdown : jsstring) :
  exists rs,
    convertMarkdownToRequests markdown = Some rs /\
    Forall headingOrIndent rs.
Proof.
  apply convert_Forall. intros line rest idx reqs st'. unfold body.
  destruct (classify line) eqn:Hc; unfold listItem.
  - intros [= <-]. eexists. split; [reflexivity|].
    apply Forall_cons; [discriminate|apply Forall_nil].
  - intros [= <-]. eexists. split; [reflexivity|].
    destruct (heading_parts _ _ (classify_Heading _ _ Hc))
      as (hashes & ws & text & _ & G1 & _ & Hh & _).
    apply Forall_cons; [discriminate|].
    apply Forall_cons; [|apply Forall_nil].
    intros style s e f [= <- _ _ <-]. left. rewrite G1. eauto.
  - intros [= <-]. eexists. split; [reflexivity|]. simpl.
    apply Forall_cons; [discriminate|].
    apply Forall_cons; [discriminate|].
    destruct (0 <? _) eqn:E; [|apply Forall_nil].
    apply Nat.ltb_lt in E. apply Forall_cons; [|apply Forall_nil].
    intros style s e f [= <- _ _ <-]. right. eauto.
  - intros [= <-]. eexists. split; [reflexivity|]. simpl.
    apply Forall_cons; [discriminate|].
    apply Forall_cons; [discriminate|].
    destruct (0 <? _) eqn:E; [|apply Forall_nil].
    apply Nat.ltb_lt in E. apply Forall_cons; [|apply Forall_nil].
    intros style s e f [= <- _ _ <-]. right. eauto.
  - destruct (scanCode rest []) as [codeContent fromJ].
    intros [= <-]. eexists. split; [reflexivity|].
    apply Forall_cons; [discriminate|].
    apply Forall_cons; [discriminate|apply Forall_nil].
  - destruct (inline_not_paragraphStyle noFault
                (reqs ++ [insertText (line ++ [LF]) idx]) line idx)
      as (new & -> & Hnew).
    intros [= <-]. simpl. eexists. split; [symmetry; apply app_assoc|].
    apply Forall_cons; [discriminate|].
    eapply Forall_impl; [|exact Hnew].
    intros r Hr style s e f ->. discriminate.
Qed.

Lemma scanCode_endsWithNewline : forall ls codeContent,
  codeContent = [] \/ (exists t, codeContent = t ++ [LF]) ->
  fst (scanCode ls codeContent) = [] \/
  exists t, fst (scanCode ls codeContent) = t ++ [LF].
Proof.
  induction ls as [|l ls IH]; intros codeContent H; simpl; [assumption|].
  destruct (startsWith (trim l) (lit "```")); simpl; [assumption|].
  apply IH. right. exists (codeContent ++ l). rewrite <- app_assoc.
  reflexivity.
Qed.

(** X11. Every inserted text ends with a newline, but for the empty text
    that a code block without lines inserts: for every input, the text
    of every [insertText] of the result is empty or ends with a
    newline. *)
Theorem inserted_texts_end_with_newline (markdown : jsstring) :
  exists rs,
    convertMarkdownToRequests markdown = Some rs /\
    Forall endsWithNewline rs.
Proof.
  assert (forall t loc, endsWithNewline (insertText (t ++ [LF]) loc)) as Hins
    by (intros t loc t' l [= <- _]; right; eauto).
  apply convert_Forall. intros line rest idx reqs st'. unfold body.
  destruct (classify line); unfold listItem.
  - intros [= <-]. eexists. split; [reflexivity|].
    apply Forall_cons; [apply (Hins [])|apply Forall_nil].
  - intros [= <-]. eexists. split; [reflexivity|].
    apply Forall_cons; [apply Hins|].
    apply Forall_cons; [discriminate|apply Forall_nil].
  - intros [= <-]. eexists. split; [reflexivity|]. simpl.
    apply Forall_cons; [apply Hins|].
    apply Forall_cons; [discriminate|].
    destruct (0 <? _); [|apply Forall_nil].
    apply Forall_cons; [discriminate|apply Forall_nil].
  - intros [= <-]. eexists. split; [reflexivity|]. simpl.
    apply Forall_cons; [apply Hins|].
    apply Forall_cons; [discriminate|].
    destruct (0 <? _); [|apply Forall_nil].
    apply Forall_cons; [discriminate|apply Forall_nil].
  - pose proof (scanCode_endsWithNewline rest [] (or_introl eq_refl)) as H.
    destruct (scanCode rest []) as [codeContent fromJ]. simpl in H.
    intros [= <-]. eexists. split; [reflexivity|].
    apply Forall_cons; [intros t l [= <- _]; assumption|].
    apply Forall_cons; [discriminate|apply Forall_nil].
  - destruct (inline_not_paragraphStyle noFault
                (reqs ++ [insertText (line ++ [LF]) idx]) line idx)
      as (new & -> & Hnew).
    intros [= <-]. simpl. eexists. split; [symmetry; apply app_assoc|].
    apply Forall_cons; [apply Hins|].
    eapply Forall_impl; [|exact Hnew].
    intros r Hr t l ->. discriminate.
Qed.

(** Every match of a loop starts at the end of the match before it, or
    after. *)
Lemma execLoop_sorted text re : forall fuel lastIndex l,
  execLoop fuel text re lastIndex = Some l ->
  Forall (fun mt => lastIndex <= Regex.index mt) l /\
  StronglySorted matchBefore l.
Proof.
  induction fuel as [|fuel IH]; intros lastIndex l; simpl;
    destruct (exec text re lastIndex) as [res|] eqn:E;
    try discriminate; try (intros [= <-]; split; constructor).
  destruct (execLoop fuel text re (endIndex res)) as [l'|] eqn:E';
    [|discriminate].
  simpl. intros [= <-]. destruct (IH _ _ E') as [Hall Hs].
  pose proof (exec_bounds _ _ _ _ E) as [Hlo _].
  destruct (exec_Some _ _ _ _ E) as (_ & _ & _ & _ & Hi).
  split.
  - constructor; [lia|]. eapply Forall_impl; [|exact Hall].
    intros mt Hmt. simpl in Hmt. lia.
  - constructor; assumption.
Qed.

Lemma italicLoop_sorted fault text : forall fuel lastIndex l,
  italicLoop fault fuel text lastIndex = Some l ->
  Forall (fun mt => lastIndex <= Regex.index mt) l /\
  StronglySorted matchBefore l.
Proof.
  induction fuel as [|fuel IH]; intros lastIndex l; simpl;
    destruct (fault text lastIndex);
    try (intros [= <-]; split; constructor);
    destruct (exec text italicRegex lastIndex) as [res|] eqn:E;
    try discriminate; try (intros [= <-]; split; constructor).
  destruct (italicLoop fault fuel text (endIndex res)) as [l'|] eqn:E';
    [|discriminate].
  simpl. intros [= <-]. destruct (IH _ _ E') as [Hall Hs].
  pose proof (exec_bounds _ _ _ _ E) as [Hlo _].
  destruct (exec_Some _ _ _ _ E) as (_ & _ & _ & _ & Hi).
  split.
  - constructor; [lia|]. eapply Forall_impl; [|exact Hall].
    intros mt Hmt. simpl in Hmt. lia.
  - constructor; assumption.
Qed.

(** Requests that range inside matches that come one after the other
    range one after the other. *)
Lemma sorted_spans (f : result -> request) idx l :
  Forall (fun mt => spanWithin (idx + Regex.index mt) (idx + endIndex mt)
                               (f mt)) l ->
  StronglySorted matchBefore l ->
  StronglySorted before (map f l).
Proof.
  intros Hall Hs. induction Hs as [|mt l Hs IH Hmt]; simpl; [constructor|].
  inversion Hall as [|? ? Hspan Hrest]; subst.
  constructor; [apply IH; assumption|].
  apply Forall_map. rewrite Forall_forall in *.
  intros mt' Hin. specialize (Hmt mt' Hin). specialize (Hrest mt' Hin).
  destruct Hspan as (s & e & _ & He & _ & _ & Hle).
  destruct Hrest as (s' & e' & Hs' & _ & Hlo & _).
  exists e, s'. unfold matchBefore in Hmt. repeat split; try assumption. lia.
Qed.

(** X12. The ranges of one kind do not overlap: what
    [processInlineFormatting] pushes for a text is its bold requests,
    then its italic requests, then its link requests, and within each
    kind every request ends where the next ones start, or before. *)
Theorem inline_ranges_of_a_kind_do_not_overlap
    (reqs : list request) (text : jsstring) (startIndex : nat) :
  exists bs its ls,
    processInlineFormatting noFault reqs text startIndex
      = Some (reqs ++ bs ++ its ++ ls) /\
    Forall (fun r => exists a b, r = updateTextStyle bold a b "bold") bs /\
    Forall (fun r => exists a b, r = updateTextStyle italic a b "italic") its /\
    Forall (fun r => exists url a b,
              r = updateTextStyle (link url) a b "link") ls /\
    StronglySorted before bs /\ StronglySorted before its /\
    StronglySorted before ls.
Proof.
  destruct (processInlineFormatting_total noFault reqs text startIndex)
    as (bs & its & ls & Eb & Ei & El & -> & _).
  exists bs, its, ls. split; [reflexivity|].
  unfold boldRequests in Eb. unfold italicRequests in Ei.
  unfold linkRequests in El.
  destruct (execLoop _ text boldRegex 0) as [lb|] eqn:Hb; [|discriminate].
  destruct (italicLoop noFault _ text 0) as [li|] eqn:Hi; [|discriminate].
  destruct (execLoop _ text linkRegex 0) as [ll|] eqn:Hl; [|discriminate].
  injection Eb as <-. injection Ei as <-. injection El as <-.
  pose proof (execLoop_sorted _ _ _ _ _ Hb) as [_ Sb].
  pose proof (italicLoop_sorted _ _ _ _ _ Hi) as [_ Si].
  pose proof (execLoop_sorted _ _ _ _ _ Hl) as [_ Sl].
  apply execLoop_matches in Hb, Hl. apply italicLoop_matches in Hi.
  repeat split.
  - apply Forall_map. eapply Forall_impl; [|exact Hb]. intros mt _.
    eexists _, _. reflexivity.
  - apply Forall_map. eapply Forall_impl; [|exact Hi]. intros mt _.
    eexists _, _. reflexivity.
  - apply Forall_map. eapply Forall_impl; [|exact Hl]. intros mt _.
    eexists _, _, _. reflexivity.
  - apply (sorted_spans _ startIndex); [|assumption].
    eapply Forall_impl; [|exact Hb]. intros mt [i Hmt].
    apply (boldRequest_span _ _ _ _ Hmt).
  - apply (sorted_spans _ startIndex); [|assumption].
    eapply Forall_impl; [|exact Hi]. intros mt [i Hmt].
    apply (italicRequest_span _ _ _ _ Hmt).
  - apply (sorted_spans _ startIndex); [|assumption].
    eapply Forall_impl; [|exact Hl]. intros mt [i Hmt].
    apply (linkRequest_span _ _ _ _ Hmt).
Qed.

(* ================================================================== *)
(** ** Further properties of the element loop of processMarkdown *)
(* ================================================================== *)

(** One element pushes one [insertText] of a text that ends with a
    newline, at [index], then at most one request, with a range that
    ends inside the inserted text, and adds the length of the inserted
    text to [index]. *)
Lemma emit_shape e idx reqs :
  exists t styles,
    Marked.emit e (idx, reqs)
    = (idx + length (t ++ [LF]),
       reqs ++ insertText (t ++ [LF]) idx :: styles) /\
    Forall (styleWithin (idx + length (t ++ [LF]))) styles.
Proof.
  destruct e as [text level|text|text ordered n|text|href text]; simpl.
  - exists text. eexists. rewrite length_app. split; [reflexivity|].
    repeat constructor. style_within.
  - exists text, []. rewrite length_app. split; [reflexivity|constructor].
  - exists (Marked.prefix ordered n ++ text). eexists.
    rewrite <- app_assoc, !length_app. simpl.
    split; [f_equal; lia|].
    repeat constructor. style_within.
  - exists text. eexists. rewrite length_app. split; [reflexivity|].
    repeat constructor. style_within.
  - exists (lit "[Image: " ++ Marked.orElse text href ++ lit "]"), [].
    rewrite <- !app_assoc. split; [reflexivity|constructor].
Qed.

Lemma fold_emit_cursor : forall elements idx reqs,
  idx = 1 + insertedLength reqs ->
  Forall withinCursor (emissions 1 reqs) ->
  let st := fold_left (fun st e => Marked.emit e st) elements (idx, reqs) in
  fst st = 1 + insertedLength (snd st) /\
  Forall withinCursor (emissions 1 (snd st)) /\
  idx + length elements <= fst st.
Proof.
  induction elements as [|e elements IH]; intros idx reqs Hidx Hall;
    cbn [fold_left length].
  - repeat split; simpl; [assumption|assumption|lia].
  - destruct (emit_shape e idx reqs) as (t & styles & -> & Hst).
    destruct (IH (idx + length (t ++ [LF]))
                 (reqs ++ insertText (t ++ [LF]) idx :: styles))
      as (H1 & H2 & H3).
    + rewrite insertedLength_app. simpl.
      rewrite (styles_insertedLength _ _ Hst). lia.
    + rewrite emissions_app. apply Forall_app. split; [assumption|].
      rewrite <- Hidx. simpl. constructor.
      * split; simpl; [discriminate|]. intros ? ? [= _ <-]. reflexivity.
      * apply styles_withinCursor. assumption.
    + repeat split; try assumption.
      pose proof (length_app t [LF]) as Hlen. simpl in Hlen. lia.
Qed.

(** X13. The element loop keeps the cursor: for every list of elements,
    every [insertText] is at the cursor, which starts at 1 and advances
    by the length of every inserted text; every range ends at the cursor
    of its emission or before; the final [index] is 1 plus the total
    length of the inserted texts; and, every element inserting at least
    a newline, it is at least 1 plus the number of elements. *)
Theorem element_loop_keeps_the_cursor (elements : list Marked.element) :
  let st := fold_left (fun st e => Marked.emit e st) elements (1, []) in
  snd st = Marked.requestsOf elements /\
  fst st = 1 + insertedLength (Marked.requestsOf elements) /\
  Forall withinCursor (emissions 1 (Marked.requestsOf elements)) /\
  1 + length elements <= fst st.
Proof.
  unfold Marked.requestsOf.
  destruct (fold_emit_cursor elements 1 [] eq_refl (Forall_nil _))
    as (H1 & H2 & H3).
  repeat split; assumption.
Qed.

(* ================================================================== *)
(** ** How conversions compose *)
(* ================================================================== *)

Lemma split_app a b : split (a ++ LF :: b) = split a ++ split b.
Proof.
  induction a as [|c r IH]; simpl; [reflexivity|].
  destruct (c =? LF)%N.
  - rewrite IH. reflexivity.
  - rewrite IH. pose proof (split_not_nil r).
    destruct (split r); [contradiction|reflexivity].
Qed.

Lemma classify_CodeStart_opens line mt :
  classify line = CodeStart mt -> opensFence line = true.
Proof.
  unfold classify, opensFence.
  destruct (JS.eqb (trim line) []); [discriminate|].
  destruct (matches line headingRegex); [discriminate|].
  destruct (matches line bulletedListRegex); [discriminate|].
  destruct (matches line numberedListRegex); [discriminate|].
  destruct (startsWith _ _); [reflexivity|discriminate].
Qed.

(** But for the start of a code block, an iteration takes its line alone
    and does not look at the lines after it. *)
Lemma body_noFence fault line rest idx reqs st' :
  opensFence line = false ->
  body fault line rest idx reqs = Some st' ->
  lines st' = rest /\
  forall rest',
    body fault line rest' idx reqs
    = Some (State rest' (index st') (requests st')).
Proof.
  intros Hno. unfold body.
  destruct (classify line) eqn:Hc; unfold listItem;
    try (intros [= <-]; split; reflexivity).
  - apply classify_CodeStart_opens in Hc. congruence.
  - destruct (processInlineFormatting _ _ _ _); [|discriminate].
    intros [= <-]. split; reflexivity.
Qed.

Lemma loop_app fault : forall ls1 ls2 idx reqs,
  Forall (fun l => opensFence l = false) ls1 ->
  exists idx' reqs',
    loop fault (length ls1) (State ls1 idx reqs) = Some (State [] idx' reqs') /\
    loop fault (length (ls1 ++ ls2)) (State (ls1 ++ ls2) idx reqs)
    = loop fault (length ls2) (State ls2 idx' reqs').
Proof.
  induction ls1 as [|l ls1 IH]; intros ls2 idx reqs Hall.
  - exists idx, reqs. split; reflexivity.
  - inversion Hall as [|? ? Hl Hrest]; subst.
    destruct (body_shape fault l ls1 idx reqs)
      as (st1 & text & styles & Hb & _).
    destruct (body_noFence _ _ _ _ _ _ Hl Hb) as [Hlines Hany].
    destruct (IH ls2 (index st1) (requests st1) Hrest)
      as (idx' & reqs' & H1 & H2).
    exists idx', reqs'. simpl. rewrite (Hany ls1), (Hany (ls1 ++ ls2)).
    split; assumption.
Qed.

Lemma boldRequest_shift text idx d mt :
  boldRequest text (idx + d) mt = shift d (boldRequest text idx mt).
Proof. unfold boldRequest. simpl. f_equal; lia. Qed.

Lemma italicRequest_shift text idx d mt :
  italicRequest text (idx + d) mt = shift d (italicRequest text idx mt).
Proof. unfold italicRequest. simpl. f_equal; lia. Qed.

Lemma linkRequest_shift text idx d mt :
  linkRequest text (idx + d) mt = shift d (linkRequest text idx mt).
Proof. unfold linkRequest. simpl. f_equal; lia. Qed.

Lemma processInlineFormatting_shift fault reqs text idx d pre new :
  processInlineFormatting fault reqs text idx = Some (reqs ++ new) ->
  processInlineFormatting fault pre text (idx + d)
  = Some (pre ++ map (shift d) new).
Proof.
  unfold processInlineFormatting, boldRequests, italicRequests, linkRequests.
  destruct (execLoop _ text boldRegex 0) as [lb|]; [|discriminate].
  destruct (italicLoop fault _ text 0) as [li|]; [|discriminate].
  destruct (execLoop _ text linkRegex 0) as [ll|]; [|discriminate].
  simpl. intros [= H]. apply app_inv_head in H. subst new.
  rewrite !map_app, !map_map. do 2 f_equal. f_equal; [|f_equal].
  - apply map_ext. intros. apply boldRequest_shift.
  - apply map_ext. intros. apply italicRequest_shift.
  - apply map_ext. intros. apply linkRequest_shift.
Qed.

Lemma State_eq ls i i' rs rs' :
  i = i' -> rs = rs' -> Some (State ls i rs) = Some (State ls i' rs').
Proof. intros -> ->. reflexivity. Qed.

Ltac same_requests :=
  rewrite ?map_app; simpl; rewrite <- ?app_assoc; simpl;
  repeat (f_equal; try lia).

(** An iteration that starts [d] characters further pushes the same
    requests, [d] characters further. *)
Lemma body_shift fault line rest idx reqs d pre st' :
  body fault line rest idx reqs = Some st' ->
  body fault line rest (idx + d) (pre ++ map (shift d) reqs)
  = Some (State (lines st') (index st' + d)
            (pre ++ map (shift d) (requests st'))).
Proof.
  unfold body. destruct (classify line); unfold listItem.
  - intros [= <-]. simpl. apply State_eq; [lia|same_requests].
  - intros [= <-]. simpl. apply State_eq; [lia|same_requests].
  - intros [= <-]. simpl.
    apply State_eq; [lia|destruct (0 <? _); same_requests].
  - intros [= <-]. simpl.
    apply State_eq; [lia|destruct (0 <? _); same_requests].
  - destruct (scanCode rest []) as [codeContent fromJ].
    intros [= <-]. simpl. apply State_eq; [lia|same_requests].
  - destruct (processInlineFormatting_total fault
                (reqs ++ [insertText (line ++ [LF]) idx]) line idx)
      as (bs & its & ls & _ & _ & _ & Hp & _).
    rewrite Hp.
    rewrite (processInlineFormatting_shift fault _ line idx d
               ((pre ++ map (shift d) reqs)
                ++ [insertText (line ++ [LF]) (idx + d)])
               _ Hp).
    intros [= <-]. simpl. apply State_eq; [lia|].
    rewrite !map_app. simpl. rewrite <- !app_assoc. reflexivity.
Qed.

Lemma loop_shift fault d pre : forall fuel st st',
  loop fault fuel st = Some st' ->
  loop fault fuel
       (State (lines st) (index st + d) (pre ++ map (shift d) (requests st)))
  = Some (State (lines st') (index st' + d)
            (pre ++ map (shift d) (requests st'))).
Proof.
  induction fuel as [|fuel IH]; intros st st'; simpl;
    destruct (lines st) as [|line rest] eqn:E; try discriminate;
    try (intros [= <-]; rewrite E; reflexivity).
  destruct (body fault line rest (index st) (requests st)) as [st1|] eqn:Hb;
    [|discriminate].
  rewrite (body_shift _ _ _ _ _ d pre _ Hb). intros Hl.
  apply (IH _ _ Hl).
Qed.

(** X14. Conversions compose: when no line of [a] starts, once trimmed,
    with three backticks, the conversion of [a], a newline and [b] is
    the requests for [a] followed by the requests for [b], each moved
    further by the length of what [a] inserts, and its final [index] is
    the sum of the two final indices minus 1. *)
Theorem conversion_of_a_concatenation (a b : jsstring) :
  Forall (fun l => opensFence l = false) (split a) ->
  exists sa sb,
    convert noFault a = Some sa /\ convert noFault b = Some sb /\
    convert noFault (a ++ LF :: b)
    = Some (State [] (index sa + index sb - 1)
              (requests sa
               ++ map (shift (insertedLength (requests sa))) (requests sb))).
Proof.
  intros Hall.
  destruct (convert_total noFault a) as (sa & Ea & La & Ha & _).
  destruct (convert_total noFault b) as (sb & Eb & Lb & Hb & _).
  exists sa, sb. repeat split; try assumption.
  unfold convert in *. rewrite split_app.
  destruct (loop_app noFault (split a) (split b) 1 [] Hall)
    as (idx' & reqs' & H1 & ->).
  rewrite Ea in H1. injection H1 as ->. simpl in Ha. subst idx'.
  pose proof (loop_shift noFault (insertedLength reqs') reqs' _ _ _ Eb) as Hs.
  simpl in Hs. rewrite app_nil_r in Hs.
  simpl. rewrite Hs, Lb. apply State_eq; [lia|reflexivity].
Qed.

(** X14 on a heading and a list item followed by a paragraph. *)
Lemma conversion_of_a_concatenation_witness :
  Forall (fun l => opensFence l = false) (split (lit "# T" ++ LF :: lit "- x"))
  /\ convert noFault ((lit "# T" ++ LF :: lit "- x") ++ LF :: lit "p **q**")
     = Some (State [] 13
               ([insertText (lit "T" ++ [LF]) 1;
                 updateParagraphStyle (HEADING 1) 1 2 "namedStyleType";
                 insertText (lit "x" ++ [LF]) 3;
                 createParagraphBullets 3 4 BULLET_DISC_CIRCLE_SQUARE]
                ++ map (shift 4)
                     [insertText (lit "p **q**" ++ [LF]) 1;
                      updateTextStyle bold 5 6 "bold"])).
Proof.
  assert (Forall (fun l => opensFence l = false)
                 (split (lit "# T" ++ LF :: lit "- x"))) as Hall
    by (repeat constructor).
  split; [exact Hall|].
  destruct (conversion_of_a_concatenation _ (lit "p **q**") Hall)
    as (sa & sb & Ea & Eb & ->).
  vm_compute in Ea. injection Ea as <-.
  vm_compute in Eb. injection Eb as <-.
  reflexivity.
Defined.

(* ================================================================== *)
(** ** Blank lines, engines with errors, heading lines *)
(* ================================================================== *)

Lemma dropWhile_nil p l : dropWhile p l = [] <-> forallb p l = true.
Proof.
  induction l as [|x l IH]; simpl; [tauto|].
  destruct (p x); simpl; [assumption|]. split; discriminate.
Qed.

Lemma forallb_rev {A} (p : A -> bool) l :
  forallb p (rev l) = forallb p l.
Proof.
  induction l as [|x l IH]; simpl; [reflexivity|].
  rewrite forallb_app, IH. simpl. rewrite andb_true_r. apply andb_comm.
Qed.

Lemma trim_nil l : trim l = [] <-> forallb isSpace l = true.
Proof.
  unfold trim, trimEnd, trimStart. split.
  - intros H. apply (f_equal (@rev _)) in H. rewrite rev_involutive in H.
    simpl in H. apply dropWhile_nil in H. rewrite forallb_rev in H.
    destruct (dropWhile isSpace l) as [|x d] eqn:E.
    + apply dropWhile_nil. assumption.
    + apply dropWhile_head in E. simpl in H. rewrite E in H. discriminate.
  - intros H. apply dropWhile_nil in H. rewrite H. reflexivity.
Qed.

Lemma eqb_nil l : JS.eqb l [] = true <-> l = [].
Proof. destruct l; simpl; split; try reflexivity; discriminate. Qed.

(** X15. The blank lines are the lines of white space alone, the empty
    line among them; an iteration on one inserts a newline and nothing
    of the line, whatever white space the line has, and pushes no other
    request. *)
Theorem blank_lines_are_the_lines_of_white_space
    (line : jsstring) (rest : list jsstring) (idx : nat)
    (reqs : list request) :
  (classify line = BlankLine <-> forallb isSpace line = true) /\
  (forallb isSpace line = true ->
   body noFault line rest idx reqs
   = Some (State rest (idx + 1) (reqs ++ [insertText [LF] idx]))).
Proof.
  assert (classify line = BlankLine <-> forallb isSpace line = true) as Hiff.
  { rewrite <- trim_nil, <- eqb_nil. unfold classify.
    destruct (JS.eqb (trim line) []); [tauto|].
    split; [|discriminate].
    destruct (matches line headingRegex); [discriminate|].
    destruct (matches line bulletedListRegex); [discriminate|].
    destruct (matches line numberedListRegex); [discriminate|].
    destruct (startsWith _ _); [|discriminate].
    destruct (matches (trim line) codeStartRegex); discriminate. }
  split; [exact Hiff|].
  intros H. apply Hiff in H. unfold body. rewrite H. reflexivity.
Qed.

(** X15 on a line of a space, a tab and a no-break space. *)
Lemma blank_lines_witness :
  forallb isSpace [32; 9; 160]%N = true /\
  body noFault [32; 9; 160]%N [] 5 []
  = Some (State [] 6 [insertText [LF] 5]).
Proof.
  split; [reflexivity|].
  exact (proj2 (blank_lines_are_the_lines_of_white_space
                  [32; 9; 160]%N [] 5 []) eq_refl).
Defined.

Lemma pair_eq {A B} (a a' : A) (b b' : B) :
  a = a' -> b = b' -> (a, b) = (a', b').
Proof. intros -> ->. reflexivity. Qed.

Lemma emit_shift e idx reqs d pre :
  Marked.emit e (idx + d, pre ++ map (shift d) reqs)
  = (fst (Marked.emit e (idx, reqs)) + d,
     pre ++ map (shift d) (snd (Marked.emit e (idx, reqs)))).
Proof.
  destruct e as [text level|text|text ordered n|text|href text]; simpl;
    (apply pair_eq; [lia|same_requests]).
Qed.

Lemma fold_emit_shift d pre : forall elements idx reqs,
  fold_left (fun st e => Marked.emit e st) elements
            (idx + d, pre ++ map (shift d) reqs)
  = (fst (fold_left (fun st e => Marked.emit e st) elements (idx, reqs)) + d,
     pre ++ map (shift d)
       (snd (fold_left (fun st e => Marked.emit e st) elements (idx, reqs)))).
Proof.
  induction elements as [|e elements IH]; intros idx reqs; cbn [fold_left].
  - reflexivity.
  - rewrite emit_shift.
    destruct (Marked.emit e (idx, reqs)) as [i r]. apply IH.
Qed.

(** X16. The element loop composes: the requests for the elements of two
    lists, one after the other, are the requests for the first list
    followed by the requests for the second, each moved further by the
    length of what the first list inserts. *)
Theorem element_loop_of_a_concatenation (a b : list Marked.element) :
  Marked.requestsOf (a ++ b)
  = Marked.requestsOf a
    ++ map (shift (insertedLength (Marked.requestsOf a))) (Marked.requestsOf b).
Proof.
  unfold Marked.requestsOf. rewrite fold_left_app.
  destruct (fold_emit_cursor a 1 [] eq_refl (Forall_nil _)) as (Hidx & _ & _).
  destruct (fold_left (fun st e => Marked.emit e st) a (1, [])) as [i r].
  simpl in Hidx. subst i. simpl.
  pose proof (fold_emit_shift (insertedLength r) r b 1 []) as H.
  simpl in H. rewrite app_nil_r in H. rewrite H. reflexivity.
Qed.

Lemma prefixLen_app c a b :
  forallb c a = true -> prefixLen c (a ++ b) = length a + prefixLen c b.
Proof.
  induction a as [|x a IH]; simpl; [reflexivity|].
  intros H. apply andb_true_iff in H as [-> H]. rewrite IH; auto.
Qed.

Lemma skipn_app_exact {A} (a b : list A) : skipn (length a) (a ++ b) = b.
Proof. induction a; simpl; auto. Qed.

(** The hashes of a line that goes on with white space are its leading
    run of hashes. *)
Lemma hashes_run hashes ws rest :
  forallb (char "#") hashes = true ->
  1 <= length ws -> forallb space ws = true ->
  prefixLen (char "#") (hashes ++ ws ++ rest) = length hashes.
Proof.
  intros Hh Hw Fw. rewrite prefixLen_app by assumption.
  destruct ws as [|w ws]; simpl in *; [lia|].
  apply andb_true_iff in Fw as [Fw _].
  apply space_not_marker in Fw as (-> & _). lia.
Qed.

(** X17. Every line of one to six hashes, white space and a text without
    line terminators, none of them empty, is taken as a heading, of the
    level that is the number of its hashes: with X4, the headings are
    exactly these lines. *)
Theorem lines_of_hashes_are_headings (hashes ws text : jsstring) :
  1 <= length hashes <= 6 -> forallb (char "#") hashes = true ->
  1 <= length ws -> forallb space ws = true ->
  1 <= length text -> forallb dot text = true ->
  exists headingMatch,
    classify (hashes ++ ws ++ text) = Heading headingMatch /\
    length (group (hashes ++ ws ++ text) 1 headingMatch) = length hashes.
Proof.
  intros Hh Fh Hw Fw Ht Ft. set (line := hashes ++ ws ++ text).
  assert (exists res, matches line headingRegex = Some res) as [res Hres].
  { eapply exec_at_start. unfold headingRegex.
    eapply Seq_in; [apply Bol_in; reflexivity|].
    eapply Seq_in.
    { apply Group_in. apply (Greedy_in _ _ _ _ _ (length hashes)).
      unfold maxReps. cbn [pos skipn]. unfold line.
      rewrite prefixLen_app by assumption. lia. }
    eapply Seq_in.
    { apply (Greedy_in _ _ _ _ _ (length ws)).
      unfold maxReps. cbn [pos advance Nat.add]. unfold line.
      rewrite skipn_app_exact, prefixLen_app by assumption. lia. }
    eapply Seq_in.
    { apply Group_in. apply (Greedy_in _ _ _ _ _ (length text)).
      unfold maxReps. cbn [pos advance Nat.add]. unfold line.
      rewrite app_assoc, <- length_app, skipn_app_exact.
      rewrite (prefixLen_all _ _ Ft). lia. }
    apply Eol_in. cbn [pos advance Nat.add]. unfold line.
    rewrite !length_app. lia. }
  exists res. split.
  - unfold classify.
    destruct (JS.eqb (trim line) []) eqn:E; [|rewrite Hres; reflexivity].
    apply eqb_nil, trim_nil in E. unfold line in E.
    destruct hashes as [|h hs]; simpl in *; [lia|].
    apply andb_true_iff in Fh as [Fh _]. apply char_eq in Fh. subst h.
    discriminate.
  - destruct (heading_parts _ _ Hres)
      as (hashes' & ws' & text' & Hl & -> & _ & _ & Fh' & Hw' & Fw' & _).
    rewrite <- (hashes_run hashes' ws' text' Fh' Hw' Fw'), <- Hl.
    apply (hashes_run hashes ws text Fh Hw Fw).
Qed.

(** X17 on a heading of level 3. *)
Lemma lines_of_hashes_witness :
  exists headingMatch,
    classify (lit "###" ++ lit " " ++ lit "x y") = Heading headingMatch /\
    length (group (lit "###" ++ lit " " ++ lit "x y") 1 headingMatch) = 3.
Proof.
  apply (lines_of_hashes_are_headings (lit "###") (lit " ") (lit "x y"));
    solve [simpl; lia | reflexivity].
Defined.

Lemma not_blank_with (pre : jsstring) c post :
  isSpace c = false -> JS.eqb (trim (pre ++ c :: post)) [] = false.
Proof.
  intros Hc. destruct (JS.eqb _ _) eqn:E; [|reflexivity].
  apply eqb_nil, trim_nil in E. rewrite forallb_app in E. simpl in E.
  rewrite Hc in E. rewrite andb_false_r in E. discriminate.
Qed.

(** The indent of a line that goes on with a character that is not white
    space is its leading run of white space. *)
Lemma indent_run ws c rest :
  forallb space ws = true -> isSpace c = false ->
  prefixLen space (ws ++ c :: rest) = length ws.
Proof.
  intros Fw Hc. rewrite prefixLen_app by assumption. simpl.
  unfold space. rewrite Hc. lia.
Qed.

Lemma app_eq_length {A} (a a' b b' : list A) :
  a ++ b = a' ++ b' -> length a = length a' -> a = a'.
Proof.
  revert a'. induction a as [|x a IH]; intros [|y a']; simpl;
    try discriminate; [reflexivity|].
  intros [= -> H] [= Hlen]. f_equal. apply IH; assumption.
Qed.

(** X18. Every line of white space (possibly none), a dash, white space
    and a text without line terminators, the last two not empty, is
    taken as a bulleted item with that white space as its indent: with
    X5, the bulleted items are exactly these lines. *)
Theorem lines_with_a_dash_are_bulleted_items (ws ws' text : jsstring) :
  forallb space ws = true ->
  1 <= length ws' -> forallb space ws' = true ->
  1 <= length text -> forallb dot text = true ->
  exists bulletedListMatch,
    classify (ws ++ lit "-" ++ ws' ++ text) = Bulleted bulletedListMatch /\
    group (ws ++ lit "-" ++ ws' ++ text) 1 bulletedListMatch = ws.
Proof.
  intros Fw Hw' Fw' Ht Ft. set (line := ws ++ lit "-" ++ ws' ++ text).
  assert (line = ws ++ 45%N :: ws' ++ text) as Hline by reflexivity.
  assert (exists res, matches line bulletedListRegex = Some res)
    as [res Hres].
  { eapply exec_at_start. unfold bulletedListRegex.
    eapply Seq_in; [apply Bol_in; reflexivity|].
    eapply Seq_in.
    { apply Group_in. apply (Greedy_in _ _ _ _ _ (length ws)).
      unfold maxReps. cbn [pos skipn]. rewrite Hline.
      rewrite prefixLen_app by assumption. lia. }
    eapply Seq_in.
    { eapply Chr_in;
        [cbn [pos advance Nat.add];
         rewrite Hline, nth_error_app2, Nat.sub_diag by lia; reflexivity
        |reflexivity]. }
    eapply Seq_in.
    { apply (Greedy_in _ _ _ _ _ (length ws')).
      unfold maxReps. cbn [pos advance Nat.add].
      replace (length ws + 1) with (length (ws ++ [45%N]))
        by (rewrite length_app; reflexivity).
      replace line with ((ws ++ [45%N]) ++ ws' ++ text)
        by (rewrite Hline, <- app_assoc; reflexivity).
      rewrite skipn_app_exact, prefixLen_app by assumption. lia. }
    eapply Seq_in.
    { apply Group_in. apply (Greedy_in _ _ _ _ _ (length text)).
      unfold maxReps. cbn [pos advance Nat.add].
      replace (length ws + 1 + length ws')
        with (length ((ws ++ [45%N]) ++ ws'))
        by (rewrite !length_app; reflexivity).
      replace line with (((ws ++ [45%N]) ++ ws') ++ text)
        by (rewrite Hline, <- !app_assoc; reflexivity).
      rewrite skipn_app_exact, (prefixLen_all _ _ Ft). lia. }
    apply Eol_in. cbn [pos advance Nat.add]. rewrite Hline.
    rewrite !length_app. simpl. rewrite length_app. lia. }
  exists res. split.
  - assert (JS.eqb (trim line) [] = false) as Hnb
      by (rewrite Hline; apply not_blank_with; reflexivity).
    unfold classify.
    rewrite Hnb, (heading_no_match _ _ _ _ Hline Fw eq_refl), Hres.
    reflexivity.
  - destruct (bulleted_parts _ _ Hres)
      as (v & v' & t & Hl & -> & _ & Fv & _).
    assert (length v = length ws) as Hlen.
    { rewrite <- (indent_run v 45%N (v' ++ t) Fv eq_refl).
      rewrite <- (indent_run ws 45%N (ws' ++ text) Fw eq_refl).
      f_equal. transitivity line; [symmetry; exact Hl|exact Hline]. }
    apply (app_eq_length _ _ (lit "-" ++ v' ++ t) (lit "-" ++ ws' ++ text));
      [|assumption].
    transitivity line; [symmetry; exact Hl|reflexivity].
Qed.

(** X18 on an item indented by two spaces. *)
Lemma lines_with_a_dash_witness :
  exists bulletedListMatch,
    classify (lit "  " ++ lit "-" ++ lit " " ++ lit "a b")
      = Bulleted bulletedListMatch /\
    group (lit "  " ++ lit "-" ++ lit " " ++ lit "a b") 1 bulletedListMatch
      = lit "  ".
Proof.
  apply (lines_with_a_dash_are_bulleted_items (lit "  ") (lit " ") (lit "a b"));
    solve [simpl; lia | reflexivity].
Defined.

Lemma skipn_at {A} (a b : list A) n : n = length a -> skipn n (a ++ b) = b.
Proof. intros ->. apply skipn_app_exact. Qed.

Lemma nth_at {A} (a b : list A) x n :
  n = length a -> nth_error (a ++ x :: b) n = Some x.
Proof.
  intros ->. rewrite nth_error_app2, Nat.sub_diag by lia. reflexivity.
Qed.

Lemma digit_not_space d : digit d = true -> isSpace d = false.
Proof.
  intros Hd. destruct (isSpace d) eqn:E; [|reflexivity].
  apply space_not_marker in E as (_ & _ & E). congruence.
Qed.

Lemma digit_not_dash d : digit d = true -> char "-" d = false.
Proof.
  intros Hd. destruct (char "-" d) eqn:E; [|reflexivity].
  apply char_eq in E. subst d. discriminate.
Qed.

(** X19. Every line of white space (possibly none), digits, a dot, white
    space and a text without line terminators, the last four not empty,
    is taken as a numbered item with that white space as its indent:
    with X6, the numbered items are exactly these lines. *)
Theorem lines_with_a_number_are_numbered_items
    (ws digits ws' text : jsstring) :
  forallb space ws = true ->
  1 <= length digits -> forallb digit digits = true ->
  1 <= length ws' -> forallb space ws' = true ->
  1 <= length text -> forallb dot text = true ->
  exists numberedListMatch,
    classify (ws ++ digits ++ lit "." ++ ws' ++ text)
      = Numbered numberedListMatch /\
    group (ws ++ digits ++ lit "." ++ ws' ++ text) 1 numberedListMatch = ws.
Proof.
  intros Fw Hd Fd Hw' Fw' Ht Ft.
  set (line := ws ++ digits ++ lit "." ++ ws' ++ text).
  assert (exists d ds, digits = d :: ds /\ digit d = true)
    as (d & ds & Ed & Hdig).
  { destruct digits as [|d ds]; simpl in *; [lia|].
    apply andb_true_iff in Fd as [Fd _]. eauto. }
  assert (line = ws ++ d :: ds ++ lit "." ++ ws' ++ text) as Hline
    by (unfold line; rewrite Ed; reflexivity).
  assert (exists res, matches line numberedListRegex = Some res)
    as [res Hres].
  { eapply exec_at_start. unfold numberedListRegex.
    eapply Seq_in; [apply Bol_in; reflexivity|].
    eapply Seq_in.
    { apply Group_in. apply (Greedy_in _ _ _ _ _ (length ws)).
      unfold maxReps. cbn [pos skipn]. unfold line.
      rewrite prefixLen_app by assumption. lia. }
    eapply Seq_in.
    { apply (Greedy_in _ _ _ _ _ (length digits)).
      unfold maxReps. cbn [pos advance Nat.add]. unfold line.
      rewrite skipn_app_exact, prefixLen_app by assumption. lia. }
    eapply Seq_in.
    { eapply Chr_in;
        [cbn [pos advance Nat.add];
         replace line with ((ws ++ digits) ++ 46%N :: ws' ++ text)
           by (unfold line; rewrite <- app_assoc; reflexivity);
         apply nth_at; rewrite length_app; reflexivity
        |reflexivity]. }
    eapply Seq_in.
    { apply (Greedy_in _ _ _ _ _ (length ws')).
      unfold maxReps. cbn [pos advance Nat.add].
      replace line with (((ws ++ digits) ++ [46%N]) ++ ws' ++ text)
        by (unfold line; rewrite <- !app_assoc; reflexivity).
      rewrite skipn_at by (rewrite !length_app; reflexivity).
      rewrite prefixLen_app by assumption. lia. }
    eapply Seq_in.
    { apply Group_in. apply (Greedy_in _ _ _ _ _ (length text)).
      unfold maxReps. cbn [pos advance Nat.add].
      replace line with ((((ws ++ digits) ++ [46%N]) ++ ws') ++ text)
        by (unfold line; rewrite <- !app_assoc; reflexivity).
      rewrite skipn_at by (rewrite !length_app; reflexivity).
      rewrite (prefixLen_all _ _ Ft). lia. }
    apply Eol_in. cbn [pos advance Nat.add]. unfold line.
    rewrite !length_app. simpl. lia. }
  exists res. split.
  - assert (JS.eqb (trim line) [] = false) as Hnb
      by (rewrite Hline; apply not_blank_with, digit_not_space, Hdig).
    unfold classify.
    rewrite Hnb, (heading_no_match _ _ _ _ Hline Fw),
      (bulleted_no_match _ _ _ _ Hline Fw (digit_not_space _ Hdig)
         (digit_not_dash _ Hdig)), Hres.
    + reflexivity.
    + destruct (char "#" d) eqn:E; [|reflexivity].
      apply char_eq in E. subst d. discriminate.
  - destruct (numbered_parts _ _ Hres)
      as (v & vd & v' & t & Hl & -> & _ & Fv & Hvd & Fvd & _).
    destruct vd as [|e vd]; [simpl in Hvd; lia|].
    assert (digit e = true) as He
      by (simpl in Fvd; apply andb_true_iff in Fvd as [Fvd _]; exact Fvd).
    simpl in Hl.
    apply (app_eq_length _ _ (e :: vd ++ lit "." ++ v' ++ t)
             (d :: ds ++ lit "." ++ ws' ++ text)).
    + transitivity line; [symmetry; exact Hl|exact Hline].
    + rewrite <- (indent_run v e (vd ++ lit "." ++ v' ++ t) Fv
                    (digit_not_space _ He)).
      rewrite <- (indent_run ws d (ds ++ lit "." ++ ws' ++ text) Fw
                    (digit_not_space _ Hdig)).
      f_equal. transitivity line; [symmetry; exact Hl|exact Hline].
Qed.

(** X19 on the item numbered 10. *)
Lemma lines_with_a_number_witness :
  exists numberedListMatch,
    classify (lit " " ++ lit "10" ++ lit "." ++ lit " " ++ lit "a")
      = Numbered numberedListMatch /\
    group (lit " " ++ lit "10" ++ lit "." ++ lit " " ++ lit "a") 1
          numberedListMatch = lit " ".
Proof.
  apply (lines_with_a_number_are_numbered_items
           (lit " ") (lit "10") (lit " ") (lit "a"));
    solve [simpl; lia | reflexivity].
Defined.

Lemma in_Opt s a st st' :
  In st' (m s (Opt a) st) ->
  (In st' (m s a st) /\ pos st < pos st') \/ st' = st.
Proof.
  cbn [m]. intros Hin. apply in_app_or in Hin as [Hin|[<-|[]]]; [|auto].
  apply filter_In in Hin as [Hin Hlt]. apply Nat.ltb_lt in Hlt. auto.
Qed.

Lemma three_then_rest (t : jsstring) c0 c1 c2 :
  nth_error t 0 = Some c0 -> nth_error t 1 = Some c1 ->
  nth_error t 2 = Some c2 ->
  t = c0 :: c1 :: c2 :: skipn 3 t.
Proof.
  destruct t as [|x0 [|x1 [|x2 t]]]; simpl; try discriminate.
  intros [= ->] [= ->] [= ->]. reflexivity.
Qed.

(** What the pattern of the start of a code block matches: three
    backticks and then letters and digits only. *)
Lemma codeStart_parts t mt :
  matches t codeStartRegex = Some mt ->
  exists language,
    t = lit "```" ++ language /\ forallb alnum language = true.
Proof.
  intros H. destruct (exec_Some _ _ _ _ H) as (st & Hin & _ & _ & _).
  unfold codeStartRegex in Hin.
  apply in_Seq in Hin as (x1 & H1 & Hin). apply in_Bol in H1 as [H0 ->].
  apply in_Seq in Hin as (x2 & H2 & Hin).
  apply in_Chr in H2 as (c0 & Hc0 & E0 & ->). apply char_eq in E0.
  apply in_Seq in Hin as (x3 & H3 & Hin).
  apply in_Chr in H3 as (c1 & Hc1 & E1 & ->). apply char_eq in E1.
  apply in_Seq in Hin as (x4 & H4 & Hin).
  apply in_Chr in H4 as (c2 & Hc2 & E2 & ->). apply char_eq in E2.
  apply in_Seq in Hin as (x5 & H5 & Hin).
  apply in_Eol in Hin as [Hend ->].
  cbn [pos advance] in *. rewrite H0 in *. cbn [Nat.add] in *.
  pose proof (three_then_rest t _ _ _ Hc0 Hc1 Hc2) as Ht. subst c0 c1 c2.
  exists (skipn 3 t). split; [exact Ht|].
  apply in_Opt in H5 as [[H5 _]| ->].
  - apply in_Group in H5 as (y & Hy & ->).
    apply in_Greedy_run in Hy as (n & -> & _ & Hn & _).
    cbn [pos advance] in *.
    destruct (run_firstn _ _ _ Hn) as [_ F].
    rewrite firstn_skipn_all in F by exact Hend. exact F.
  - cbn [pos advance] in Hend.
    assert (skipn 3 t = []) as -> by (apply skipn_all2; lia). reflexivity.
Qed.

(** X20. The lines taken as the start of a code block are exactly the
    lines that are, once trimmed, three backticks followed by letters
    and digits only, possibly none. *)
Theorem code_block_opening_lines (line : jsstring) :
  (exists codeStartMatch, classify line = CodeStart codeStartMatch) <->
  (exists language,
     trim line = lit "```" ++ language /\ forallb alnum language = true).
Proof.
  split.
  - intros [mt Hc]. apply (codeStart_parts (trim line) mt).
    revert Hc. unfold classify.
    destruct (JS.eqb (trim line) []); [discriminate|].
    destruct (matches line headingRegex); [discriminate|].
    destruct (matches line bulletedListRegex); [discriminate|].
    destruct (matches line numberedListRegex); [discriminate|].
    destruct (startsWith _ _); [|discriminate].
    destruct (matches (trim line) codeStartRegex); [congruence|discriminate].
  - intros (language & Ht & Hl). apply (classify_fence line language Ht Hl).
Qed.

(* ================================================================== *)
(** ** What the inline requests range over *)
(* ================================================================== *)

Lemma eqb_eq a : forall b, JS.eqb a b = true -> a = b.
Proof.
  induction a as [|x a IH]; intros [|y b]; simpl; try discriminate;
    [reflexivity|].
  intros H. apply andb_true_iff in H as [Hx H]. apply N.eqb_eq in Hx.
  rewrite (IH _ H), Hx. reflexivity.
Qed.

Lemma in_Backref s n st st' a b :
  In st' (m s (Backref n) st) ->
  capture n (caps st) = Some (a, b) ->
  substring a b s = substring (pos st) (pos st + (b - a)) s /\
  pos st + (b - a) <= length s /\ st' = advance (b - a) st.
Proof.
  cbn [m]. intros Hin Hc. rewrite Hc in Hin.
  destruct (_ && _) eqn:E; [|contradiction].
  apply andb_true_iff in E as [E E'].
  apply Nat.leb_le in E'. apply eqb_eq in E. destruct Hin as [<-|[]]. auto.
Qed.

(** A string from a position on is the piece up to a later position and
    what comes then. *)
Lemma skipn_split (s : jsstring) a b :
  a <= b -> skipn a s = substring a b s ++ skipn b s.
Proof.
  intros Hab. unfold substring.
  replace (skipn b s) with (skipn (b - a) (skipn a s))
    by (rewrite skipn_skipn; f_equal; lia).
  symmetry. apply firstn_skipn.
Qed.

Lemma substring_one (s : jsstring) i c :
  nth_error s i = Some c -> substring i (i + 1) s = [c].
Proof.
  intros H. unfold substring. rewrite (skipn_nth _ _ _ H).
  replace (i + 1 - i) with 1 by lia. reflexivity.
Qed.

Lemma substring_two (s : jsstring) i c1 c2 :
  nth_error s i = Some c1 -> nth_error s (i + 1) = Some c2 ->
  substring i (i + 2) s = [c1; c2].
Proof.
  intros H1 H2. unfold substring. rewrite (skipn_nth _ _ _ H1).
  replace (S i) with (i + 1) by lia. rewrite (skipn_nth _ _ _ H2).
  replace (i + 2 - i) with 2 by lia. reflexivity.
Qed.

Lemma maxReps_run s c hi st :
  maxReps s c hi st <= prefixLen c (skipn (pos st) s).
Proof. unfold maxReps. destruct hi; lia. Qed.

(** What a bold match is: a delimiter of two asterisks or of two
    underscores, a text without line terminators, and the same delimiter
    again; the request ranges over the text between the delimiters. *)
Lemma bold_parts text startIndex lastIndex mt :
  exec text boldRegex lastIndex = Some mt ->
  exists pre delimiter inner post,
    text = pre ++ delimiter ++ inner ++ delimiter ++ post /\
    length pre = Regex.index mt /\ lastIndex <= length pre /\
    (delimiter = lit "**" \/ delimiter = lit "__") /\
    forallb dot inner = true /\
    boldRequest text startIndex mt
    = updateTextStyle bold (startIndex + (length pre + 2))
        (startIndex + (length pre + 2 + length inner)) "bold".
Proof.
  intros H. destruct (exec_Some _ _ _ _ H) as (st & Hin & He & Hg & Hi).
  set (i := Regex.index mt) in *.
  unfold boldRegex in Hin.
  apply in_Seq in Hin as (x1 & H1 & Hin).
  apply in_Group in H1 as (y1 & Hy1 & ->).
  assert (exists c, (c = 42%N \/ c = 95%N) /\
                    nth_error text i = Some c /\
                    nth_error text (i + 1) = Some c /\
                    y1 = advance 1 (advance 1 (MState i [])))
    as (c & Hc & N1 & N2 & ->).
  { apply in_Alt in Hy1 as [Hy1|Hy1];
      apply in_Seq in Hy1 as (z & Hz & Hy1);
      apply in_Chr in Hz as (c1 & Hc1 & E1 & ->);
      apply in_Chr in Hy1 as (c2 & Hc2 & E2 & ->);
      apply char_eq in E1, E2; subst c1 c2;
      eexists; (split; [|split; [exact Hc1|split; [exact Hc2|reflexivity]]]);
      [left|right]; reflexivity. }
  apply in_Seq in Hin as (x2 & H2 & Hin).
  apply in_Group in H2 as (y2 & Hy2 & ->).
  apply in_Lazy in Hy2 as (n & -> & _ & Hn).
  pose proof (Nat.le_trans _ _ _ Hn (maxReps_run _ _ _ _)) as Hn'.
  clear Hn.
  apply (in_Backref _ _ _ _ i (i + 1 + 1)) in Hin; [|reflexivity].
  destruct Hin as (Heq & Hlen & ->).
  cbn [pos advance caps] in *.
  replace (i + 1 + 1 - i) with 2 in * by lia.
  replace (i + 1 + 1) with (i + 2) in * by lia.
  pose proof (substring_two _ _ _ _ N1 N2) as D1.
  destruct (run_firstn _ _ _ Hn') as [Ln Fn].
  exists (firstn i text), [c; c], (substring (i + 2) (i + 2 + n) text),
         (skipn (i + 2 + n + 2) text).
  assert (length (firstn i text) = i) as Lpre
    by (rewrite length_firstn; lia).
  assert (length (substring (i + 2) (i + 2 + n) text) = n) as Linner
    by (unfold substring; replace (i + 2 + n - (i + 2)) with n by lia;
        exact Ln).
  repeat split.
  - rewrite <- (firstn_skipn i text) at 1. f_equal.
    rewrite (skipn_split text i (i + 2)) by lia. rewrite D1.
    cbn [app]. do 2 f_equal.
    rewrite (skipn_split text (i + 2) (i + 2 + n)) by lia. f_equal.
    rewrite (skipn_split text (i + 2 + n) (i + 2 + n + 2)) by lia.
    rewrite <- Heq, D1. reflexivity.
  - exact Lpre.
  - lia.
  - destruct Hc as [-> | ->]; [left|right]; reflexivity.
  - unfold substring. replace (i + 2 + n - (i + 2)) with n by lia. exact Fn.
  - unfold boldRequest, group. rewrite Hg. cbn [capture Nat.eqb].
    fold i. rewrite D1, Lpre, Linner. reflexivity.
Qed.

Lemma hd_skipn {A} (l : list A) : forall n,
  hd_error (skipn n l) = nth_error l n.
Proof.
  induction l as [|x l IH]; intros [|n]; simpl; auto.
Qed.

Lemma substring_one_inv (s : jsstring) p c :
  substring p (p + 1) s = [c] -> nth_error s p = Some c.
Proof.
  unfold substring. replace (p + 1 - p) with 1 by lia.
  rewrite <- hd_skipn. destruct (skipn p s); simpl; congruence.
Qed.

(** A backreference to a group of one character does not match where the
    next character is another one. *)
Lemma Backref_none s n st a c :
  m s (Backref n) st = [] -> capture n (caps st) = Some (a, a + 1) ->
  nth_error s a = Some c -> nth_error s (pos st) <> Some c.
Proof.
  cbn [m]. intros H Hc Ha Hp. rewrite Hc in H.
  replace (a + 1 - a) with 1 in H by lia.
  rewrite (substring_one _ _ _ Ha), (substring_one _ _ _ Hp) in H.
  assert ((pos st + 1 <=? length s) = true) as E.
  { apply Nat.leb_le.
    assert (pos st < length s) by (apply nth_error_Some; congruence). lia. }
  rewrite E in H. simpl in H. rewrite N.eqb_refl in H. discriminate.
Qed.

(** The lookbehind of the italic pattern: the character before the
    position is in neither class. *)
Lemma NegBehind_char s (c1 c2 : cls) st st' q x :
  In st' (m s (NegBehind (Alt (Chr c1) (Chr c2))) st) ->
  pos st = S q -> nth_error s q = Some x ->
  c1 x = false /\ c2 x = false.
Proof.
  intros Hin Hp Hx. remember (Alt (Chr c1) (Chr c2)) as a eqn:Ea.
  cbn [m] in Hin. destruct (existsb _ _) eqn:E; [contradiction|]. subst a.
  assert (c1 x = true \/ c2 x = true ->
          existsb
            (fun p =>
               existsb (fun st' => pos st' =? pos st)
                 (m s (Alt (Chr c1) (Chr c2)) (MState p (caps st))))
            (seq 0 (S (pos st))) = true) as Hex.
  { intros Hc. apply existsb_exists. exists q. split; [apply in_seq; lia|].
    apply existsb_exists. exists (advance 1 (MState q (caps st))).
    split; [|simpl; apply Nat.eqb_eq; lia].
    change (In (advance 1 (MState q (caps st)))
               (m s (Chr c1) (MState q (caps st)) ++
                m s (Chr c2) (MState q (caps st)))).
    apply in_or_app.
    destruct Hc as [Hc|Hc]; [left|right]; eapply Chr_in; eauto. }
  destruct (c1 x), (c2 x); auto; rewrite Hex in E by auto; discriminate.
Qed.

(** What an italic match is: a delimiter, an asterisk or an underscore
    that does not come after an asterisk or an underscore; a text without
    line terminators, not empty and not starting with the delimiter; and
    the delimiter again, not followed by itself.  The request ranges
    over the text between the delimiters. *)
Lemma italic_parts text startIndex lastIndex mt :
  exec text italicRegex lastIndex = Some mt ->
  exists pre c inner post,
    text = pre ++ [c] ++ inner ++ [c] ++ post /\
    length pre = Regex.index mt /\ lastIndex <= length pre /\
    ([c] = lit "*" \/ [c] = lit "_") /\
    (forall p x, pre = p ++ [x] ->
                 char "*" x = false /\ char "_" x = false) /\
    inner <> [] /\ hd_error inner <> Some c /\
    forallb dot inner = true /\
    hd_error post <> Some c /\
    italicRequest text startIndex mt
    = updateTextStyle italic (startIndex + (length pre + 1))
        (startIndex + (length pre + 1 + length inner)) "italic".
Proof.
  intros H. destruct (exec_Some _ _ _ _ H) as (st & Hin & He & Hg & Hi).
  set (i := Regex.index mt) in *.
  unfold italicRegex in Hin.
  apply in_Seq in Hin as (x1 & H1 & Hin).
  pose proof (NegBehind_char _ _ _ _ _ (i - 1) (nth (i - 1) text 0%N) H1)
    as Hbefore.
  apply in_NegBehind in H1 as ->.
  apply in_Seq in Hin as (x2 & H2 & Hin).
  apply in_Group in H2 as (y1 & Hy1 & ->).
  assert (exists c, ([c] = lit "*" \/ [c] = lit "_") /\
                    nth_error text i = Some c /\
                    y1 = advance 1 (MState i []))
    as (c & Hc & N1 & ->).
  { apply in_Alt in Hy1 as [Hy1|Hy1];
      apply in_Chr in Hy1 as (c1 & Hc1 & E1 & ->);
      apply char_eq in E1; subst c1;
      eexists; (split; [|split; [exact Hc1|reflexivity]]);
      [left|right]; reflexivity. }
  apply in_Seq in Hin as (x3 & H3 & Hin).
  apply in_Group in H3 as (y2 & Hy2 & ->).
  apply in_Seq in Hy2 as (z & Hz & Hy2).
  apply in_NegAhead in Hz as [-> Hno].
  apply (Backref_none _ _ _ i c) in Hno; [|reflexivity|exact N1].
  apply in_Lazy in Hy2 as (n & -> & _ & Hn).
  pose proof (Nat.le_trans _ _ _ Hn (maxReps_run _ _ _ _)) as Hn'.
  clear Hn.
  apply in_Seq in Hin as (x4 & H4 & Hin).
  apply (in_Backref _ _ _ _ i (i + 1)) in H4; [|reflexivity].
  destruct H4 as (Heq & Hlen & ->).
  apply in_NegAhead in Hin as [-> Hafter].
  apply (Backref_none _ _ _ i c) in Hafter; [|reflexivity|exact N1].
  cbn [pos advance caps] in *.
  replace (i + 1 - i) with 1 in * by lia.
  pose proof (substring_one _ _ _ N1) as D1.
  rewrite D1 in Heq. symmetry in Heq.
  pose proof (substring_one_inv _ _ _ Heq) as N2.
  assert (n <> 0) as Hn0.
  { intros ->. apply Hno. rewrite <- N2. f_equal. lia. }
  destruct (run_firstn _ _ _ Hn') as [Ln Fn].
  exists (firstn i text), c, (substring (i + 1) (i + 1 + n) text),
         (skipn (i + 1 + n + 1) text).
  assert (length (firstn i text) = i) as Lpre
    by (rewrite length_firstn; lia).
  assert (substring (i + 1) (i + 1 + n) text
          = firstn n (skipn (i + 1) text)) as Einner
    by (unfold substring; f_equal; lia).
  assert (Etext : text = firstn i text ++ [c] ++
                         substring (i + 1) (i + 1 + n) text ++ [c] ++
                         skipn (i + 1 + n + 1) text).
  { rewrite <- (firstn_skipn i text) at 1. f_equal.
    rewrite (skipn_split text i (i + 1)) by lia. rewrite D1.
    cbn [app]. f_equal.
    rewrite (skipn_split text (i + 1) (i + 1 + n)) by lia. f_equal.
    rewrite (skipn_split text (i + 1 + n) (i + 1 + n + 1)) by lia.
    rewrite Heq. reflexivity. }
  split; [exact Etext|]. split; [exact Lpre|]. split; [lia|].
  split; [exact Hc|]. split; [|split; [|split; [|split; [|split]]]].
  - intros p x Hpre.
    assert (length p + 1 = i) as Lp
      by (rewrite <- Lpre, Hpre, length_app; simpl; lia).
    assert (nth_error text (i - 1) = Some x) as Nx.
    { rewrite Etext, Hpre, <- app_assoc.
      replace (i - 1) with (length p) by lia.
      rewrite nth_error_app2 by lia. rewrite Nat.sub_diag. reflexivity. }
    rewrite (nth_error_nth _ _ _ Nx) in Hbefore.
    apply Hbefore; [simpl; lia|exact Nx].
  - intros E. rewrite Einner in E.
    rewrite E in Ln. simpl in Ln. lia.
  - rewrite Einner. rewrite <- hd_skipn in Hno.
    destruct n as [|n]; [lia|].
    destruct (skipn (i + 1) text); simpl in *; exact Hno.
  - rewrite Einner. exact Fn.
  - rewrite hd_skipn. exact Hafter.
  - unfold italicRequest, group. rewrite Hg. cbn [capture Nat.eqb].
    fold i. rewrite Einner, Ln, Lpre. reflexivity.
Qed.

(** What a link match is: a text in square brackets and, right after it,
    a URL in parentheses, both without line terminators; the request
    ranges over the text in the brackets and carries the URL. *)
Lemma link_parts text startIndex lastIndex mt :
  exec text linkRegex lastIndex = Some mt ->
  exists pre linkText linkUrl post,
    text = pre ++ lit "[" ++ linkText ++ lit "](" ++ linkUrl ++ lit ")"
               ++ post /\
    length pre = Regex.index mt /\ lastIndex <= length pre /\
    forallb dot linkText = true /\ forallb dot linkUrl = true /\
    linkRequest text startIndex mt
    = updateTextStyle (link linkUrl) (startIndex + (length pre + 1))
        (startIndex + (length pre + 1 + length linkText)) "link".
Proof.
  intros H. destruct (exec_Some _ _ _ _ H) as (st & Hin & He & Hg & Hi).
  set (i := Regex.index mt) in *.
  unfold linkRegex in Hin.
  apply in_Seq in Hin as (x1 & H1 & Hin).
  apply in_Chr in H1 as (c1 & N1 & E1 & ->). apply char_eq in E1. subst c1.
  apply in_Seq in Hin as (x2 & H2 & Hin).
  apply in_Group in H2 as (y1 & Hy1 & ->).
  apply in_Lazy in Hy1 as (n & -> & _ & Hn).
  pose proof (Nat.le_trans _ _ _ Hn (maxReps_run _ _ _ _)) as Hn'.
  clear Hn.
  apply in_Seq in Hin as (x3 & H3 & Hin).
  apply in_Chr in H3 as (c3 & N3 & E3 & ->). apply char_eq in E3. subst c3.
  apply in_Seq in Hin as (x4 & H4 & Hin).
  apply in_Chr in H4 as (c4 & N4 & E4 & ->). apply char_eq in E4. subst c4.
  apply in_Seq in Hin as (x5 & H5 & Hin).
  apply in_Group in H5 as (y2 & Hy2 & ->).
  apply in_Lazy in Hy2 as (k & -> & _ & Hk).
  pose proof (Nat.le_trans _ _ _ Hk (maxReps_run _ _ _ _)) as Hk'.
  clear Hk.
  apply in_Chr in Hin as (c6 & N6 & E6 & ->). apply char_eq in E6. subst c6.
  cbn [pos advance caps] in *.
  destruct (run_firstn _ _ _ Hn') as [Ln Fn].
  destruct (run_firstn _ _ _ Hk') as [Lk Fk].
  set (p1 := i + 1) in *. set (p2 := p1 + n) in *.
  set (p3 := p2 + 1 + 1) in *. set (p4 := p3 + k) in *.
  assert (substring p1 p2 text = firstn n (skipn p1 text)) as E1
    by (unfold substring; f_equal; lia).
  assert (substring p3 p4 text = firstn k (skipn p3 text)) as E2
    by (unfold substring; f_equal; lia).
  exists (firstn i text), (substring p1 p2 text), (substring p3 p4 text),
         (skipn (p4 + 1) text).
  assert (length (firstn i text) = i) as Lpre
    by (rewrite length_firstn; lia).
  split; [|split; [exact Lpre|split; [lia|split; [|split]]]].
  - rewrite <- (firstn_skipn i text) at 1. f_equal.
    rewrite (skipn_split text i p1) by lia.
    unfold p1 at 1. rewrite (substring_one _ _ _ N1).
    change (lit "[") with [N_of_ascii "["]. cbn [app]. f_equal.
    rewrite (skipn_split text p1 p2) by lia. f_equal.
    rewrite (skipn_split text p2 (p2 + 2)) by lia.
    rewrite (substring_two _ _ _ _ N3 N4).
    change (lit "](") with [N_of_ascii "]"; N_of_ascii "("].
    cbn [app]. do 2 f_equal.
    replace (p2 + 2) with p3 by lia.
    rewrite (skipn_split text p3 p4) by lia. f_equal.
    rewrite (skipn_split text p4 (p4 + 1)) by lia.
    rewrite (substring_one _ _ _ N6). reflexivity.
  - rewrite E1. exact Fn.
  - rewrite E2. exact Fk.
  - unfold linkRequest, group. rewrite Hg. cbn [capture Nat.eqb].
    fold i. fold p1. rewrite E1, E2, Ln, Lpre. reflexivity.
Qed.

(** X21. Every bold request of a text ranges over exactly what stands
    between a pair of equal delimiters of the text, two asterisks or two
    underscores, with no line terminator between them; the delimiters
    themselves are outside the range. *)
Theorem bold_requests_are_between_delimiters text startIndex :
  exists bs, boldRequests text startIndex = Some bs /\
             Forall (boldSpan text startIndex) bs.
Proof.
  destruct (boldRequests_total text startIndex) as (bs & E & _).
  exists bs. split; [exact E|]. unfold boldRequests in E.
  destruct (execLoop _ text boldRegex 0) as [l|] eqn:Hl; [|discriminate].
  injection E as <-. apply execLoop_matches in Hl.
  apply Forall_map. eapply Forall_impl; [|exact Hl].
  intros mt [i Hmt].
  destruct (bold_parts text startIndex i mt Hmt)
    as (pre & d & inner & post & Ht & _ & _ & Hd & Hdot & Hr).
  exists pre, d, inner, post. auto.
Qed.

(** X22. Every italic request of a text, on any engine, ranges over
    exactly what stands between two equal delimiters, asterisks or
    underscores: the opening one does not come after an asterisk or an
    underscore, the text between is not empty, has no line terminator and
    does not start with the delimiter, and the closing one is not
    followed by the delimiter. *)
Theorem italic_requests_are_between_delimiters fault text startIndex :
  exists its, italicRequests fault text startIndex = Some its /\
              Forall (italicSpan text startIndex) its.
Proof.
  destruct (italicRequests_total fault text startIndex) as (its & E & _).
  exists its. split; [exact E|]. unfold italicRequests in E.
  destruct (italicLoop fault _ text 0) as [l|] eqn:Hl; [|discriminate].
  injection E as <-. apply italicLoop_matches in Hl.
  apply Forall_map. eapply Forall_impl; [|exact Hl].
  intros mt [i Hmt].
  destruct (italic_parts text startIndex i mt Hmt)
    as (pre & c & inner & post & Ht & _ & _ & Hc & Hpre & Hne & Hhd & Hdot
        & Hpost & Hr).
  exists pre, c, inner, post. repeat (split; [assumption|]). assumption.
Qed.

(** X23. Every link request of a text ranges over exactly the text in
    square brackets of a part [text](url) of the text and carries the URL
    of its parentheses; neither the text nor the URL has a line
    terminator, and the brackets are outside the range. *)
Theorem link_requests_are_bracketed_texts text startIndex :
  exists ls, linkRequests text startIndex = Some ls /\
             Forall (linkSpan text startIndex) ls.
Proof.
  destruct (linkRequests_total text startIndex) as (ls & E & _).
  exists ls. split; [exact E|]. unfold linkRequests in E.
  destruct (execLoop _ text linkRegex 0) as [l|] eqn:Hl; [|discriminate].
  injection E as <-. apply execLoop_matches in Hl.
  apply Forall_map. eapply Forall_impl; [|exact Hl].
  intros mt [i Hmt].
  destruct (link_parts text startIndex i mt Hmt)
    as (pre & t & u & post & Ht & _ & _ & Hdt & Hdu & Hr).
  exists pre, t, u, post. auto.
Qed.

(* ================================================================== *)
(** ** List items, and where inline spans are scanned *)
(* ================================================================== *)

(** The [while] loop of a code block stops at the first line that opens
    a fence, or at the end of the lines: what it takes is the lines
    before, as they are, a newline after each. *)
Lemma scanCode_split : forall ls codeContent,
  exists content fromJ,
    ls = content ++ fromJ /\
    Forall (fun l => opensFence l = false) content /\
    match fromJ with
    | [] => True
    | close :: _ => opensFence close = true
    end /\
    scanCode ls codeContent = (codeContent ++ unlines content, fromJ).
Proof.
  induction ls as [|l ls IH]; intros codeContent.
  - exists [], []. simpl. rewrite app_nil_r. auto.
  - simpl. destruct (startsWith (trim l) (lit "```")) eqn:E.
    + exists [], (l :: ls). simpl. rewrite app_nil_r. auto.
    + destruct (IH (codeContent ++ l ++ [LF]))
        as (content & fromJ & -> & Hall & Hhd & Hs).
      exists (l :: content), fromJ.
      split; [reflexivity|]. split; [constructor; assumption|].
      split; [assumption|].
      rewrite Hs. unfold unlines. simpl. rewrite <- !app_assoc.
      reflexivity.
Qed.

Lemma classify_CodeStart line mt :
  classify line = CodeStart mt ->
  matches (trim line) codeStartRegex = Some mt.
Proof.
  unfold classify. destruct (JS.eqb (trim line) []); [discriminate|].
  destruct (matches line headingRegex); [discriminate|].
  destruct (matches line bulletedListRegex); [discriminate|].
  destruct (matches line numberedListRegex); [discriminate|].
  destruct (startsWith _ _); [|discriminate].
  destruct (matches (trim line) codeStartRegex); [congruence|discriminate].
Qed.

(** A fence with anything but letters and digits after its backticks is
    a paragraph. *)
Lemma classify_fence_with_info line info :
  trim line = lit "```" ++ info -> forallb alnum info = false ->
  classify line = Paragraph.
Proof.
  intros Ht Hinfo. apply classify_other_fence.
  - unfold opensFence. rewrite Ht. destruct info; reflexivity.
  - destruct (matches (trim line) codeStartRegex) as [mt|] eqn:E;
      [|reflexivity].
    apply codeStart_parts in E as (language & Hl & Ha).
    rewrite Ht in Hl. apply app_inv_head in Hl. congruence.
Qed.

(** What the inline requests of a text range over. *)
Lemma boldRequests_spans text startIndex bs :
  boldRequests text startIndex = Some bs ->
  Forall (boldSpan text startIndex) bs.
Proof.
  unfold boldRequests. intros E.
  destruct (execLoop _ text boldRegex 0) as [l|] eqn:Hl; [|discriminate].
  injection E as <-. apply execLoop_matches in Hl.
  apply Forall_map. eapply Forall_impl; [|exact Hl].
  intros mt [i Hmt].
  destruct (bold_parts text startIndex i mt Hmt)
    as (pre & d & inner & post & Ht & _ & _ & Hd & Hdot & Hr).
  exists pre, d, inner, post. auto.
Qed.

Lemma italicRequests_spans fault text startIndex its :
  italicRequests fault text startIndex = Some its ->
  Forall (italicSpan text startIndex) its.
Proof.
  unfold italicRequests. intros E.
  destruct (italicLoop fault _ text 0) as [l|] eqn:Hl; [|discriminate].
  injection E as <-. apply italicLoop_matches in Hl.
  apply Forall_map. eapply Forall_impl; [|exact Hl].
  intros mt [i Hmt].
  destruct (italic_parts text startIndex i mt Hmt)
    as (pre & c & inner & post & Ht & _ & _ & Hc & Hpre & Hne & Hhd & Hdot
        & Hpost & Hr).
  exists pre, c, inner, post. repeat (split; [assumption|]). assumption.
Qed.

Lemma linkRequests_spans text startIndex ls :
  linkRequests text startIndex = Some ls ->
  Forall (linkSpan text startIndex) ls.
Proof.
  unfold linkRequests. intros E.
  destruct (execLoop _ text linkRegex 0) as [l|] eqn:Hl; [|discriminate].
  injection E as <-. apply execLoop_matches in Hl.
  apply Forall_map. eapply Forall_impl; [|exact Hl].
  intros mt [i Hmt].
  destruct (link_parts text startIndex i mt Hmt)
    as (pre & t & u & post & Ht & _ & _ & Hdt & Hdu & Hr).
  exists pre, t, u, post. auto.
Qed.

(** The element loop pushes no list-bullet request. *)
Lemma fold_emit_no_bullets : forall elements idx reqs,
  Forall (fun r => isBullets r = false) reqs ->
  Forall (fun r => isBullets r = false)
         (snd (fold_left (fun st e => Marked.emit e st) elements
                         (idx, reqs))).
Proof.
  induction elements as [|e elements IH]; intros idx reqs Hall;
    cbn [fold_left]; [exact Hall|].
  destruct (Marked.emit e (idx, reqs)) as [i r] eqn:E. apply IH.
  destruct e; simpl in E; injection E as <- <-;
    (apply Forall_app; split; [exact Hall|]); repeat constructor.
Qed.

(** C2, as stated, fails: for the ordered item "1. a" the inserted text
    is the item text and a newline without the ordinal prefix, and the
    range of the list-bullet request ends at 2, not after a prefix. *)
Lemma list_item_without_prefix :
  convertMarkdownToRequests (lit "1. a")
    = Some [insertText (lit "a" ++ [LF]) 1;
            createParagraphBullets 1 2 NUMBERED_DECIMAL_NESTED] /\
  lit "a" ++ [LF] <> lit "1. " ++ lit "a" ++ [LF] /\
  2 <> 1 + length (lit "1. ") + length (lit "a").
Proof. repeat split; discriminate. Qed.

(** C2, amended. A list-item line of the line-based converter is white
    space (the indent), the marker (a dash, or digits and a dot), white
    space and the item text.  For every such line the converter inserts
    the item text and a newline, without a glyph prefix and without the
    marker; the list-bullet request that follows ranges from the cursor
    to the cursor plus the length of the text; when the indent is not
    empty, an indent paragraph style of 18 points for every character of
    the indent follows over the same range; and the cursor advances by
    the length of the text plus 1.  In the element loop of the
    marked-based processMarkdown, a list-item element is inserted at the
    cursor as a prefix, its text and a newline, the prefix being the
    index of the element and ". " when the element is marked ordered and
    a bullet and a space otherwise; it is followed not by a list-bullet
    request, of which the loop pushes none, but by the indent paragraph
    style of 36 and -18 points, from the cursor to the cursor plus the
    lengths of the prefix and of the text. *)
Theorem list_item_requests :
  (forall (line : jsstring) (rest : list jsstring) (idx : nat)
          (reqs : list request) (mt : result) (preset : bulletPreset),
     listItemLine line mt preset ->
     exists ws marker ws' text,
       line = ws ++ marker ++ ws' ++ text /\
       forallb space ws = true /\
       (preset = BULLET_DISC_CIRCLE_SQUARE /\ marker = lit "-" \/
        preset = NUMBERED_DECIMAL_NESTED /\
        exists digits,
          marker = digits ++ lit "." /\
          1 <= length digits /\ forallb digit digits = true) /\
       1 <= length ws' /\ forallb space ws' = true /\
       1 <= length text /\ forallb dot text = true /\
       body noFault line rest idx reqs
       = Some (State rest (idx + (length text + 1))
                 (reqs ++
                  [insertText (text ++ [LF]) idx;
                   createParagraphBullets idx (idx + length text) preset] ++
                  (if 0 <? length ws
                   then [updateParagraphStyle
                           (indentPT (Z.of_nat (length ws * 18)) 0) idx
                           (idx + length text)
                           "indentStart,indentFirstLine"]
                   else [])))) /\
  (forall (before : list Marked.element) (text : jsstring)
          (ordered : bool) (n : nat) (after : list Marked.element),
     let cursor := 1 + insertedLength (Marked.requestsOf before) in
     let prefix := Marked.prefix ordered n in
     Marked.requestsOf (before ++ Marked.listItem text ordered n :: after)
     = Marked.requestsOf before ++
       [insertText (prefix ++ text ++ [LF]) cursor;
        updateParagraphStyle (indentPT 36 (-18)) cursor
          (cursor + length prefix + length text)
          "indentStart,indentFirstLine"] ++
       map (shift (cursor + length prefix + length text))
           (Marked.requestsOf after)) /\
  (forall elements : list Marked.element,
     Forall (fun r => isBullets r = false) (Marked.requestsOf elements)).
Proof.
  split; [|split].
  - intros line rest idx reqs mt preset [[Hc ->]|[Hc ->]].
    + pose proof (classify_Bulleted _ _ Hc) as Hm.
      destruct (bulleted_parts _ _ Hm)
        as (ws & ws' & text & Hl & G1 & G2 & Fw & Hw' & Fw' & Ht & Ft).
      exists ws, (lit "-"), ws', text.
      split; [exact Hl|]. split; [exact Fw|]. split; [left; auto|].
      repeat (split; [assumption|]).
      unfold body, listItem. rewrite Hc, G1, G2. reflexivity.
    + pose proof (classify_Numbered _ _ Hc) as Hm.
      destruct (numbered_parts _ _ Hm)
        as (ws & digits & ws' & text & Hl & G1 & G2 & Fw & Hd & Fd & Hw'
            & Fw' & Ht & Ft).
      exists ws, (digits ++ lit "."), ws', text.
      split; [rewrite <- app_assoc; exact Hl|]. split; [exact Fw|].
      split; [right; split; [reflexivity|]; exists digits; auto|].
      repeat (split; [assumption|]).
      unfold body, listItem. rewrite Hc, G1, G2. reflexivity.
  - intros before text ordered n after cursor prefix.
    unfold Marked.requestsOf in *. rewrite fold_left_app.
    destruct (fold_emit_cursor before 1 [] eq_refl (Forall_nil _))
      as (Hidx & _ & _).
    subst cursor.
    destruct (fold_left (fun st e => Marked.emit e st) before (1, []))
      as [i r].
    simpl in Hidx. subst i. cbn [fold_left snd].
    set (cursor := 1 + insertedLength r).
    set (d := cursor + length prefix + length text).
    pose proof (fold_emit_shift d
                  (r ++ [insertText (prefix ++ text ++ [LF]) cursor;
                         updateParagraphStyle (indentPT 36 (-18)) cursor
                           (cursor + length prefix + length text)
                           "indentStart,indentFirstLine"])
                  after 1 []) as H.
    cbn [map] in H. rewrite app_nil_r in H.
    assert (Marked.emit (Marked.listItem text ordered n) (cursor, r)
            = (1 + d,
               r ++ [insertText (prefix ++ text ++ [LF]) cursor;
                     updateParagraphStyle (indentPT 36 (-18)) cursor
                       (cursor + length prefix + length text)
                       "indentStart,indentFirstLine"])) as Hemit.
    { unfold Marked.emit, Marked.listItemStyle.
      apply pair_eq; [unfold d, prefix; lia|reflexivity]. }
    change (S (insertedLength r)) with cursor.
    rewrite Hemit, H. cbn [snd]. rewrite <- app_assoc. reflexivity.
  - intros elements. apply fold_emit_no_bullets. constructor.
Qed.

(** C2 on a bulleted item indented by two spaces. *)
Lemma list_item_requests_witness :
  listItemLine (lit "  - a") (Result 0 5 [(2, (4, 5)); (1, (0, 2))])
               BULLET_DISC_CIRCLE_SQUARE /\
  exists ws marker ws' text,
    lit "  - a" = ws ++ marker ++ ws' ++ text /\
    body noFault (lit "  - a") [] 1 []
    = Some (State [] (1 + (length text + 1))
              ([insertText (text ++ [LF]) 1;
                createParagraphBullets 1 (1 + length text)
                  BULLET_DISC_CIRCLE_SQUARE] ++
               (if 0 <? length ws
                then [updateParagraphStyle
                        (indentPT (Z.of_nat (length ws * 18)) 0) 1
                        (1 + length text) "indentStart,indentFirstLine"]
                else []))).
Proof.
  assert (listItemLine (lit "  - a") (Result 0 5 [(2, (4, 5)); (1, (0, 2))])
                       BULLET_DISC_CIRCLE_SQUARE) as Hline
    by (left; split; reflexivity).
  split; [exact Hline|].
  destruct (proj1 list_item_requests (lit "  - a") [] 1 [] _ _ Hline)
    as (ws & marker & ws' & text & Hl & _ & _ & _ & _ & _ & _ & Hb).
  exists ws, marker, ws', text. split; assumption.
Defined.

(** C3, as stated, fails.  A heading with bold and link markers gives
    the [insertText] and the paragraph style only, and no
    [updateTextStyle], while the same text as a paragraph gives a bold
    and a link request.  And the text between a fence with the info
    string "c++" and the closing fence is scanned: its line is
    converted as a paragraph and gets a bold request. *)
Lemma heading_markers_not_scanned :
  convertMarkdownToRequests (lit "# **B** [go](http://x)")
    = Some [insertText (lit "**B** [go](http://x)" ++ [LF]) 1;
            updateParagraphStyle (HEADING 1) 1 21 "namedStyleType"] /\
  convertMarkdownToRequests (lit "**B** [go](http://x)")
    = Some [insertText (lit "**B** [go](http://x)" ++ [LF]) 1;
            updateTextStyle bold 3 4 "bold";
            updateTextStyle (link (lit "http://x")) 8 10 "link"] /\
  convertMarkdownToRequests
    (lit "```c++" ++ [LF] ++ lit "**b**" ++ [LF] ++ lit "```")
    = Some [insertText (lit "```c++" ++ [LF]) 1;
            insertText (lit "**b**" ++ [LF]) 8;
            updateTextStyle bold 10 11 "bold";
            insertText [] 14;
            updateTextStyle courierOnGray 14 14
              "fontFamily,backgroundColor"].
Proof. repeat split; reflexivity. Qed.

(** C3, amended. Inline-span scanning is applied to the text of paragraph
    lines only.  An iteration on a paragraph line pushes the [insertText]
    of the line and then the bold, the italic and the link requests of
    the line, each over what stands between its delimiters or in its
    brackets, counted from the cursor of before the insert and inside
    the line.  An iteration on a blank line, a heading or a list item
    goes on with the next line and pushes no [updateTextStyle] at all.
    The text of a code block is never scanned: the lines taken as the
    opening line of a code block are lines that are, once trimmed, three
    backticks followed by letters and digits only, and an iteration on
    one takes the lines up to the first line that starts, once trimmed,
    with three backticks, or all the lines that are left, pushes the
    [insertText] of those lines and the Courier New style over it and
    nothing else, and goes on after the closing line.  A fence with any
    other info string opens no code block: it is a paragraph, and the
    lines after it are converted like any other line. *)
Theorem inline_formatting_only_for_paragraphs
    (line : jsstring) (rest : list jsstring) (idx : nat) (reqs : list request) :
  match classify line with
  | Paragraph =>
      exists bs its ls,
        boldRequests line idx = Some bs /\
        italicRequests noFault line idx = Some its /\
        linkRequests line idx = Some ls /\
        Forall (boldSpan line idx) bs /\
        Forall (italicSpan line idx) its /\
        Forall (linkSpan line idx) ls /\
        Forall (spanWithin idx (idx + length line)) (bs ++ its ++ ls) /\
        body noFault line rest idx reqs
          = Some (State rest (idx + (length line + 1))
                    (reqs ++ insertText (line ++ [LF]) idx
                          :: bs ++ its ++ ls))
  | CodeStart _ =>
      (exists language,
         trim line = lit "```" ++ language /\
         forallb alnum language = true) /\
      exists content fromJ,
        rest = content ++ fromJ /\
        Forall (fun l => opensFence l = false) content /\
        match fromJ with
        | [] => True
        | close :: _ => opensFence close = true
        end /\
        body noFault line rest idx reqs
          = Some (State (tl fromJ) (idx + length (unlines content))
                    (reqs ++
                     [insertText (unlines content) idx;
                      updateTextStyle courierOnGray idx
                        (idx + length (unlines content))
                        "fontFamily,backgroundColor"]))
  | BlankLine | Heading _ | Bulleted _ | Numbered _ =>
      exists idx' pushed,
        body noFault line rest idx reqs
          = Some (State rest idx' (reqs ++ pushed)) /\
        Forall (fun r => isTextStyle r = false) pushed
  end /\
  (forall info,
     trim line = lit "```" ++ info -> forallb alnum info = false ->
     classify line = Paragraph).
Proof.
  split; [|apply classify_fence_with_info].
  unfold body. destruct (classify line) eqn:Hc; unfold listItem.
  - eexists _, _. split; [reflexivity|]. repeat constructor.
  - eexists _, _. split; [reflexivity|]. repeat constructor.
  - eexists _, _. split; [reflexivity|].
    destruct (0 <? _); repeat constructor.
  - eexists _, _. split; [reflexivity|].
    destruct (0 <? _); repeat constructor.
  - split; [exact (codeStart_parts _ _ (classify_CodeStart _ _ Hc))|].
    destruct (scanCode_split rest [])
      as (content & fromJ & Hrest & Hall & Hhd & Hs).
    exists content, fromJ. rewrite Hs. auto.
  - destruct (processInlineFormatting_total noFault
                (reqs ++ [insertText (line ++ [LF]) idx]) line idx)
      as (bs & its & ls & Eb & Ei & El & E & _).
    destruct (processInlineFormatting_spans noFault
                (reqs ++ [insertText (line ++ [LF]) idx]) line idx)
      as (new & E' & Hall).
    rewrite E in E'. injection E' as E'. apply app_inv_head in E'.
    subst new.
    exists bs, its, ls.
    split; [exact Eb|]. split; [exact Ei|]. split; [exact El|].
    split; [exact (boldRequests_spans _ _ _ Eb)|].
    split; [exact (italicRequests_spans _ _ _ _ Ei)|].
    split; [exact (linkRequests_spans _ _ _ El)|].
    split; [exact Hall|].
    rewrite E. simpl. rewrite <- app_assoc. reflexivity.
Qed.

(** C3 on a fence with the info string "c++": the line is a
    paragraph. *)
Lemma inline_formatting_witness : classify (lit "```c++") = Paragraph.
Proof.
  exact (proj2 (inline_formatting_only_for_paragraphs (lit "```c++") [] 1 [])
               (lit "c++") eq_refl eq_refl).
Defined.
